(** * Boolean model for information retrieval: normalizer, index builder,
    index codec, boolean and proximity query evaluators.

    A shallow embedding of [main.py].  Python [str] values are Rocq strings
    over 8-bit characters (code points below 256), Python [int] values are
    [Z], dictionaries are insertion-ordered association lists, sets of
    document ids are [gset]s, and an operation that can raise returns a sum
    whose left side is the exception.

    Two things the program takes from outside are parameters of the model:
    the NLTK Porter stemmer ([stem]) and the stopword list read from
    [Stopword-List.txt] ([stop_words]); the proximity evaluator also takes
    NLTK's [word_tokenize]. *)

From stdpp Require Import base decidable option list sorting gmap strings pretty.
From Stdlib Require Import ZArith Ascii.

Local Open Scope Z_scope.

(** ** Exceptions *)

Inductive exn : Type :=
  | IndexError
  | ValueError
  | TypeError.

Abbreviation ok := (@inr exn _).
Abbreviation raise := (@inl exn _).

Definition bind {A B} (m : exn + A) (f : A → exn + B) : exn + B :=
  match m with
  | inl e => inl e
  | inr a => f a
  end.

Notation "'let?' x := m 'in' k" := (bind m (fun x => k))
  (at level 10, x pattern, m at level 100, k at level 200).

(** ** Characters and strings *)

Module Chr.

Definition code (c : ascii) : N := N_of_ascii c.

Definition between (lo hi : N) (c : ascii) : bool :=
  ((lo <=? code c) && (code c <=? hi))%N.

(** [str.isspace], [str.split] and the regex class [\s] agree on which
    characters are white space. *)
Definition isspace (c : ascii) : bool :=
  between 9 13 c || between 28 32 c || (code c =? 133)%N || (code c =? 160)%N.

Definition isupper_ascii (c : ascii) : bool := between 65 90 c.
Definition islower_ascii (c : ascii) : bool := between 97 122 c.
Definition isdigit (c : ascii) : bool := between 48 57 c.

(** The class [[a-zA-Z0-9]]. *)
Definition isalnum_ascii (c : ascii) : bool :=
  isupper_ascii c || islower_ascii c || isdigit c.

(** [c.isalpha()]: the letters among the first 256 code points. *)
Definition isalpha (c : ascii) : bool :=
  isupper_ascii c || islower_ascii c
  || (code c =? 170)%N || (code c =? 181)%N || (code c =? 186)%N
  || between 192 214 c || between 216 246 c || between 248 255 c.

(** [c.lower()] on the first 256 code points. *)
Definition lower (c : ascii) : ascii :=
  if isupper_ascii c || between 192 214 c || between 216 222 c
  then ascii_of_N (code c + 32)
  else c.

(** The classes of the email pattern:
    [[a-zA-Z0-9_.+-]], [[a-zA-Z0-9-]] and [[a-zA-Z0-9-.]]. *)
Definition email_local (c : ascii) : bool :=
  isalnum_ascii c || (code c =? 95)%N || (code c =? 46)%N
  || (code c =? 43)%N || (code c =? 45)%N.
Definition email_domain (c : ascii) : bool :=
  isalnum_ascii c || (code c =? 45)%N.
Definition email_tld (c : ascii) : bool :=
  isalnum_ascii c || (code c =? 45)%N || (code c =? 46)%N.

End Chr.

Module Str.

Fixpoint filter (p : ascii → bool) (s : string) : string :=
  match s with
  | EmptyString => EmptyString
  | String c s' => if p c then String c (filter p s') else filter p s'
  end.

Fixpoint map (f : ascii → ascii) (s : string) : string :=
  match s with
  | EmptyString => EmptyString
  | String c s' => String (f c) (map f s')
  end.

Fixpoint existsb (p : ascii → bool) (s : string) : bool :=
  match s with
  | EmptyString => false
  | String c s' => p c || existsb p s'
  end.

Fixpoint forallb (p : ascii → bool) (s : string) : bool :=
  match s with
  | EmptyString => true
  | String c s' => p c && forallb p s'
  end.

Definition is_empty (s : string) : bool :=
  match s with
  | EmptyString => true
  | String _ _ => false
  end.

(** The longest prefix whose characters all satisfy [p], and the rest. *)
Fixpoint span (p : ascii → bool) (s : string) : string * string :=
  match s with
  | EmptyString => (EmptyString, EmptyString)
  | String c s' =>
      if p c then let '(a, b) := span p s' in (String c a, b)
      else (EmptyString, s)
  end.

(** [s.startswith(pre)], returning what follows the prefix. *)
Fixpoint strip_prefix (pre s : string) : option string :=
  match pre, s with
  | EmptyString, _ => Some s
  | String a pre', String b s' =>
      if Ascii.eqb a b then strip_prefix pre' s' else None
  | String _ _, EmptyString => None
  end.

Definition lower (s : string) : string := map Chr.lower s.

(** [s.split()]: the maximal runs of non-space characters, in order.
    [cur] is the word being read. *)
Fixpoint split_go (cur : string) (s : string) : list string :=
  match s with
  | EmptyString => if is_empty cur then [] else [cur]
  | String c s' =>
      if Chr.isspace c
      then (if is_empty cur then split_go "" s' else cur :: split_go "" s')
      else split_go (cur +:+ String c "") s'
  end.

Definition split (s : string) : list string := split_go "" s.

(** [s.split(sep)] for a one-character separator: every occurrence
    separates, empty fields are kept. *)
Fixpoint split_on_go (sep : ascii) (cur : string) (s : string) : list string :=
  match s with
  | EmptyString => [cur]
  | String c s' =>
      if Ascii.eqb c sep then cur :: split_on_go sep "" s'
      else split_on_go sep (cur +:+ String c "") s'
  end.

Definition split_on (sep : ascii) (s : string) : list string :=
  split_on_go sep "" s.

(** [sep.join(parts)]. *)
Fixpoint join (sep : string) (parts : list string) : string :=
  match parts with
  | [] => ""
  | [p] => p
  | p :: rest => p +:+ sep +:+ join sep rest
  end.

Fixpoint lstrip (s : string) : string :=
  match s with
  | EmptyString => EmptyString
  | String c s' => if Chr.isspace c then lstrip s' else s
  end.

(** [s.strip()]. *)
Definition strip (s : string) : string :=
  String.rev (lstrip (String.rev (lstrip s))).

(** [s[1:-1]]. *)
Definition slice_1_m1 (s : string) : string :=
  match s with
  | EmptyString => EmptyString
  | String _ s' => String.rev (match String.rev s' with
                               | EmptyString => EmptyString
                               | String _ r => r
                               end)
  end.

End Str.

(** ** Regular expressions of the normalizer

    In each of the three patterns a greedy repetition is followed by a
    character outside its class (or by nothing), so the backtracking matcher
    succeeds exactly when the maximal runs fit; each matcher returns the
    matched text and what follows it. *)

Module Re.

Definition nonempty_span (p : ascii → bool) (s : string) : option (string * string) :=
  let '(a, b) := Str.span p s in
  if Str.is_empty a then None else Some (a, b).

(** [[a-zA-Z0-9_.+-]+@[a-zA-Z0-9-]+\.[a-zA-Z0-9-.]+] at the start of [s]. *)
Definition match_email (s : string) : option (string * string) :=
  '(loc, r1) ← nonempty_span Chr.email_local s;
  r2 ← Str.strip_prefix "@" r1;
  '(dom, r3) ← nonempty_span Chr.email_domain r2;
  r4 ← Str.strip_prefix "." r3;
  '(tld, r5) ← nonempty_span Chr.email_tld r4;
  Some (loc +:+ "@" +:+ dom +:+ "." +:+ tld, r5).

(** [https?://[^\s]+] at the start of [s]. *)
Definition match_url (s : string) : option (string * string) :=
  match Str.strip_prefix "https://" s with
  | Some r =>
      '(body, rest) ← nonempty_span (λ c, negb (Chr.isspace c)) r;
      Some ("https://" +:+ body, rest)
  | None =>
      r ← Str.strip_prefix "http://" s;
      '(body, rest) ← nonempty_span (λ c, negb (Chr.isspace c)) r;
      Some ("http://" +:+ body, rest)
  end.

(** [\S+] at the start of [s]. *)
Definition match_nonspace (s : string) : option (string * string) :=
  nonempty_span (λ c, negb (Chr.isspace c)) s.

(** The alternation [(?:email|url|\S+)]: the first alternative that
    matches wins. *)
Definition match_word (s : string) : option (string * string) :=
  match match_email s with
  | Some r => Some r
  | None =>
      match match_url s with
      | Some r => Some r
      | None => match_nonspace s
      end
  end.

(** [re.findall]: scan from the left; after a match continue behind it,
    otherwise move one character on.  Every match is non-empty, so a fuel
    of the length of the text is never used up. *)
Fixpoint findall_fuel (fuel : nat) (s : string) : list string :=
  match fuel with
  | O => []
  | S fuel' =>
      match s with
      | EmptyString => []
      | String _ s' =>
          match match_word s with
          | Some (w, rest) => w :: findall_fuel fuel' rest
          | None => findall_fuel fuel' s'
          end
      end
  end.

Definition findall (s : string) : list string :=
  findall_fuel (String.length s) s.

(** [re.match(email_regex, token)] and [re.match(url_regex, token)]. *)
Definition is_email (token : string) : bool := bool_decide (is_Some (match_email token)).
Definition is_url (token : string) : bool := bool_decide (is_Some (match_url token)).

End Re.

(** ** Normalizer *)

Section Normalizer.

Variable stem : string → string.
Variable stop_words : gset string.

Definition clean_token (token : string) : string :=
  if Re.is_email token || Re.is_url token then token
  else Str.filter Chr.isalnum_ascii token.

(** The body of the second loop of [preprocess]: [None] when the token is
    dropped. *)
Definition process_token (token : string) : option string :=
  let token :=
    if negb (Re.is_email token) && negb (Re.is_url token)
    then Str.filter (λ c, negb (Chr.isdigit c)) (Str.lower token)
    else token in
  if Str.existsb Chr.isalpha token then
    if bool_decide (2 < String.length token)%nat then
      let stemmed_token := stem token in
      if bool_decide (stemmed_token ∉ stop_words) then Some stemmed_token
      else None
    else None
  else None.

Definition preprocess (text : string) : list string :=
  let tokens := clean_token <$> Re.findall text in
  omap process_token tokens.

End Normalizer.

(** [stem_lower] lowercases its argument and strips nothing: what the Porter
    stemmer does to a word none of whose suffix rules apply.  [stem_id]
    leaves the word alone.  They instantiate the stemmer in examples. *)
Definition stem_lower (w : string) : string := Str.lower w.
Definition stem_id (w : string) : string := w.

(** ** Dictionaries

    A Python [dict] keeps its keys in insertion order: an association list
    in which assigning to a present key replaces the value in place and
    assigning to an absent key appends. *)

Module Dict.
Section dict.
Context {K V : Type} `{EqDecision K}.

Fixpoint get (k : K) (d : list (K * V)) : option V :=
  match d with
  | [] => None
  | (k', v) :: d' => if decide (k = k') then Some v else get k d'
  end.

Fixpoint set (k : K) (v : V) (d : list (K * V)) : list (K * V) :=
  match d with
  | [] => [(k, v)]
  | (k', v') :: d' =>
      if decide (k = k') then (k, v) :: d' else (k', v') :: set k v d'
  end.

(** [k in d] *)
Definition mem (k : K) (d : list (K * V)) : bool :=
  bool_decide (is_Some (get k d)).

(** [if k not in d: d[k] = v] *)
Definition ensure (k : K) (v : V) (d : list (K * V)) : list (K * V) :=
  if mem k d then d else set k v d.

(** [{k: d[k] for k in ks}] for keys [ks] taken from [d]. *)
Definition reorder (ks : list K) (d : list (K * V)) : list (K * V) :=
  omap (λ k, (λ v, (k, v)) <$> get k d) ks.
End dict.
End Dict.

(** [enumerate(l)], counting from [start]. *)
Fixpoint enumerate_from {A} (start : Z) (l : list A) : list (Z * A) :=
  match l with
  | [] => []
  | x :: l' => (start, x) :: enumerate_from (start + 1) l'
  end.

Definition enumerate {A} (l : list A) : list (Z * A) := enumerate_from 0 l.

(** [sorted] on integers, on strings, and on items by their integer key. *)
Definition sorted_ints (l : list Z) : list Z := merge_sort Z.le l.
Definition sorted_strs (l : list string) : list string := merge_sort String.le l.

Definition key_le {V} (x y : Z * V) : Prop := x.1 ≤ y.1.
Global Instance key_le_dec {V} : RelDecision (@key_le V).
Proof. intros x y. unfold key_le. apply _. Defined.

Definition sorted_items {V} (l : list (Z * V)) : list (Z * V) := merge_sort key_le l.

(** ** Index builder *)

Section Builder.

Variable stem : string → string.
Variable stop_words : gset string.

(** One pass of the loop over [enumerate(tokens)]. *)
Definition record_slot (positions : list (string * list Z)) (slot : Z * string)
  : list (string * list Z) :=
  let '(position, token) := slot in
  match preprocess stem stop_words token with
  | [] => positions
  | processed_token :: _ =>
      let positions := Dict.ensure processed_token [] positions in
      Dict.set processed_token
        (default [] (Dict.get processed_token positions) ++ [position])
        positions
  end.

Definition doc_positions (document : string) : list (string * list Z) :=
  foldl record_slot [] (enumerate (Str.split document)).

(** One pass of the loop over [positions.items()]. *)
Definition index_token (doc_id : Z)
    (st : list (string * gset Z) * list (string * list (Z * list Z)))
    (entry : string * list Z)
  : list (string * gset Z) * list (string * list (Z * list Z)) :=
  let '(inverted_index, positional_index) := st in
  let '(token, token_positions) := entry in
  let positional_index := Dict.ensure token [] positional_index in
  let postings := default [] (Dict.get token positional_index) in
  let postings := Dict.ensure doc_id [] postings in
  let postings :=
    Dict.set doc_id (default [] (Dict.get doc_id postings) ++ token_positions)
      postings in
  let positional_index := Dict.set token postings positional_index in
  let inverted_index := Dict.ensure token ∅ inverted_index in
  let inverted_index :=
    Dict.set token ({[doc_id]} ∪ default ∅ (Dict.get token inverted_index))
      inverted_index in
  (inverted_index, positional_index).

(** One pass of the loop over [documents.items()]. *)
Definition index_document
    (st : list (string * gset Z) * list (string * list (Z * list Z)))
    (doc : Z * string) :=
  foldl (index_token doc.1) st (doc_positions doc.2).

Definition accumulate (documents : list (Z * string)) :=
  foldl index_document ([], []) documents.

(** The sorting passes that end [build_indexes]. *)
Definition sort_inverted (inverted_index : list (string * gset Z))
  : list (string * list Z) :=
  Dict.reorder (sorted_strs inverted_index.*1)
    (prod_map id (λ ids, sorted_ints (elements ids)) <$> inverted_index).

Definition sort_postings (postings : list (Z * list Z)) : list (Z * list Z) :=
  prod_map id sorted_ints <$> sorted_items postings.

Definition sort_positional (positional_index : list (string * list (Z * list Z)))
  : list (string * list (Z * list Z)) :=
  let positional_index := prod_map id sort_postings <$> positional_index in
  Dict.reorder (sorted_strs positional_index.*1) positional_index.

(** [build_indexes] when no saved index files are found (otherwise the two
    files are decoded and returned): the pair of the inverted and the
    positional index.  The keys of a dictionary are distinct, so the pass
    that re-assigns every [positional_index[term]] is a map over the
    entries. *)
Definition build_indexes (documents : list (Z * string))
  : list (string * list Z) * list (string * list (Z * list Z)) :=
  let '(inverted_index, positional_index) := accumulate documents in
  (sort_inverted inverted_index, sort_positional positional_index).

End Builder.

Definition docs_example : list (Z * string) :=
  [(1, "data mining is fun"); (2, "mining data for gold")].

(** ** Index codec *)

Module Codec.

(** [str(n)] for an integer. *)
Definition str_of_int (n : Z) : string := pretty n.

Definition digit_value (c : ascii) : Z := Z.of_N (Chr.code c) - 48.

(** Decimal digits, single underscores allowed between two digits. *)
Fixpoint parse_digits (after_digit : bool) (acc : Z) (s : string) : option Z :=
  match s with
  | EmptyString => if after_digit then Some acc else None
  | String c s' =>
      if Chr.isdigit c then parse_digits true (acc * 10 + digit_value c) s'
      else if Ascii.eqb c "_" && after_digit then parse_digits false acc s'
      else None
  end.

(** The white space [int] skips around a numeral: the ASCII white space
    and, of the other characters below 256, U+0085 and U+00A0.  The
    separators U+001C to U+001F, which [str.isspace] and [str.split] take
    for white space, are not accepted by [int]. *)
Definition int_space (c : ascii) : bool :=
  Chr.between 9 13 c || (Chr.code c =? 32)%N
  || (Chr.code c =? 133)%N || (Chr.code c =? 160)%N.

Fixpoint int_lstrip (s : string) : string :=
  match s with
  | EmptyString => EmptyString
  | String c s' => if int_space c then int_lstrip s' else s
  end.

Definition int_strip (s : string) : string :=
  String.rev (int_lstrip (String.rev (int_lstrip s))).

(** [int(s)]: surrounding white space and a sign are accepted; anything
    else than a decimal numeral raises [ValueError].  CPython also refuses,
    with [ValueError], a numeral of more than 4300 digits (the default of
    [sys.get_int_max_str_digits]); that limit is left out here, and the
    theorems that say when [int] raises are stated for texts of at most
    4300 characters. *)
Definition int_of_str (s : string) : exn + Z :=
  let s := int_strip s in
  let '(negative, body) :=
    match s with
    | String "-" r => (true, r)
    | String "+" r => (false, r)
    | _ => (false, s)
    end in
  match parse_digits false 0 body with
  | Some n => ok (if negative then - n else n)
  | None => raise ValueError
  end.

Fixpoint map_exn {A B} (f : A → exn + B) (l : list A) : exn + list B :=
  match l with
  | [] => ok []
  | x :: l' =>
      let? y := f x in
      let? ys := map_exn f l' in
      ok (y :: ys)
  end.

Fixpoint fold_exn {A S} (f : S → A → exn + S) (st : S) (l : list A) : exn + S :=
  match l with
  | [] => ok st
  | x :: l' => let? st' := f st x in fold_exn f st' l'
  end.

(** Reading a text file translates ["\r\n"] and ["\r"] to ["\n"]. *)
Fixpoint universal_newlines (s : string) : string :=
  match s with
  | EmptyString => EmptyString
  | String c s' =>
      if Ascii.eqb c "013" then
        match s' with
        | String c' s'' =>
            if Ascii.eqb c' "010" then String "010" (universal_newlines s'')
            else String "010" (universal_newlines s')
        | EmptyString => String "010" EmptyString
        end
      else String c (universal_newlines s')
  end.

(** [for line in file]: each line keeps its newline. *)
Fixpoint lines_go (cur : string) (s : string) : list string :=
  match s with
  | EmptyString => if Str.is_empty cur then [] else [cur]
  | String c s' =>
      if Ascii.eqb c "010" then (cur +:+ String c "") :: lines_go "" s'
      else lines_go (cur +:+ String c "") s'
  end.

Definition file_lines (content : string) : list string :=
  lines_go "" (universal_newlines content).

Definition concat_str (parts : list string) : string :=
  foldr String.append "" parts.

(** One line written by [save_inverted_index]: the term and the colon,
    the document ids, and the newline. *)
Definition line_body (term : string) (doc_ids : list Z) : string :=
  term +:+ ":" +:+ Str.join " " (str_of_int <$> doc_ids).

Definition inverted_line (entry : string * list Z) : string :=
  line_body entry.1 entry.2 +:+ String "010" "".

(** The text written by [save_inverted_index]. *)
Definition save_inverted_index (index : list (string * list Z)) : string :=
  concat_str (inverted_line <$> index).

(** What [save_positional_index] writes for one document of a term, and for
    one term; the document ids of the index are integers. *)
Definition posting_item (posting : Z * list Z) : string :=
  " " +:+ str_of_int posting.1 +:+ " ["
  +:+ Str.join "," (str_of_int <$> posting.2) +:+ "]".

Definition positional_body (term : string) (postings : list (Z * list Z)) : string :=
  term +:+ ":" +:+ concat_str (posting_item <$> postings).

Definition positional_line (entry : string * list (Z * list Z)) : string :=
  positional_body entry.1 entry.2 +:+ String "010" "".

(** The text written by [save_positional_index]. *)
Definition save_positional_index (index : list (string * list (Z * list Z))) : string :=
  concat_str (positional_line <$> index).

Definition load_inverted_line (index : list (string * list Z)) (line : string)
  : exn + list (string * list Z) :=
  match Str.split_on ":" (Str.strip line) with
  | [term; doc_ids] =>
      let? ids := map_exn int_of_str (Str.split doc_ids) in
      ok (Dict.set term ids index)
  | _ => ok index
  end.

Definition load_inverted_index (content : string) : exn + list (string * list Z) :=
  fold_exn load_inverted_line [] (file_lines content).

(** The loop [for i in range(0, len(postings_list), 2)]: the document id
    is kept as the string read from the file. *)
Fixpoint load_postings (postings : list (string * list Z)) (postings_list : list string)
  : exn + list (string * list Z) :=
  match postings_list with
  | doc_id :: item :: rest =>
      let positions_str := Str.slice_1_m1 item in
      if Str.is_empty positions_str then load_postings postings rest
      else
        let? positions := map_exn int_of_str (Str.split_on "," positions_str) in
        load_postings (Dict.set doc_id positions postings) rest
  | _ => ok postings
  end.

Definition load_positional_line (positional_index : list (string * list (string * list Z)))
    (line : string) : exn + list (string * list (string * list Z)) :=
  match Str.split_on ":" (Str.strip line) with
  | term :: ((_ :: _) as parts) =>
      let postings_str := Str.join ":" parts in
      let postings_list := Str.split (Str.strip postings_str) in
      let? postings := load_postings [] postings_list in
      ok (Dict.set term postings positional_index)
  | _ => ok positional_index
  end.

Definition load_positional_index (content : string)
  : exn + list (string * list (string * list Z)) :=
  fold_exn load_positional_line [] (file_lines content).

End Codec.

(** A document-id key as Python sees it: an [int] or a [str] object; the two
    never compare equal. *)
Inductive doc_key : Type :=
  | IntKey (n : Z)
  | StrKey (s : string).

Definition tag_keys {K} (tag : K → doc_key) (index : list (string * list (K * list Z)))
  : list (string * list (doc_key * list Z)) :=
  map (λ entry : string * list (K * list Z),
         (entry.1, map (λ posting : K * list Z, (tag posting.1, posting.2)) entry.2))
      index.

(** A character that occurs in no saved postings list. *)
Definition foreign (c : ascii) : Prop :=
  Chr.isdigit c || Ascii.eqb c "-" = false
  ∧ Ascii.eqb " " c = false ∧ Ascii.eqb "," c = false
  ∧ Ascii.eqb "[" c = false ∧ Ascii.eqb "]" c = false.

(** The blank-separated items of a saved postings list: for each document
    its id and its bracketed position list. *)
Definition bracketed (positions : list Z) : string :=
  "[" +:+ Str.join "," (Codec.str_of_int <$> positions) +:+ "]".

Definition posting_words (postings : list (Z * list Z)) : list string :=
  flat_map (λ posting : Z * list Z, [Codec.str_of_int posting.1; bracketed posting.2])
    postings.

(** The index with every document id replaced by its decimal numeral. *)
Definition stringify_postings (postings : list (Z * list Z)) : list (string * list Z) :=
  map (λ posting : Z * list Z, (Codec.str_of_int posting.1, posting.2)) postings.

Definition stringify_keys (index : list (string * list (Z * list Z)))
  : list (string * list (string * list Z)) :=
  map (λ entry : string * list (Z * list Z), (entry.1, stringify_postings entry.2)) index.

Definition int_keyed := tag_keys IntKey.
Definition str_keyed := tag_keys StrKey.

(** ** Boolean query evaluator *)

Inductive operation : Type :=
  | AND
  | OR.

Record bq_state : Type := BqState {
  result_set : gset Z;
  last_operation : option operation;
  not_flag : bool
}.

(** [set(inverted_index.get(t, set()))] *)
Definition postings_of (inverted_index : list (string * list Z)) (t : string) : gset Z :=
  list_to_set (default [] (Dict.get t inverted_index)).

Section BooleanQuery.

Variable stem : string → string.
Variable stop_words : gset string.

(** [term.lower() == name] *)
Definition is_keyword (name term : string) : bool :=
  bool_decide (Str.lower term = name).

Definition is_operator (term : string) : bool :=
  is_keyword "and" term || is_keyword "or" term || is_keyword "not" term.

(** [preprocess(term)[0]] *)
Definition first_token (term : string) : exn + string :=
  match preprocess stem stop_words term with
  | [] => raise IndexError
  | processed_term :: _ => ok processed_term
  end.

(** One pass of the loop over [query_terms]. *)
Definition boolean_step (inverted_index : list (string * list Z))
    (all_documents : gset Z) (st : bq_state) (term : string) : exn + bq_state :=
  if is_keyword "and" term then
    ok (BqState (result_set st) (Some AND) false)
  else if is_keyword "or" term then
    ok (BqState (result_set st) (Some OR) false)
  else if is_keyword "not" term then
    ok (BqState (result_set st) (last_operation st) (negb (not_flag st)))
  else
    let? processed_term := first_token term in
    let term_results := postings_of inverted_index processed_term in
    let term_results :=
      if not_flag st then all_documents ∖ term_results else term_results in
    let result_set :=
      match last_operation st with
      | Some AND => result_set st ∩ term_results
      | Some OR => result_set st ∪ term_results
      | None => term_results
      end in
    ok (BqState result_set (last_operation st) (not_flag st)).

Definition boolean_query (query : string) (inverted_index : list (string * list Z))
    (all_documents : gset Z) : exn + list Z :=
  let query_terms := Str.split query in
  let? st :=
    Codec.fold_exn (boolean_step inverted_index all_documents)
      (BqState ∅ None false) query_terms in
  ok (sorted_ints (elements (result_set st))).

End BooleanQuery.

(** ** Proximity query evaluator

    The document ids are the keys of the positional index handed in: [Z] for
    a built index, [string] for one read back from a file; [key_le] is the
    order [sorted] uses on them. *)

Section ProximityQuery.

Variable stem : string → string.
Variable stop_words : gset string.
Variable word_tokenize : string → list string.

Context {K : Type} `{Countable K}.
Variable key_order : relation K.
Context `{!RelDecision key_order}.

(** [positional_index[term].get(doc_id, [])] *)
Definition positions_of (positional_index : list (string * list (K * list Z)))
    (term : string) (doc_id : K) : list Z :=
  default [] (Dict.get doc_id (default [] (Dict.get term positional_index))).

(** The innermost loop, which stops at the first qualifying position. *)
Fixpoint scan_next_positions (result_set : gset K) (doc_id : K)
    (position proximity_distance : Z) (next_term_positions : list Z) : gset K :=
  match next_term_positions with
  | [] => result_set
  | next_position :: rest =>
      if bool_decide (Z.abs (next_position - position) = proximity_distance + 1)
      then {[doc_id]} ∪ result_set
      else scan_next_positions result_set doc_id position proximity_distance rest
  end.

(** The loop [for i in range(1, len(query_terms))]. *)
Definition scan_terms (positional_index : list (string * list (K * list Z)))
    (later_terms : list string) (proximity_distance : Z) (doc_id : K)
    (result_set : gset K) (position : Z) : gset K :=
  foldl
    (λ result_set term,
       let next_term_positions := positions_of positional_index term doc_id in
       scan_next_positions result_set doc_id position proximity_distance
         next_term_positions)
    result_set later_terms.

(** The loop over the postings of the first term. *)
Definition scan_postings (positional_index : list (string * list (K * list Z)))
    (later_terms : list string) (proximity_distance : Z)
    (postings : list (K * list Z)) : gset K :=
  foldl
    (λ result_set posting,
       foldl (scan_terms positional_index later_terms proximity_distance posting.1)
         result_set posting.2)
    ∅ postings.

Definition proximity_query (query : string)
    (positional_index : list (string * list (K * list Z))) : exn + list K :=
  let query_terms := word_tokenize query in
  let? last_term :=
    match last query_terms with
    | None => raise IndexError
    | Some t => ok t
    end in
  let? proximity_distance := Codec.int_of_str last_term in
  let query_terms := preprocess stem stop_words query in
  let? result_set :=
    if forallb (λ term, Dict.mem term positional_index) query_terms then
      match query_terms with
      | [] => raise IndexError
      | first_term :: later_terms =>
          ok (scan_postings positional_index later_terms proximity_distance
                (default [] (Dict.get first_term positional_index)))
      end
    else ok ∅ in
  ok (merge_sort key_order (elements result_set)).

End ProximityQuery.

(** A stand-in for [word_tokenize] in examples: on a query of words, a
    slash and a number, all separated by blanks, NLTK's tokenizer returns
    the blank-separated pieces. *)
Definition tokenize_blank (query : string) : list string := Str.split query.

(** ** Notions used to state the properties *)

(** A non-empty string without white space: one item of [query.split()]. *)
Definition is_word (w : string) : bool :=
  negb (Str.is_empty w) && Str.forallb (λ c, negb (Chr.isspace c)) w.

(** [c not in s] *)
Definition no_char (c : ascii) (s : string) : bool :=
  Str.forallb (λ x, negb (Ascii.eqb x c)) s.

(** A term the line format can carry: a word without a colon. *)
Definition term_ok (t : string) : bool := is_word t && no_char ":" t.

(** A string that starts, or ends, with a character that is not white
    space; the reverse of the latter starts with one. *)
Definition starts_nonspace (s : string) : Prop :=
  ∃ c r, s = String c r ∧ Chr.isspace c = false.

Definition ends_nonspace (s : string) : Prop :=
  starts_nonspace (String.rev s).

(** [positional_index[t][d]] when both keys are present. *)
Definition posting {K} `{EqDecision K} (positional_index : list (string * list (K * list Z)))
    (t : string) (d : K) : option (list Z) :=
  Dict.get t positional_index ≫= Dict.get d.

(** [d in inverted_index[t]] while the index still holds sets. *)
Definition inverted_has (inverted_index : list (string * gset Z)) (t : string) (d : Z) : Prop :=
  ∃ ids, Dict.get t inverted_index = Some ids ∧ d ∈ ids.

(** No inner mapping lists a document id twice. *)
Definition postings_NoDup (positional_index : list (string * list (Z * list Z))) : Prop :=
  ∀ t postings, Dict.get t positional_index = Some postings → NoDup postings.*1.

(** A list, or nothing when it is empty. *)
Definition nonempty (l : list Z) : option (list Z) :=
  match l with
  | [] => None
  | _ => Some l
  end.

Section Occurrences.

Variable stem : string → string.
Variable stop_words : gset string.

(** The term a raw slot is recorded under: the first token of its
    normalization, if there is one. *)
Definition slot_term (w : string) : option string :=
  head (preprocess stem stop_words w).

(** The numbers of the slots recorded under [t], in slot order. *)
Definition occurrences (t : string) (slots : list (Z * string)) : list Z :=
  (filter (λ slot, slot_term slot.2 = Some t) slots).*1.

(** The occurrences of [t] in document [d] of the collection. *)
Definition occurrences_in (documents : list (Z * string)) (t : string) (d : Z) : list Z :=
  match Dict.get d documents with
  | Some document => occurrences t (enumerate (Str.split document))
  | None => []
  end.

End Occurrences.


(** ** Further notions for the properties of the normalizer *)

(** What the cleaning and lowercasing steps leave of an ordinary word: its
    ASCII letters in lower case. *)
Definition letters_of (w : string) : string :=
  Str.filter (λ c, negb (Chr.isdigit c)) (Str.lower (Str.filter Chr.isalnum_ascii w)).

(** A text that is empty or starts with white space: a match of one of the
    three patterns never runs into it. *)
Definition at_boundary (rest : string) : Prop :=
  rest = "" ∨ ∃ c r, rest = String c r ∧ Chr.isspace c = true.

(** ** Further notions for the properties of the evaluators *)

(** A search term of a boolean query: a word that is not an operator,
    together with the token it is looked up under. *)
Definition search_term (stem : string → string) (stop_words : gset string)
    (word token : string) : Prop :=
  is_word word = true ∧ is_operator word = false
  ∧ slot_term stem stop_words word = Some token.

(** [sorted(result_set)] *)
Definition sorted_set (result_set : gset Z) : list Z :=
  sorted_ints (elements result_set).

(** ** The index files of [build_indexes]

    [build_indexes] looks for the two files of [indexes_dir] first.  When
    both exist it returns what they hold and leaves the documents alone;
    otherwise it builds the indexes and writes the files.  The positional
    index returned has [int] document ids when built and [str] ones when
    read from the file. *)

Record index_files : Type := IndexFiles {
  inverted_index_file : option string;
  positional_index_file : option string
}.

Definition build_indexes_with_files (stem : string → string) (stop_words : gset string)
    (files : index_files) (documents : list (Z * string))
  : exn + ((list (string * list Z) * list (string * list (doc_key * list Z)))
           * index_files) :=
  match inverted_index_file files, positional_index_file files with
  | Some inverted_text, Some positional_text =>
      let? inverted_index := Codec.load_inverted_index inverted_text in
      let? positional_index := Codec.load_positional_index positional_text in
      ok ((inverted_index, str_keyed positional_index), files)
  | _, _ =>
      let '(inverted_index, positional_index) :=
        build_indexes stem stop_words documents in
      ok ((inverted_index, int_keyed positional_index),
          IndexFiles (Some (Codec.save_inverted_index inverted_index))
                     (Some (Codec.save_positional_index positional_index)))
  end.

(** ** Loaders *)

(** [load_stopwords], on the text of the stopword file. *)
Definition load_stopwords (content : string) : gset string :=
  foldl (λ stopwords line, {[Str.strip line]} ∪ stopwords) ∅ (Codec.file_lines content).

(** [s.endswith(suffix)] *)
Fixpoint endswith (suffix s : string) : bool :=
  String.eqb s suffix
  || match s with
     | EmptyString => false
     | String _ s' => endswith suffix s'
     end.

(** [p[:p.rfind('.')]], if [p] has a dot. *)
Fixpoint before_last_dot (p : string) : option string :=
  match p with
  | EmptyString => None
  | String c p' =>
      match before_last_dot p' with
      | Some root => Some (String c root)
      | None => if Ascii.eqb c "." then Some EmptyString else None
      end
  end.

(** [os.path.splitext(p)[0]] for a file name without a directory part: the
    name is cut at its last dot, unless nothing but dots comes before it. *)
Definition splitext_root (p : string) : string :=
  match before_last_dot p with
  | Some root => if Str.forallb (λ c, Ascii.eqb c ".") root then p else root
  | None => p
  end.

(** [load_documents], on the listing of the directory: the file names in
    the order of [os.listdir], each with the text read from the file. *)
Definition load_document (documents : list (Z * string)) (file : string * string)
  : exn + list (Z * string) :=
  if endswith ".txt" file.1 then
    let? doc_id := Codec.int_of_str (splitext_root file.1) in
    ok (Dict.set doc_id file.2 documents)
  else ok documents.

Definition load_documents (directory : list (string * string)) : exn + list (Z * string) :=
  Codec.fold_exn load_document [] directory.

(** The file name the collection uses for document [doc_id]. *)
Definition document_file (document : Z * string) : string * string :=
  (Codec.str_of_int document.1 +:+ ".txt", document.2).

(** * Properties *)

(** ** The model at work *)

Example preprocess_words :
  preprocess stem_id ∅ "Data-Mining, is  FUN2 a 42 bob@Example.com http://X.org/p?q=1"
  = ["datamining"; "fun"; "bob@Example.com"; "http://X.org/p?q=1"].
Proof. vm_compute. reflexivity. Qed.

Example build_example :
  build_indexes stem_id {["is"; "for"]} docs_example
  = ([("data", [1; 2]); ("fun", [1]); ("gold", [2]); ("mining", [1; 2])],
     [("data", [(1, [0]); (2, [1])]); ("fun", [(1, [3])]);
      ("gold", [(2, [3])]); ("mining", [(1, [1]); (2, [0])])]).
Proof. vm_compute. reflexivity. Qed.

Example codec_example :
  Codec.save_positional_index [("data", [(1, [0; 7]); (12, [3])]); ("fun", [(1, [3])])]
  = "data: 1 [0,7] 12 [3]" +:+ String "010" "" +:+ "fun: 1 [3]" +:+ String "010" "".
Proof. vm_compute. reflexivity. Qed.

Example boolean_example :
  let '(inverted_index, _) := build_indexes stem_id {["is"; "for"]} docs_example in
  boolean_query stem_id {["is"; "for"]} "data AND NOT gold" inverted_index {[1; 2]} = ok [1].
Proof. vm_compute. reflexivity. Qed.

Example proximity_example :
  let '(_, positional_index) := build_indexes stem_id {["is"; "for"]} docs_example in
  proximity_query stem_id {["is"; "for"]} tokenize_blank Z.le "data mining / 0" positional_index
  = ok [1; 2].
Proof. vm_compute. reflexivity. Qed.

(** ** Dictionaries *)

Section DictFacts.
Context {K V : Type} `{EqDecision K}.
Implicit Types (d : list (K * V)) (k : K) (v : V).

Lemma dict_get_set k k' v d :
  Dict.get k' (Dict.set k v d) = if decide (k' = k) then Some v else Dict.get k' d.
Proof.
  induction d as [|[k0 v0] d IH]; simpl.
  - by destruct (decide (k' = k)).
  - destruct (decide (k = k0)) as [->|Hne]; simpl.
    + by destruct (decide (k' = k0)).
    + rewrite IH. destruct (decide (k' = k0)) as [->|]; [|done].
      by rewrite decide_False by done.
Qed.

Lemma dict_set_keys k v d :
  (Dict.set k v d).*1 = if Dict.mem k d then d.*1 else d.*1 ++ [k].
Proof.
  unfold Dict.mem. induction d as [|[k0 v0] d IH]; [done|].
  cbn [Dict.get Dict.set]. destruct (decide (k = k0)) as [->|Hne].
  - rewrite bool_decide_eq_true_2; [done|]. by eexists.
  - cbn [fmap list_fmap]. rewrite IH. by destruct (bool_decide _).
Qed.

Lemma dict_mem_spec k d : Dict.mem k d = true ↔ is_Some (Dict.get k d).
Proof. unfold Dict.mem. by rewrite bool_decide_eq_true. Qed.

Lemma dict_get_elem k v d : Dict.get k d = Some v → (k, v) ∈ d.
Proof.
  induction d as [|[k0 v0] d IH]; simpl; [done|].
  destruct (decide (k = k0)) as [->|]; intros Hg.
  - simplify_eq. apply list_elem_of_here.
  - apply list_elem_of_further. auto.
Qed.

Lemma dict_get_None k d : Dict.get k d = None ↔ k ∉ d.*1.
Proof.
  induction d as [|[k0 v0] d IH]; simpl.
  - split; [intros _; apply not_elem_of_nil|done].
  - rewrite not_elem_of_cons. destruct (decide (k = k0)) as [->|]; [|tauto].
    split; [done|]. by intros [? _].
Qed.

Lemma dict_elem_get k v d : NoDup d.*1 → (k, v) ∈ d → Dict.get k d = Some v.
Proof.
  induction d as [|[k0 v0] d IH]; simpl; intros Hnd Hin.
  - by apply elem_of_nil in Hin.
  - apply NoDup_cons in Hnd as [Hk0 Hnd].
    apply elem_of_cons in Hin as [Heq|Hin].
    + simplify_eq. by rewrite decide_True.
    + destruct (decide (k = k0)) as [->|]; [|by auto].
      exfalso. apply Hk0. apply list_elem_of_fmap. by exists (k0, v).
Qed.

Lemma dict_set_NoDup k v d : NoDup d.*1 → NoDup (Dict.set k v d).*1.
Proof.
  intros Hnd. rewrite dict_set_keys. destruct (Dict.mem k d) eqn:Hm; [done|].
  apply NoDup_app. split_and!; [done| |apply NoDup_singleton].
  intros x Hx ->%list_elem_of_singleton.
  apply dict_get_None in Hx; [done|].
  destruct (Dict.get k d) eqn:Hg; [|done].
  assert (Dict.mem k d = true) by (apply dict_mem_spec; eauto). congruence.
Qed.

Lemma dict_get_perm k d d' :
  NoDup d.*1 → d ≡ₚ d' → Dict.get k d = Dict.get k d'.
Proof.
  intros Hnd Hp.
  assert (NoDup d'.*1) as Hnd' by (by rewrite <- Hp).
  destruct (Dict.get k d) as [v|] eqn:Hg.
  - symmetry. apply dict_elem_get; [done|]. rewrite <- Hp. by apply dict_get_elem.
  - symmetry. apply dict_get_None. rewrite <- Hp. by apply dict_get_None.
Qed.

Lemma dict_reorder_cons k0 ks d :
  Dict.reorder (k0 :: ks) d
  = match Dict.get k0 d with
    | Some v => (k0, v) :: Dict.reorder ks d
    | None => Dict.reorder ks d
    end.
Proof. unfold Dict.reorder. simpl. by destruct (Dict.get k0 d). Qed.

Lemma dict_get_reorder k ks d :
  Dict.get k (Dict.reorder ks d) = if decide (k ∈ ks) then Dict.get k d else None.
Proof.
  induction ks as [|k0 ks IH].
  - rewrite decide_False; [done|]. apply not_elem_of_nil.
  - rewrite dict_reorder_cons.
    destruct (decide (k = k0)) as [->|Hne].
    + rewrite decide_True by apply list_elem_of_here.
      destruct (Dict.get k0 d) as [v0|] eqn:Hg0.
      * simpl. by rewrite decide_True.
      * rewrite IH. by case_decide.
    + assert (Dict.get k (match Dict.get k0 d with
                          | Some v => (k0, v) :: Dict.reorder ks d
                          | None => Dict.reorder ks d
                          end) = Dict.get k (Dict.reorder ks d)) as ->.
      { destruct (Dict.get k0 d); [|done]. simpl. by rewrite decide_False. }
      rewrite IH. destruct (decide (k ∈ ks)).
      * rewrite decide_True; [done|]. by apply list_elem_of_further.
      * rewrite decide_False; [done|]. rewrite not_elem_of_cons. naive_solver.
Qed.

Lemma dict_elem_reorder k v ks d :
  (k, v) ∈ Dict.reorder ks d → Dict.get k d = Some v.
Proof.
  unfold Dict.reorder. rewrite list_elem_of_omap. intros (k0 & _ & Hk0).
  destruct (Dict.get k0 d) eqn:Hg; simplify_eq/=. done.
Qed.

End DictFacts.

Lemma dict_get_fmap {K V W} `{EqDecision K} (f : V → W) (k : K) (d : list (K * V)) :
  Dict.get k (prod_map id f <$> d) = f <$> Dict.get k d.
Proof.
  induction d as [|[k0 v0] d IH]; simpl; [done|].
  by destruct (decide (k = k0)).
Qed.

Lemma dict_fmap_keys {K V W} (f : V → W) (d : list (K * V)) :
  (prod_map id f <$> d).*1 = d.*1.
Proof. induction d as [|[k0 v0] d IH]; csimpl; by f_equal. Qed.

Lemma dict_get_ensure {K V} `{EqDecision K} (k k' : K) (e : V) (d : list (K * V)) :
  Dict.get k' (Dict.ensure k e d)
  = if decide (k' = k) then Some (default e (Dict.get k d)) else Dict.get k' d.
Proof.
  unfold Dict.ensure. destruct (Dict.mem k d) eqn:Hm.
  - apply dict_mem_spec in Hm as [v Hv].
    destruct (decide (k' = k)) as [->|]; [|done]. by rewrite Hv.
  - rewrite dict_get_set. destruct (decide (k' = k)) as [->|]; [|done].
    destruct (Dict.get k d) eqn:Hg; [|done].
    assert (Dict.mem k d = true) by (apply dict_mem_spec; eauto). congruence.
Qed.

Lemma dict_ensure_NoDup {K V} `{EqDecision K} (k : K) (e : V) (d : list (K * V)) :
  NoDup d.*1 → NoDup (Dict.ensure k e d).*1.
Proof. unfold Dict.ensure. destruct (Dict.mem k d); auto using dict_set_NoDup. Qed.

(** ** Sorting *)

Lemma sorted_ints_id (l : list Z) : StronglySorted Z.lt l → sorted_ints l = l.
Proof.
  intros Hl. unfold sorted_ints.
  apply (StronglySorted_unique Z.le).
  - apply StronglySorted_merge_sort; apply _.
  - induction Hl as [|x l Hl IH Hx]; constructor; [done|].
    eapply Forall_impl; [exact Hx|]. intros y ?. lia.
  - apply merge_sort_Permutation.
Qed.

Lemma sorted_ints_strict (l : list Z) : NoDup l → StronglySorted Z.lt (sorted_ints l).
Proof.
  intros Hnd. unfold sorted_ints.
  assert (StronglySorted Z.le (merge_sort Z.le l)) as Hs
    by (apply StronglySorted_merge_sort; apply _).
  assert (NoDup (merge_sort Z.le l)) as Hnd'
    by (by rewrite merge_sort_Permutation).
  induction Hs as [|x l' Hs IH Hx]; constructor.
  - apply IH. by apply NoDup_cons in Hnd' as [_ ?].
  - apply NoDup_cons in Hnd' as [Hx' _].
    apply Forall_forall. intros y Hy.
    rewrite Forall_forall in Hx. specialize (Hx y Hy).
    assert (x ≠ y) by (intros ->; done). lia.
Qed.

Lemma sorted_items_get {V} (d : Z) (m : list (Z * V)) :
  NoDup m.*1 → Dict.get d (sorted_items m) = Dict.get d m.
Proof.
  intros Hnd. symmetry. apply dict_get_perm; [done|].
  symmetry. apply merge_sort_Permutation.
Qed.

(** ** Enumerating slots *)

Lemma enumerate_from_lookup {A} (l : list A) (start : Z) (p : Z) (x : A) :
  (p, x) ∈ enumerate_from start l ↔ start ≤ p ∧ l !! Z.to_nat (p - start) = Some x.
Proof.
  revert start. induction l as [|y l IH]; intros start; simpl.
  - split; [by intros ?%elem_of_nil|]. by intros [_ ?].
  - rewrite elem_of_cons, IH. split.
    + intros [Heq|[Hle Hl]].
      * simplify_eq. split; [lia|]. by replace (start - start) with 0 by lia.
      * split; [lia|].
        replace (Z.to_nat (p - start)) with (S (Z.to_nat (p - (start + 1)))) by lia.
        done.
    + intros [Hle Hl]. destruct (decide (p = start)) as [->|Hne].
      * left. replace (start - start) with 0 in Hl by lia. by simplify_eq/=.
      * right. split; [lia|].
        replace (Z.to_nat (p - start)) with (S (Z.to_nat (p - (start + 1)))) in Hl by lia.
        done.
Qed.

Lemma enumerate_from_sorted {A} (P : Z * A → Prop) `{∀ x, Decision (P x)}
    (l : list A) (start : Z) :
  StronglySorted Z.lt (filter P (enumerate_from start l)).*1
  ∧ Forall (λ p, start ≤ p) (filter P (enumerate_from start l)).*1.
Proof.
  revert start. induction l as [|y l IH]; intros start; simpl.
  - split; constructor.
  - destruct (IH (start + 1)) as [Hs Hf].
    rewrite filter_cons. destruct (decide (P (start, y))); csimpl.
    + split.
      * constructor; [done|]. eapply Forall_impl; [exact Hf|].
        intros ? ?; simpl in *; lia.
      * constructor; [lia|]. eapply Forall_impl; [exact Hf|].
        intros ? ?; simpl in *; lia.
    + split; [done|]. eapply Forall_impl; [exact Hf|].
      intros ? ?; simpl in *; lia.
Qed.

(** ** Index builder: what the loops compute *)

Section BuilderFacts.

Variable stem : string → string.
Variable stop_words : gset string.

Local Abbreviation slot_term := (slot_term stem stop_words).
Local Abbreviation occurrences := (occurrences stem stop_words).
Local Abbreviation occurrences_in := (occurrences_in stem stop_words).
Local Abbreviation record_slot := (record_slot stem stop_words).
Local Abbreviation doc_positions := (doc_positions stem stop_words).
Local Abbreviation index_document := (index_document stem stop_words).
Local Abbreviation accumulate := (accumulate stem stop_words).

Lemma occurrences_cons t p w slots :
  occurrences t ((p, w) :: slots)
  = if decide (slot_term w = Some t) then p :: occurrences t slots
    else occurrences t slots.
Proof.
  unfold occurrences. rewrite filter_cons. simpl.
  by destruct (decide (slot_term w = Some t)).
Qed.

Lemma record_slot_get positions p w t :
  Dict.get t (record_slot positions (p, w))
  = if decide (slot_term w = Some t)
    then Some (default [] (Dict.get t positions) ++ [p])
    else Dict.get t positions.
Proof.
  unfold record_slot, slot_term.
  destruct (preprocess stem stop_words w) as [|t' rest]; cbn [head].
  - by rewrite decide_False.
  - rewrite dict_get_set, !dict_get_ensure.
    rewrite (decide_True (P := t' = t')) by done. simpl.
    destruct (decide (t = t')) as [->|Hne].
    + by rewrite decide_True.
    + rewrite decide_False; [done|]. congruence.
Qed.

Lemma record_slot_NoDup positions slot :
  NoDup positions.*1 → NoDup (record_slot positions slot).*1.
Proof.
  intros Hnd. destruct slot as [p w]. unfold record_slot.
  destruct (preprocess stem stop_words w); [done|].
  by apply dict_set_NoDup, dict_ensure_NoDup.
Qed.

Lemma record_slots_get slots positions t :
  Dict.get t (foldl record_slot positions slots)
  = match occurrences t slots with
    | [] => Dict.get t positions
    | ps => Some (default [] (Dict.get t positions) ++ ps)
    end.
Proof.
  revert positions. induction slots as [|[p w] slots IH]; intros positions.
  - done.
  - cbn [foldl]. rewrite IH, record_slot_get, occurrences_cons.
    destruct (decide (slot_term w = Some t)); [|done].
    destruct (occurrences t slots); [done|].
    simpl. by rewrite <- app_assoc.
Qed.

Lemma record_slots_NoDup slots positions :
  NoDup positions.*1 → NoDup (foldl record_slot positions slots).*1.
Proof.
  revert positions. induction slots as [|slot slots IH]; intros positions Hnd.
  - done.
  - simpl. by apply IH, record_slot_NoDup.
Qed.

Lemma doc_positions_get document t :
  Dict.get t (doc_positions document)
  = nonempty (occurrences t (enumerate (Str.split document))).
Proof.
  unfold doc_positions. rewrite record_slots_get. simpl.
  by destruct (occurrences _ _).
Qed.

Lemma doc_positions_NoDup document : NoDup (doc_positions document).*1.
Proof. apply record_slots_NoDup. constructor. Qed.

Lemma occurrences_sorted t document :
  StronglySorted Z.lt (occurrences t (enumerate (Str.split document))).
Proof. apply enumerate_from_sorted. Qed.

(** *** One term of one document *)

Lemma index_token_posting d0 inv pos t0 ps t d :
  posting (index_token d0 (inv, pos) (t0, ps)).2 t d
  = if decide (t = t0 ∧ d = d0) then Some (default [] (posting pos t0 d0) ++ ps)
    else posting pos t d.
Proof.
  unfold index_token, posting. cbn [snd].
  rewrite dict_get_set, !dict_get_ensure.
  rewrite (decide_True (P := t0 = t0)) by done. simpl.
  destruct (decide (t = t0)) as [->|Hne]; cbn [mbind option_bind].
  - rewrite dict_get_set, !dict_get_ensure.
    rewrite (decide_True (P := d0 = d0)) by done. simpl.
    destruct (decide (d = d0)) as [->|Hne].
    + rewrite decide_True by done. by destruct (Dict.get t0 pos).
    + rewrite decide_False by tauto. by destruct (Dict.get t0 pos).
  - rewrite decide_False by tauto. done.
Qed.

Lemma index_token_inverted_get d0 inv pos t0 ps t :
  Dict.get t (index_token d0 (inv, pos) (t0, ps)).1
  = if decide (t = t0) then Some ({[d0]} ∪ default ∅ (Dict.get t0 inv))
    else Dict.get t inv.
Proof.
  unfold index_token. cbn [fst].
  rewrite dict_get_set, !dict_get_ensure.
  rewrite (decide_True (P := t0 = t0)) by done. simpl.
  by destruct (decide (t = t0)).
Qed.

Lemma index_token_inverted d0 inv pos t0 ps t d :
  inverted_has (index_token d0 (inv, pos) (t0, ps)).1 t d
  ↔ (t = t0 ∧ d = d0) ∨ inverted_has inv t d.
Proof.
  unfold inverted_has. rewrite index_token_inverted_get.
  destruct (decide (t = t0)) as [->|Hne].
  - split.
    + intros (ids & ? & Hd). simplify_eq.
      apply elem_of_union in Hd as [->%elem_of_singleton|Hd]; [by left|].
      right. destruct (Dict.get t0 inv) as [ids|]; [by eauto|].
      by apply not_elem_of_empty in Hd.
    + intros [[_ ->]|(ids & Hids & Hd)].
      * eexists; split; [done|]. apply elem_of_union_l. by apply elem_of_singleton.
      * eexists; split; [done|]. rewrite Hids. by apply elem_of_union_r.
  - split; [by eauto|]. intros [[? _]|?]; done.
Qed.

Lemma index_token_postings_NoDup d0 inv pos entry :
  postings_NoDup pos → postings_NoDup (index_token d0 (inv, pos) entry).2.
Proof.
  intros Hnd t postings. destruct entry as [t0 ps].
  unfold index_token. cbn [snd].
  rewrite dict_get_set, !dict_get_ensure.
  rewrite (decide_True (P := t0 = t0)) by done. simpl.
  destruct (decide (t = t0)) as [->|Hne]; [|by apply Hnd].
  intros ?; simplify_eq. apply dict_set_NoDup, dict_ensure_NoDup.
  destruct (Dict.get t0 pos) eqn:Hg; [by eapply Hnd|constructor].
Qed.

(** *** One document *)

Lemma index_tokens_posting d0 entries st t d :
  NoDup entries.*1 →
  posting (foldl (index_token d0) st entries).2 t d
  = if decide (d = d0) then
      match Dict.get t entries with
      | Some ps => Some (default [] (posting st.2 t d0) ++ ps)
      | None => posting st.2 t d0
      end
    else posting st.2 t d.
Proof.
  revert st. induction entries as [|[t0 ps] entries IH]; intros [inv pos] Hnd.
  - simpl. by destruct (decide (d = d0)) as [->|].
  - rewrite fmap_cons in Hnd. cbn [fst] in Hnd.
    apply NoDup_cons in Hnd as [Ht0 Hnd].
    cbn [foldl]. rewrite IH by done. rewrite !index_token_posting. simpl.
    destruct (decide (d = d0)) as [->|Hne]; [|by rewrite decide_False by tauto].
    destruct (decide (t = t0)) as [->|Hne].
    + rewrite decide_True by done.
      apply dict_get_None in Ht0. by rewrite Ht0.
    + by rewrite decide_False by tauto.
Qed.

Lemma index_tokens_inverted d0 entries st t d :
  inverted_has (foldl (index_token d0) st entries).1 t d
  ↔ (d = d0 ∧ is_Some (Dict.get t entries)) ∨ inverted_has st.1 t d.
Proof.
  revert st. induction entries as [|[t0 ps] entries IH]; intros [inv pos].
  - simpl. split; [by right|]. intros [[_ [? ?]]|?]; done.
  - cbn [foldl]. rewrite IH, index_token_inverted. simpl.
    destruct (decide (t = t0)) as [->|Hne]; [|tauto].
    split; [|tauto]. intros [[? _]|[[_ ?]|?]]; eauto.
Qed.

Lemma index_tokens_postings_NoDup d0 entries st :
  postings_NoDup st.2 → postings_NoDup (foldl (index_token d0) st entries).2.
Proof.
  revert st. induction entries as [|entry entries IH]; intros [inv pos] Hnd.
  - done.
  - cbn [foldl]. apply IH. by apply index_token_postings_NoDup.
Qed.

(** *** The whole collection *)

Lemma dict_get_snoc (documents : list (Z * string)) d0 document d :
  Dict.get d (documents ++ [(d0, document)])
  = match Dict.get d documents with
    | Some x => Some x
    | None => if decide (d = d0) then Some document else None
    end.
Proof.
  induction documents as [|[d1 x] documents IH]; simpl; [done|].
  by destruct (decide (d = d1)).
Qed.

Lemma accumulate_spec documents :
  NoDup documents.*1 →
  (∀ t d, posting (accumulate documents).2 t d
          = nonempty (occurrences_in documents t d))
  ∧ (∀ t d, inverted_has (accumulate documents).1 t d
            ↔ occurrences_in documents t d ≠ [])
  ∧ postings_NoDup (accumulate documents).2.
Proof.
  induction documents as [|[d0 document] documents IH] using rev_ind; intros Hnd.
  - split_and!.
    + done.
    + intros t d. split; [by intros (? & ? & ?)|done].
    + by intros t postings.
  - rewrite fmap_app in Hnd. apply NoDup_app in Hnd as (Hnd & Hd0 & _).
    assert (Dict.get d0 documents = None) as Hfresh.
    { apply dict_get_None. intros Hin. apply (Hd0 d0 Hin), list_elem_of_here. }
    destruct (IH Hnd) as (IHp & IHi & IHn).
    unfold accumulate. rewrite foldl_app. cbn [foldl].
    fold (accumulate documents). unfold index_document at 1 2 3. cbn [fst snd].
    assert (∀ t d, occurrences_in (documents ++ [(d0, document)]) t d
                   = if decide (d = d0)
                     then occurrences t (enumerate (Str.split document))
                     else occurrences_in documents t d) as Hocc.
    { intros t d. unfold occurrences_in. rewrite dict_get_snoc.
      destruct (decide (d = d0)) as [->|]; [by rewrite Hfresh|].
      by destruct (Dict.get d documents). }
    split_and!.
    + intros t d. rewrite index_tokens_posting by apply doc_positions_NoDup.
      rewrite Hocc, doc_positions_get, !IHp.
      destruct (decide (d = d0)) as [->|]; [|done].
      unfold occurrences_in at 1 2. rewrite Hfresh. simpl.
      by destruct (occurrences t _).
    + intros t d. rewrite index_tokens_inverted, Hocc, IHi, doc_positions_get.
      destruct (decide (d = d0)) as [->|Hne].
      * unfold occurrences_in. rewrite Hfresh.
        destruct (occurrences t _); simpl.
        -- split; [|done]. intros [[_ [? ?]]|?]; done.
        -- split; [done|]. intros _. left. eauto.
      * split; [|by right]. intros [[? _]|?]; done.
    + by apply index_tokens_postings_NoDup.
Qed.

(** *** The sorting passes *)

Lemma dict_get_sorted_reorder {V} (d : list (string * V)) t :
  Dict.get t (Dict.reorder (sorted_strs d.*1) d) = Dict.get t d.
Proof.
  rewrite dict_get_reorder. case_decide as Hin; [done|].
  symmetry. apply dict_get_None. intros Ht. apply Hin.
  unfold sorted_strs. by rewrite merge_sort_Permutation.
Qed.

Lemma sort_inverted_get inv t :
  Dict.get t (sort_inverted inv)
  = (λ ids, sorted_ints (elements ids)) <$> Dict.get t inv.
Proof.
  unfold sort_inverted.
  rewrite <- (dict_fmap_keys (λ ids, sorted_ints (elements ids)) inv).
  by rewrite dict_get_sorted_reorder, dict_get_fmap.
Qed.

Lemma sort_positional_get pos t :
  Dict.get t (sort_positional pos) = sort_postings <$> Dict.get t pos.
Proof.
  unfold sort_positional. by rewrite dict_get_sorted_reorder, dict_get_fmap.
Qed.

Lemma sort_postings_get postings d :
  NoDup postings.*1 →
  Dict.get d (sort_postings postings) = sorted_ints <$> Dict.get d postings.
Proof.
  intros Hnd. unfold sort_postings. by rewrite dict_get_fmap, sorted_items_get.
Qed.

Lemma occurrences_in_sorted documents t d :
  StronglySorted Z.lt (occurrences_in documents t d).
Proof.
  unfold occurrences_in. destruct (Dict.get d documents).
  - apply occurrences_sorted.
  - constructor.
Qed.

Lemma build_indexes_unfold documents :
  build_indexes stem stop_words documents
  = (sort_inverted (accumulate documents).1, sort_positional (accumulate documents).2).
Proof. unfold build_indexes. by destruct (accumulate documents). Qed.

(** The positional index holds, for every term and document, exactly the
    occurrences of the term in the document. *)
Lemma build_indexes_posting documents t d :
  NoDup documents.*1 →
  posting (build_indexes stem stop_words documents).2 t d
  = nonempty (occurrences_in documents t d).
Proof.
  intros Hnd. destruct (accumulate_spec documents Hnd) as (Hp & _ & Hn).
  rewrite build_indexes_unfold. cbn [snd]. unfold posting.
  rewrite sort_positional_get. specialize (Hp t d). unfold posting in Hp.
  destruct (Dict.get t (accumulate documents).2) as [postings|] eqn:Hg; simpl in *.
  - rewrite sort_postings_get by (by eapply Hn). rewrite Hp.
    pose proof (occurrences_in_sorted documents t d) as Hs.
    destruct (occurrences_in documents t d) eqn:Ho; [done|].
    simpl. by rewrite sorted_ints_id.
  - done.
Qed.

(** The inverted index lists, for every term, exactly the documents in
    which the term occurs. *)
Lemma build_indexes_inverted documents t d :
  NoDup documents.*1 →
  (∃ ids, Dict.get t (build_indexes stem stop_words documents).1 = Some ids ∧ d ∈ ids)
  ↔ occurrences_in documents t d ≠ [].
Proof.
  intros Hnd. destruct (accumulate_spec documents Hnd) as (_ & Hi & _).
  rewrite <- Hi, build_indexes_unfold. cbn [fst]. unfold inverted_has.
  setoid_rewrite sort_inverted_get. split.
  - intros (ids & Hids & Hd).
    destruct (Dict.get t (accumulate documents).1) as [s|]; simplify_eq/=.
    exists s. split; [done|].
    unfold sorted_ints in Hd. rewrite merge_sort_Permutation in Hd.
    by apply elem_of_elements in Hd.
  - intros (s & -> & Hd). eexists. split; [done|].
    unfold sorted_ints. rewrite merge_sort_Permutation.
    by apply elem_of_elements.
Qed.

Lemma elem_of_occurrences t (slots : list string) p :
  p ∈ occurrences t (enumerate slots)
  ↔ 0 ≤ p ∧ ∃ w, slots !! Z.to_nat p = Some w ∧ slot_term w = Some t.
Proof.
  unfold occurrences. rewrite list_elem_of_fmap. split.
  - intros ([p' w] & -> & Hin). apply list_elem_of_filter in Hin as [Ht Hin].
    apply enumerate_from_lookup in Hin as [Hle Hl]. simpl in *.
    rewrite Z.sub_0_r in Hl. eauto.
  - intros (Hle & w & Hl & Ht). exists (p, w). split; [done|].
    apply list_elem_of_filter. split; [done|].
    apply enumerate_from_lookup. by rewrite Z.sub_0_r.
Qed.

End BuilderFacts.

(** ** Index builder: the claims *)

(** C6. For every document collection (a dictionary, so its ids are
    distinct), in the freshly built index pair a document id [d] is a member
    of [inverted_index[t]] exactly when [positional_index[t]] has key [d]
    with a non-empty position list; and every posting list and every
    position list is strictly ascending, hence free of duplicates. *)
Theorem build_indexes_consistent_sorted
    (stem : string → string) (stop_words : gset string) (documents : list (Z * string)) :
  NoDup documents.*1 →
  (∀ t d,
     (∃ ids, Dict.get t (build_indexes stem stop_words documents).1 = Some ids ∧ d ∈ ids)
     ↔ (∃ postings ps,
          Dict.get t (build_indexes stem stop_words documents).2 = Some postings
          ∧ Dict.get d postings = Some ps ∧ ps ≠ []))
  ∧ (∀ t ids,
       (t, ids) ∈ (build_indexes stem stop_words documents).1 → StronglySorted Z.lt ids)
  ∧ (∀ t postings d ps,
       (t, postings) ∈ (build_indexes stem stop_words documents).2 →
       (d, ps) ∈ postings → StronglySorted Z.lt ps).
Proof.
  intros Hnd. split_and!.
  - intros t d. rewrite build_indexes_inverted by done.
    pose proof (build_indexes_posting stem stop_words documents t d Hnd) as Hp.
    unfold posting in Hp. split.
    + intros Hne.
      destruct (Dict.get t (build_indexes stem stop_words documents).2)
        as [postings|]; simpl in Hp.
      * exists postings, (occurrences_in stem stop_words documents t d).
        split; [done|]. rewrite Hp.
        by destruct (occurrences_in stem stop_words documents t d).
      * by destruct (occurrences_in stem stop_words documents t d).
    + intros (postings & ps & Hg & Hd & Hne). rewrite Hg in Hp. simpl in Hp.
      rewrite Hd in Hp.
      destruct (occurrences_in stem stop_words documents t d); by simplify_eq/=.
  - intros t ids Hin. rewrite build_indexes_unfold in Hin. cbn [fst] in Hin.
    apply dict_elem_reorder in Hin. rewrite dict_get_fmap in Hin.
    destruct (Dict.get t _) as [s|]; simplify_eq/=.
    apply sorted_ints_strict, NoDup_elements.
  - intros t postings d ps Hin Hd.
    destruct (accumulate_spec stem stop_words documents Hnd) as (Hp & _ & Hn).
    rewrite build_indexes_unfold in Hin. cbn [snd] in Hin.
    apply dict_elem_reorder in Hin. rewrite dict_get_fmap in Hin.
    destruct (Dict.get t (accumulate stem stop_words documents).2)
      as [raw|] eqn:Hraw; simplify_eq/=.
    unfold sort_postings in Hd.
    apply list_elem_of_fmap in Hd as ([d' ps0] & ? & Hd); simplify_eq/=.
    unfold sorted_items in Hd. rewrite merge_sort_Permutation in Hd.
    apply dict_elem_get in Hd; [|by eapply Hn].
    specialize (Hp t d'). unfold posting in Hp. rewrite Hraw in Hp. simpl in Hp.
    rewrite Hd in Hp.
    pose proof (occurrences_in_sorted stem stop_words documents t d') as Hs.
    destruct (occurrences_in stem stop_words documents t d'); simplify_eq/=.
    by rewrite sorted_ints_id.
Qed.

Lemma build_indexes_consistent_sorted_witness :
  NoDup docs_example.*1
  ∧ (∀ t d,
       (∃ ids, Dict.get t (build_indexes stem_id {["is"; "for"]} docs_example).1 = Some ids
               ∧ d ∈ ids)
       ↔ (∃ postings ps,
            Dict.get t (build_indexes stem_id {["is"; "for"]} docs_example).2 = Some postings
            ∧ Dict.get d postings = Some ps ∧ ps ≠ []))
  ∧ (∀ t ids,
       (t, ids) ∈ (build_indexes stem_id {["is"; "for"]} docs_example).1 →
       StronglySorted Z.lt ids)
  ∧ (∀ t postings d ps,
       (t, postings) ∈ (build_indexes stem_id {["is"; "for"]} docs_example).2 →
       (d, ps) ∈ postings → StronglySorted Z.lt ps).
Proof.
  assert (NoDup docs_example.*1) as Hnd.
  { apply (bool_decide_unpack _). vm_compute. exact I. }
  split; [exact Hnd|].
  exact (build_indexes_consistent_sorted stem_id {["is"; "for"]} docs_example Hnd).
Defined.

(** C8. For every document of the collection, the positions recorded for a
    term are exactly the zero-based indices of the raw white-space slots
    whose normalization starts with that term: a slot that is filtered out
    keeps its number, and the numbers of the other slots do not shift. *)
Theorem positions_are_raw_slots
    (stem : string → string) (stop_words : gset string)
    (documents : list (Z * string)) (d : Z) (document t : string) (p : Z) :
  NoDup documents.*1 →
  (d, document) ∈ documents →
  (∃ ps, posting (build_indexes stem stop_words documents).2 t d = Some ps ∧ p ∈ ps)
  ↔ (0 ≤ p ∧ ∃ w, Str.split document !! Z.to_nat p = Some w
                  ∧ head (preprocess stem stop_words w) = Some t).
Proof.
  intros Hnd Hin. rewrite build_indexes_posting by done.
  unfold occurrences_in. rewrite (dict_elem_get _ _ _ Hnd Hin).
  rewrite <- (elem_of_occurrences stem stop_words t (Str.split document) p).
  destruct (occurrences stem stop_words t (enumerate (Str.split document))) as [|q qs].
  - split; [by intros (? & ? & ?)|by intros ?%elem_of_nil].
  - simpl. split; [by intros (? & ? & ?); simplify_eq|eauto].
Qed.

Lemma positions_are_raw_slots_witness :
  NoDup docs_example.*1
  ∧ (1, "data mining is fun") ∈ docs_example
  ∧ ((∃ ps, posting (build_indexes stem_id {["is"]} docs_example).2 "fun" 1 = Some ps
            ∧ 3 ∈ ps)
     ↔ (0 ≤ 3 ∧ ∃ w, Str.split "data mining is fun" !! Z.to_nat 3 = Some w
                     ∧ head (preprocess stem_id {["is"]} w) = Some "fun")).
Proof.
  assert (NoDup docs_example.*1) as Hnd.
  { apply (bool_decide_unpack _). vm_compute. exact I. }
  assert ((1, "data mining is fun") ∈ docs_example) as Hin.
  { apply (bool_decide_unpack _). vm_compute. exact I. }
  split; [exact Hnd|]. split; [exact Hin|].
  apply (positions_are_raw_slots stem_id {["is"]} docs_example 1
           "data mining is fun" "fun" 3 Hnd Hin).
Defined.

(** A filtered slot leaves a gap: with the stopword ["is"], the word after
    it keeps slot number 3. *)
Example positions_keep_gaps :
  (build_indexes stem_id {["is"]} [(1, "data mining is fun")]).2
  = [("data", [(1, [0])]); ("fun", [(1, [3])]); ("mining", [(1, [1])])].
Proof. vm_compute. reflexivity. Qed.

(** A single white-space slot can normalize to more than one token: the
    email pattern takes the front of the slot and the rest is matched again.
    Only the first token is recorded by the builder. *)
Lemma preprocess_slot_two_tokens (stem : string → string) (stop_words : gset string) :
  stem "bob@example.com" ∉ stop_words →
  stem "hello" ∉ stop_words →
  preprocess stem stop_words "bob@example.com,hello"
  = [stem "bob@example.com"; stem "hello"].
Proof.
  intros H1 H2. unfold preprocess.
  replace (clean_token <$> Re.findall "bob@example.com,hello")
    with ["bob@example.com"; "hello"] by (vm_compute; reflexivity).
  cbn [omap list_omap].
  assert (process_token stem stop_words "bob@example.com" = Some (stem "bob@example.com")) as ->.
  { unfold process_token.
    replace (negb (Re.is_email "bob@example.com") && negb (Re.is_url "bob@example.com"))
      with false by (vm_compute; reflexivity).
    replace (Str.existsb Chr.isalpha "bob@example.com") with true by (vm_compute; reflexivity).
    replace (bool_decide (2 < String.length "bob@example.com")%nat)
      with true by (vm_compute; reflexivity).
    by rewrite bool_decide_eq_true_2. }
  assert (process_token stem stop_words "hello" = Some (stem "hello")) as ->.
  { unfold process_token.
    replace (negb (Re.is_email "hello") && negb (Re.is_url "hello"))
      with true by (vm_compute; reflexivity).
    replace (Str.filter (λ c, negb (Chr.isdigit c)) (Str.lower "hello"))
      with "hello" by (vm_compute; reflexivity).
    replace (Str.existsb Chr.isalpha "hello") with true by (vm_compute; reflexivity).
    replace (bool_decide (2 < String.length "hello")%nat)
      with true by (vm_compute; reflexivity).
    by rewrite bool_decide_eq_true_2. }
  done.
Qed.

(** C10, as stated, fails in its reason: normalizing one white-space slot
    can yield two tokens. *)
Lemma slot_normalizes_to_two_tokens :
  Str.split "bob@example.com,hello" = ["bob@example.com,hello"]
  ∧ preprocess stem_id ∅ "bob@example.com,hello" = ["bob@example.com"; "hello"]
  ∧ ¬ (∀ stem stop_words slot,
         Str.split slot = [slot] → (length (preprocess stem stop_words slot) ≤ 1)%nat).
Proof.
  split_and!.
  - vm_compute. reflexivity.
  - vm_compute. reflexivity.
  - intros Hall.
    specialize (Hall stem_id ∅ "bob@example.com,hello").
    rewrite (preprocess_slot_two_tokens stem_id ∅) in Hall.
    + simpl in Hall. specialize (Hall eq_refl). lia.
    + apply not_elem_of_empty.
    + apply not_elem_of_empty.
Qed.

(** C10, amended. In every freshly built positional index, within any
    single document the position lists of distinct terms are disjoint: each
    raw white-space slot contributes at most one (term, position) record,
    because only the first normalized token of a slot is recorded. *)
Theorem position_lists_disjoint
    (stem : string → string) (stop_words : gset string)
    (documents : list (Z * string)) (d : Z) (t1 t2 : string) (ps1 ps2 : list Z) :
  NoDup documents.*1 →
  t1 ≠ t2 →
  posting (build_indexes stem stop_words documents).2 t1 d = Some ps1 →
  posting (build_indexes stem stop_words documents).2 t2 d = Some ps2 →
  ∀ p, p ∈ ps1 → p ∉ ps2.
Proof.
  intros Hnd Hne H1 H2 p Hp1 Hp2.
  rewrite build_indexes_posting in H1, H2 by done.
  unfold occurrences_in in H1, H2.
  destruct (Dict.get d documents) as [document|]; [|done].
  assert (p ∈ occurrences stem stop_words t1 (enumerate (Str.split document))) as Ho1.
  { destruct (occurrences stem stop_words t1 _); by simplify_eq/=. }
  assert (p ∈ occurrences stem stop_words t2 (enumerate (Str.split document))) as Ho2.
  { destruct (occurrences stem stop_words t2 _); by simplify_eq/=. }
  apply elem_of_occurrences in Ho1 as (_ & w1 & Hw1 & Ht1).
  apply elem_of_occurrences in Ho2 as (_ & w2 & Hw2 & Ht2).
  congruence.
Qed.

Lemma position_lists_disjoint_witness :
  NoDup docs_example.*1
  ∧ "data" ≠ "mining"
  ∧ posting (build_indexes stem_id {["is"; "for"]} docs_example).2 "data" 1 = Some [0]
  ∧ posting (build_indexes stem_id {["is"; "for"]} docs_example).2 "mining" 1 = Some [1]
  ∧ (∀ p, p ∈ [0] → p ∉ [1]).
Proof.
  assert (NoDup docs_example.*1) as Hnd.
  { apply (bool_decide_unpack _). vm_compute. exact I. }
  assert ("data" ≠ "mining") as Hne by discriminate.
  assert (posting (build_indexes stem_id {["is"; "for"]} docs_example).2 "data" 1
          = Some [0]) as H1 by (vm_compute; reflexivity).
  assert (posting (build_indexes stem_id {["is"; "for"]} docs_example).2 "mining" 1
          = Some [1]) as H2 by (vm_compute; reflexivity).
  split_and!; [exact Hnd|exact Hne|exact H1|exact H2|].
  exact (position_lists_disjoint stem_id {["is"; "for"]} docs_example 1
           "data" "mining" [0] [1] Hnd Hne H1 H2).
Defined.

(** ** Splitting on white space *)

Lemma string_app_cons (x : ascii) (a b : string) : String x a +:+ b = String x (a +:+ b).
Proof. reflexivity. Qed.

Lemma string_app_nil_l (b : string) : "" +:+ b = b.
Proof. reflexivity. Qed.

Lemma string_app_assoc (a b c : string) : (a +:+ b) +:+ c = a +:+ (b +:+ c).
Proof.
  induction a as [|x a IH]; [done|].
  by rewrite !string_app_cons, IH.
Qed.

Lemma string_app_nil_r (a : string) : a +:+ "" = a.
Proof.
  induction a as [|x a IH]; [done|].
  by rewrite string_app_cons, IH.
Qed.

Lemma is_empty_app (a b : string) :
  Str.is_empty (a +:+ b) = Str.is_empty a && Str.is_empty b.
Proof. by destruct a. Qed.

Lemma split_go_word (cur w s : string) :
  Str.forallb (λ c, negb (Chr.isspace c)) w = true →
  Str.split_go cur (w +:+ s) = Str.split_go (cur +:+ w) s.
Proof.
  revert cur. induction w as [|c w IH]; intros cur Hw.
  - by rewrite string_app_nil_l, string_app_nil_r.
  - cbn [Str.forallb] in Hw. apply andb_true_iff in Hw as [Hc Hw].
    apply negb_true_iff in Hc.
    rewrite string_app_cons. cbn [Str.split_go]. rewrite Hc, IH by done.
    by rewrite string_app_assoc.
Qed.

(** A word followed by a blank is split off. *)
Lemma split_word_blank (w s : string) :
  is_word w = true → Str.split (w +:+ " " +:+ s) = w :: Str.split s.
Proof.
  unfold is_word, Str.split. intros [Hne Hw]%andb_true_iff.
  rewrite split_go_word by done. rewrite string_app_nil_l, string_app_cons.
  cbn [Str.split_go]. replace (Chr.isspace " ") with true by reflexivity.
  by destruct w.
Qed.

Lemma split_word (w : string) : is_word w = true → Str.split w = [w].
Proof.
  unfold is_word, Str.split. intros [Hne Hw]%andb_true_iff.
  rewrite <- (string_app_nil_r w) at 1. rewrite split_go_word by done.
  rewrite string_app_nil_l. cbn [Str.split_go]. by destruct w.
Qed.

(** ** Boolean query evaluator *)

Section BooleanFacts.

Variable stem : string → string.
Variable stop_words : gset string.

Local Abbreviation boolean_step := (boolean_step stem stop_words).
Local Abbreviation boolean_query := (boolean_query stem stop_words).
Local Abbreviation first_token := (first_token stem stop_words).

Lemma sorted_ints_empty : sorted_ints (elements (∅ : gset Z)) = [].
Proof. by rewrite elements_empty. Qed.

Lemma elem_of_sorted_ints (s : gset Z) d : d ∈ sorted_ints (elements s) ↔ d ∈ s.
Proof. unfold sorted_ints. by rewrite merge_sort_Permutation, elem_of_elements. Qed.

(** An operator token never touches the accumulated result set. *)
Lemma boolean_step_operator inverted_index all_documents st term :
  is_operator term = true →
  ∃ st', boolean_step inverted_index all_documents st term = ok st'
         ∧ result_set st' = result_set st.
Proof.
  unfold is_operator, boolean_step. intros Hop.
  destruct (is_keyword "and" term); [by eexists|].
  destruct (is_keyword "or" term); [by eexists|].
  destruct (is_keyword "not" term); [by eexists|]. done.
Qed.

Lemma boolean_fold_operators inverted_index all_documents terms st :
  Forall (λ term, is_operator term = true) terms →
  ∃ st', Codec.fold_exn (boolean_step inverted_index all_documents) st terms = ok st'
         ∧ result_set st' = result_set st.
Proof.
  intros Hall. revert st. induction Hall as [|term terms Hop _ IH]; intros st.
  - by eexists.
  - destruct (boolean_step_operator inverted_index all_documents st term Hop)
      as (st1 & Hst1 & Hr1).
    destruct (IH st1) as (st' & Hst' & Hr').
    exists st'. simpl. rewrite Hst1. simpl. split; [done|]. congruence.
Qed.

(** The evaluator raises nothing but [IndexError]. *)
Lemma boolean_step_raises inverted_index all_documents st term e :
  boolean_step inverted_index all_documents st term = raise e → e = IndexError.
Proof.
  unfold boolean_step, first_token.
  destruct (is_keyword "and" term); [done|].
  destruct (is_keyword "or" term); [done|].
  destruct (is_keyword "not" term); [done|].
  destruct (preprocess stem stop_words term); simpl; congruence.
Qed.

Lemma boolean_step_empty_term inverted_index all_documents st term :
  is_operator term = false →
  preprocess stem stop_words term = [] →
  boolean_step inverted_index all_documents st term = raise IndexError.
Proof.
  unfold is_operator, boolean_step, first_token. intros Hop Hpre.
  destruct (is_keyword "and" term); [done|].
  destruct (is_keyword "or" term); [done|].
  destruct (is_keyword "not" term); [done|].
  by rewrite Hpre.
Qed.

Lemma boolean_fold_empty_term inverted_index all_documents terms st term :
  term ∈ terms →
  is_operator term = false →
  preprocess stem stop_words term = [] →
  Codec.fold_exn (boolean_step inverted_index all_documents) st terms = raise IndexError.
Proof.
  intros Hin Hop Hpre. revert st.
  induction terms as [|x terms IH]; intros st.
  - by apply elem_of_nil in Hin.
  - simpl.
    destruct (boolean_step inverted_index all_documents st x) as [e|st1] eqn:Hx.
    + apply boolean_step_raises in Hx as ->. done.
    + apply elem_of_cons in Hin as [->|Hin].
      * by rewrite boolean_step_empty_term in Hx.
      * simpl. by apply IH.
Qed.

(** A search term that normalizes to nothing makes the whole query raise. *)
Lemma boolean_query_empty_term query inverted_index all_documents term :
  term ∈ Str.split query →
  is_operator term = false →
  preprocess stem stop_words term = [] →
  boolean_query query inverted_index all_documents = raise IndexError.
Proof.
  intros Hin Hop Hpre. unfold boolean_query.
  by rewrite (boolean_fold_empty_term _ _ _ _ term).
Qed.

End BooleanFacts.

Lemma split_join (ws : list string) :
  Forall (λ w, is_word w = true) ws → Str.split (Str.join " " ws) = ws.
Proof.
  induction 1 as [|w ws Hw Hws IH]; [done|].
  destruct ws as [|w' ws].
  - by apply split_word.
  - change (Str.join " " (w :: w' :: ws)) with (w +:+ " " +:+ Str.join " " (w' :: ws)).
    by rewrite split_word_blank, IH.
Qed.

(** C9. For every boolean query string that contains no search term (the
    empty string, or only the operator tokens AND, OR, NOT in any letter
    case) [boolean_query] returns the empty list; a lone NOT returns the
    empty list as well. *)
Theorem boolean_query_only_operators
    (stem : string → string) (stop_words : gset string) (query : string)
    (inverted_index : list (string * list Z)) (all_documents : gset Z) :
  Forall (λ term, is_operator term = true) (Str.split query) →
  boolean_query stem stop_words query inverted_index all_documents = ok [].
Proof.
  intros Hops. unfold boolean_query.
  destruct (boolean_fold_operators stem stop_words inverted_index all_documents
              (Str.split query) (BqState ∅ None false) Hops) as (st & -> & Hst).
  simpl in *. by rewrite Hst, sorted_ints_empty.
Qed.

Lemma boolean_query_only_operators_witness :
  Forall (λ term, is_operator term = true) (Str.split "NOT")
  ∧ boolean_query stem_lower {["is"; "for"]} "NOT"
      [("data", [1; 2]); ("gold", [2])] {[1; 2]} = ok [].
Proof.
  assert (Forall (λ term, is_operator term = true) (Str.split "NOT")) as Hops.
  { apply (bool_decide_unpack _). vm_compute. exact I. }
  split; [exact Hops|].
  exact (boolean_query_only_operators stem_lower {["is"; "for"]} "NOT"
           [("data", [1; 2]); ("gold", [2])] {[1; 2]} Hops).
Defined.

Example boolean_query_blank_and_mixed_case :
  boolean_query stem_id ∅ "" [("data", [1; 2])] {[1; 2]} = ok []
  ∧ boolean_query stem_id ∅ " and  OR Not nOT " [("data", [1; 2])] {[1; 2]} = ok [].
Proof. split; vm_compute; reflexivity. Qed.

(** C2. The claim holds of the specification, not of the code: a search term
    that normalizes to no token makes [preprocess(term)[0]] raise
    [IndexError], whatever the stemmer, the stopwords, the index and the
    universe.  Here the term ["12"] loses its digits and nothing is left. *)
Theorem boolean_query_filtered_term_raises
    (stem : string → string) (stop_words : gset string)
    (inverted_index : list (string * list Z)) (all_documents : gset Z) :
  preprocess stem stop_words "12" = []
  ∧ boolean_query stem stop_words "data AND 12" inverted_index all_documents
    = raise IndexError.
Proof.
  assert (preprocess stem stop_words "12" = []) as Hpre by (vm_compute; reflexivity).
  split; [exact Hpre|].
  apply (boolean_query_empty_term stem stop_words _ _ _ "12").
  - apply (bool_decide_unpack _). vm_compute. exact I.
  - vm_compute. reflexivity.
  - exact Hpre.
Qed.

(** ** De Morgan's law and the evaluator *)

Section DeMorgan.

Variable stem : string → string.
Variable stop_words : gset string.
Variable inverted_index : list (string * list Z).
Variable all_documents : gset Z.

Local Abbreviation step := (boolean_step stem stop_words inverted_index all_documents).

Local Abbreviation postings_of := (postings_of inverted_index).

Lemma step_AND st : step st "AND" = ok (BqState (result_set st) (Some AND) false).
Proof. reflexivity. Qed.

Lemma step_OR st : step st "OR" = ok (BqState (result_set st) (Some OR) false).
Proof. reflexivity. Qed.

Lemma step_NOT st :
  step st "NOT" = ok (BqState (result_set st) (last_operation st) (negb (not_flag st))).
Proof. reflexivity. Qed.

Lemma step_term st term t rest :
  is_operator term = false →
  preprocess stem stop_words term = t :: rest →
  step st term
  = ok (BqState
          (let term_results :=
             if not_flag st then all_documents ∖ postings_of t else postings_of t in
           match last_operation st with
           | Some AND => result_set st ∩ term_results
           | Some OR => result_set st ∪ term_results
           | None => term_results
           end)
          (last_operation st) (not_flag st)).
Proof.
  unfold is_operator, boolean_step, first_token. intros Hop ->.
  destruct (is_keyword "and" term); [done|].
  destruct (is_keyword "or" term); [done|].
  destruct (is_keyword "not" term); [done|]. done.
Qed.

End DeMorgan.

(** C7, as stated, fails: the evaluator has no grouping, so the brackets
    stay glued to the words.  ["NOT (data AND gold)"] is folded as
    (universe minus data) AND gold, and in ["(NOT data) OR (NOT gold)"] the
    token ["(NOT"] is a search term, not the operator (and raises when
    ["not"] is a stopword). *)
Lemma de_morgan_query_texts_differ :
  let inverted_index := [("data", [1; 2]); ("fun", [1]); ("gold", [2]); ("mining", [1; 2])] in
  boolean_query stem_id ∅ "NOT (data AND gold)" inverted_index {[1; 2]} = ok []
  ∧ boolean_query stem_id ∅ "(NOT data) OR (NOT gold)" inverted_index {[1; 2]} = ok [1; 2]
  ∧ boolean_query stem_id ∅ "NOT (data AND gold)" inverted_index {[1; 2]}
    ≠ boolean_query stem_id ∅ "(NOT data) OR (NOT gold)" inverted_index {[1; 2]}
  ∧ boolean_query stem_id {["not"]} "NOT (data AND gold)" inverted_index {[1; 2]} = ok []
  ∧ boolean_query stem_id {["not"]} "(NOT data) OR (NOT gold)" inverted_index {[1; 2]}
    = raise IndexError.
Proof.
  assert (boolean_query stem_id ∅ "NOT (data AND gold)"
            [("data", [1; 2]); ("fun", [1]); ("gold", [2]); ("mining", [1; 2])] {[1; 2]}
          = ok []) as H1 by (vm_compute; reflexivity).
  assert (boolean_query stem_id ∅ "(NOT data) OR (NOT gold)"
            [("data", [1; 2]); ("fun", [1]); ("gold", [2]); ("mining", [1; 2])] {[1; 2]}
          = ok [1; 2]) as H2 by (vm_compute; reflexivity).
  cbv zeta. rewrite H1, H2. split_and!; [done|done|discriminate| |].
  - vm_compute. reflexivity.
  - vm_compute. reflexivity.
Qed.

(** C7, amended. For any two search terms [A] and [B], written without
    brackets, the query ["NOT A OR NOT B"] returns exactly the documents of
    the universe that the query ["A AND B"] does not return. *)
Theorem de_morgan_without_grouping
    (stem : string → string) (stop_words : gset string)
    (inverted_index : list (string * list Z)) (all_documents : gset Z)
    (A B a b : string) (rest_a rest_b : list string) :
  is_word A = true → is_word B = true →
  is_operator A = false → is_operator B = false →
  preprocess stem stop_words A = a :: rest_a →
  preprocess stem stop_words B = b :: rest_b →
  ∃ both neither,
    boolean_query stem stop_words (Str.join " " [A; "AND"; B])
      inverted_index all_documents = ok both
    ∧ boolean_query stem stop_words (Str.join " " ["NOT"; A; "OR"; "NOT"; B])
        inverted_index all_documents = ok neither
    ∧ ∀ d, d ∈ neither ↔ d ∈ all_documents ∧ d ∉ both.
Proof.
  intros HwA HwB HoA HoB HA HB.
  eexists _, _. split_and!.
  - unfold boolean_query. rewrite split_join by (repeat constructor; done).
    cbn [Codec.fold_exn].
    rewrite (step_term _ _ _ _ _ _ _ _ HoA HA). cbn [bind].
    rewrite step_AND. cbn [bind].
    rewrite (step_term _ _ _ _ _ _ _ _ HoB HB). cbn [bind]. reflexivity.
  - unfold boolean_query. rewrite split_join by (repeat constructor; done).
    cbn [Codec.fold_exn].
    rewrite step_NOT. cbn [bind].
    rewrite (step_term _ _ _ _ _ _ _ _ HoA HA). cbn [bind].
    rewrite step_OR. cbn [bind].
    rewrite step_NOT. cbn [bind].
    rewrite (step_term _ _ _ _ _ _ _ _ HoB HB). cbn [bind]. reflexivity.
  - intros d. cbn. rewrite !elem_of_sorted_ints.
    rewrite elem_of_union, !elem_of_difference, elem_of_intersection.
    destruct (decide (d ∈ postings_of inverted_index a));
      destruct (decide (d ∈ postings_of inverted_index b)); tauto.
Qed.

Lemma de_morgan_without_grouping_witness :
  is_word "data" = true ∧ is_word "gold" = true
  ∧ is_operator "data" = false ∧ is_operator "gold" = false
  ∧ preprocess stem_id ∅ "data" = ["data"]
  ∧ preprocess stem_id ∅ "gold" = ["gold"]
  ∧ ∃ both neither,
      boolean_query stem_id ∅ (Str.join " " ["data"; "AND"; "gold"])
        [("data", [1; 2]); ("gold", [2])] {[1; 2]} = ok both
      ∧ boolean_query stem_id ∅ (Str.join " " ["NOT"; "data"; "OR"; "NOT"; "gold"])
          [("data", [1; 2]); ("gold", [2])] {[1; 2]} = ok neither
      ∧ ∀ d, d ∈ neither ↔ d ∈ ({[1; 2]} : gset Z) ∧ d ∉ both.
Proof.
  assert (is_word "data" = true) as H1 by reflexivity.
  assert (is_word "gold" = true) as H2 by reflexivity.
  assert (is_operator "data" = false) as H3 by (vm_compute; reflexivity).
  assert (is_operator "gold" = false) as H4 by (vm_compute; reflexivity).
  assert (preprocess stem_id ∅ "data" = ["data"]) as H5 by (vm_compute; reflexivity).
  assert (preprocess stem_id ∅ "gold" = ["gold"]) as H6 by (vm_compute; reflexivity).
  split_and!; [exact H1|exact H2|exact H3|exact H4|exact H5|exact H6|].
  exact (de_morgan_without_grouping stem_id ∅ [("data", [1; 2]); ("gold", [2])] {[1; 2]}
           "data" "gold" "data" "gold" [] [] H1 H2 H3 H4 H5 H6).
Defined.

(** ** Proximity query evaluator *)

(** A loop that only ever adds to a set: what it has added in the end. *)
Lemma foldl_adds {A K} `{Countable K} (f : gset K → A → gset K) (Q : A → K → Prop) :
  (∀ R a x, x ∈ f R a ↔ x ∈ R ∨ Q a x) →
  ∀ l R x, x ∈ foldl f R l ↔ x ∈ R ∨ ∃ a, a ∈ l ∧ Q a x.
Proof.
  intros Hf l. induction l as [|a l IH]; intros R x.
  - simpl. split; [by left|]. intros [?|(a & Ha & _)]; [done|].
    by apply elem_of_nil in Ha.
  - cbn [foldl]. rewrite IH, Hf. split.
    + intros [[?|?]|(a' & Ha' & ?)]; [by left|right..].
      * exists a. split; [apply list_elem_of_here|done].
      * exists a'. split; [by apply list_elem_of_further|done].
    + intros [?|(a' & Ha' & ?)]; [by left; left|].
      apply elem_of_cons in Ha' as [->|Ha']; [by left; right|].
      right. eauto.
Qed.

Section ProximityFacts.

Variable stem : string → string.
Variable stop_words : gset string.
Variable word_tokenize : string → list string.

Context {K : Type} `{Countable K}.
Variable key_order : relation K.
Context `{!RelDecision key_order}.

Implicit Types (positional_index : list (string * list (K * list Z))).
Implicit Types (R : gset K) (doc_id x : K).

Lemma scan_next_positions_spec R doc_id position k next_term_positions x :
  x ∈ scan_next_positions R doc_id position k next_term_positions
  ↔ x ∈ R ∨ (x = doc_id ∧ ∃ q, q ∈ next_term_positions ∧ Z.abs (q - position) = k + 1).
Proof.
  induction next_term_positions as [|q0 l IH]; cbn [scan_next_positions].
  - split; [by left|]. intros [?|(_ & q & Hq & _)]; [done|].
    by apply elem_of_nil in Hq.
  - case_bool_decide as Hq0.
    + rewrite elem_of_union, elem_of_singleton. split.
      * intros [->|?]; [right|by left]. split; [done|].
        exists q0. split; [apply list_elem_of_here|done].
      * intros [?|[-> _]]; [by right|by left].
    + rewrite IH. split.
      * intros [?|(-> & q & Hq & ?)]; [by left|right]. split; [done|].
        exists q. split; [by apply list_elem_of_further|done].
      * intros [?|(-> & q & Hq & ?)]; [by left|].
        apply elem_of_cons in Hq as [->|Hq]; [done|].
        right. eauto.
Qed.

Lemma scan_terms_spec positional_index later_terms k doc_id R position x :
  x ∈ scan_terms positional_index later_terms k doc_id R position
  ↔ x ∈ R
    ∨ (x = doc_id
       ∧ ∃ term q, term ∈ later_terms
                   ∧ q ∈ positions_of positional_index term doc_id
                   ∧ Z.abs (q - position) = k + 1).
Proof.
  unfold scan_terms.
  rewrite (foldl_adds _
    (λ term x, x = doc_id
               ∧ ∃ q, q ∈ positions_of positional_index term doc_id
                      ∧ Z.abs (q - position) = k + 1)).
  - split; (intros [?|Hx]; [by left|right]).
    + destruct Hx as (term & ? & -> & q & ? & ?). eauto 10.
    + destruct Hx as (-> & term & q & ? & ? & ?). eauto 10.
  - intros R' term x'. apply scan_next_positions_spec.
Qed.

Lemma scan_postings_spec positional_index later_terms k postings x :
  x ∈ scan_postings positional_index later_terms k postings
  ↔ ∃ positions p term q,
      (x, positions) ∈ postings ∧ p ∈ positions
      ∧ term ∈ later_terms
      ∧ q ∈ positions_of positional_index term x
      ∧ Z.abs (q - p) = k + 1.
Proof.
  unfold scan_postings.
  rewrite (foldl_adds _
    (λ posting x, x = posting.1
                  ∧ ∃ p term q, p ∈ posting.2 ∧ term ∈ later_terms
                                ∧ q ∈ positions_of positional_index term x
                                ∧ Z.abs (q - p) = k + 1)).
  - split.
    + intros [?%not_elem_of_empty|([d ps] & Hin & -> & p & term & q & ?)]; [done|].
      simpl in *. eauto 10.
    + intros (ps & p & term & q & Hin & ?). right. exists (x, ps). eauto 10.
  - intros R [d ps] x'. cbn [fst snd].
    rewrite (foldl_adds _
      (λ p x, x = d ∧ ∃ term q, term ∈ later_terms
                                ∧ q ∈ positions_of positional_index term d
                                ∧ Z.abs (q - p) = k + 1)).
    + split; (intros [?|Hx]; [by left|right]).
      * destruct Hx as (p & ? & -> & term & q & ?). eauto 10.
      * destruct Hx as (-> & p & term & q & ? & ? & ? & ?).
        exists p. split_and!; [done..|]. eauto.
    + intros R' p x''. apply scan_terms_spec.
Qed.

Lemma elem_of_sorted_keys (result_set : gset K) x :
  x ∈ merge_sort key_order (elements result_set) ↔ x ∈ result_set.
Proof. by rewrite merge_sort_Permutation, elem_of_elements. Qed.

(** No surviving query term: [query_terms[0]] has nothing to return. *)
Lemma proximity_query_no_terms query positional_index :
  preprocess stem stop_words query = [] →
  ∃ e, proximity_query stem stop_words word_tokenize key_order query positional_index
       = raise e.
Proof.
  intros Hpre. unfold proximity_query.
  destruct (last (word_tokenize query)) as [last_term|]; [|by eexists].
  cbn [bind]. destruct (Codec.int_of_str last_term) as [e|k]; [by eexists|].
  cbn [bind]. rewrite Hpre. cbn [forallb bind]. by eexists.
Qed.

(** One surviving query term: there is no later term to pair it with. *)
Lemma proximity_query_single_term query positional_index last_term k term :
  last (word_tokenize query) = Some last_term →
  Codec.int_of_str last_term = ok k →
  preprocess stem stop_words query = [term] →
  proximity_query stem stop_words word_tokenize key_order query positional_index = ok [].
Proof.
  intros Hlast Hint Hpre. unfold proximity_query.
  rewrite Hlast. cbn [bind]. rewrite Hint. cbn [bind]. rewrite Hpre.
  assert (∀ postings, scan_postings positional_index [] k postings = (∅ : gset K)) as Hscan.
  { intros postings. apply set_eq. intros x. rewrite scan_postings_spec.
    split; [|by intros ?%not_elem_of_empty].
    intros (? & ? & ? & ? & _ & _ & ?%elem_of_nil & _). done. }
  destruct (forallb _ [term]); cbn [bind]; [rewrite Hscan|];
    by rewrite elements_empty.
Qed.

End ProximityFacts.

(** C4, as stated, fails for a query of three terms: the document is
    reported as soon as one later term has a qualifying position, although
    another later term has none. *)
Lemma proximity_some_term_suffices :
  let positional_index :=
    [("data", [(1, [0])]); ("fun", [(1, [1])]); ("gold", [(1, [5])])] in
  preprocess stem_id ∅ "data fun gold / 0" = ["data"; "fun"; "gold"]
  ∧ proximity_query stem_id ∅ tokenize_blank Z.le "data fun gold / 0" positional_index
    = ok [1]
  ∧ ¬ (∃ p, p ∈ [0]
            ∧ ∀ term, term ∈ ["fun"; "gold"] →
                ∃ q, q ∈ positions_of positional_index term 1
                     ∧ Z.abs (q - p) = 0 + 1).
Proof.
  cbv zeta. split_and!.
  - vm_compute. reflexivity.
  - vm_compute. reflexivity.
  - intros (p & ->%list_elem_of_singleton & Hall).
    destruct (Hall "gold") as (q & Hq & Habs).
    + apply list_elem_of_further, list_elem_of_here.
    + replace (positions_of [("data", [(1, [0])]); ("fun", [(1, [1])]); ("gold", [(1, [5])])]
                 "gold" 1) with [5] in Hq by (vm_compute; reflexivity).
      apply list_elem_of_singleton in Hq as ->. lia.
Qed.

(** C4, amended. For every proximity query whose normalized terms are all
    keys of the positional index, a document id is in the result exactly
    when some position [p] of the first term in that document and some
    position [q] of SOME later query term in the same document satisfy
    [abs(q - p) = k + 1].  With two query terms, some later term and every
    later term are the same thing. *)
Theorem proximity_query_matches
    (stem : string → string) (stop_words : gset string)
    (word_tokenize : string → list string)
    {K : Type} `{Countable K} (key_order : relation K) `{!RelDecision key_order}
    (query : string) (positional_index : list (string * list (K * list Z)))
    (last_term : string) (k : Z) (first_term : string) (later_terms : list string)
    (postings : list (K * list Z)) :
  last (word_tokenize query) = Some last_term →
  Codec.int_of_str last_term = ok k →
  preprocess stem stop_words query = first_term :: later_terms →
  Dict.get first_term positional_index = Some postings →
  Forall (λ term, is_Some (Dict.get term positional_index)) later_terms →
  ∃ result,
    proximity_query stem stop_words word_tokenize key_order query positional_index
    = ok result
    ∧ ∀ d, d ∈ result
           ↔ ∃ positions p term q,
               (d, positions) ∈ postings ∧ p ∈ positions
               ∧ term ∈ later_terms
               ∧ q ∈ positions_of positional_index term d
               ∧ Z.abs (q - p) = k + 1.
Proof.
  intros Hlast Hint Hpre Hfirst Hlater. unfold proximity_query.
  rewrite Hlast. cbn [bind]. rewrite Hint. cbn [bind]. rewrite Hpre.
  assert (forallb (λ term, Dict.mem term positional_index) (first_term :: later_terms)
          = true) as ->.
  { apply forallb_forall. intros term [<-|Hin]%list_elem_of_In%elem_of_cons.
    - apply dict_mem_spec. eauto.
    - apply dict_mem_spec. rewrite Forall_forall in Hlater. auto. }
  cbn [bind]. rewrite Hfirst. eexists. split; [reflexivity|].
  intros d. rewrite elem_of_sorted_keys. apply scan_postings_spec.
Qed.

Lemma proximity_query_matches_witness :
  let positional_index :=
    [("data", [(1, [0]); (2, [1])]); ("mining", [(1, [1]); (2, [4])])] in
  last (tokenize_blank "data mining / 0") = Some "0"
  ∧ Codec.int_of_str "0" = ok 0
  ∧ preprocess stem_id ∅ "data mining / 0" = ["data"; "mining"]
  ∧ Dict.get "data" positional_index = Some [(1, [0]); (2, [1])]
  ∧ Forall (λ term, is_Some (Dict.get term positional_index)) ["mining"]
  ∧ ∃ result,
      proximity_query stem_id ∅ tokenize_blank Z.le "data mining / 0" positional_index
      = ok result
      ∧ ∀ d, d ∈ result
             ↔ ∃ positions p term q,
                 (d, positions) ∈ [(1, [0]); (2, [1])] ∧ p ∈ positions
                 ∧ term ∈ ["mining"]
                 ∧ q ∈ positions_of positional_index term d
                 ∧ Z.abs (q - p) = 0 + 1.
Proof.
  cbv zeta.
  assert (last (tokenize_blank "data mining / 0") = Some "0") as H1
    by (vm_compute; reflexivity).
  assert (Codec.int_of_str "0" = ok 0) as H2 by (vm_compute; reflexivity).
  assert (preprocess stem_id ∅ "data mining / 0" = ["data"; "mining"]) as H3
    by (vm_compute; reflexivity).
  assert (Dict.get "data" [("data", [(1, [0]); (2, [1])]); ("mining", [(1, [1]); (2, [4])])]
          = Some [(1, [0]); (2, [1])]) as H4 by (vm_compute; reflexivity).
  assert (Forall (λ term, is_Some (Dict.get term
            [("data", [(1, [0]); (2, [1])]); ("mining", [(1, [1]); (2, [4])])]))
            ["mining"]) as H5.
  { constructor; [|constructor]. vm_compute. eauto. }
  split_and!; [exact H1|exact H2|exact H3|exact H4|exact H5|].
  exact (proximity_query_matches stem_id ∅ tokenize_blank Z.le "data mining / 0"
           [("data", [(1, [0]); (2, [1])]); ("mining", [(1, [1]); (2, [4])])]
           "0" 0 "data" ["mining"] [(1, [0]); (2, [1])] H1 H2 H3 H4 H5).
Defined.

(** C5. The claim holds of the specification, not of the code: when every
    query term is filtered out, [all] over the empty term list is true and
    [query_terms[0]] raises [IndexError] (unless reading the distance from
    the tokenized query has raised before).  Both terms of ["ab cd / 0"] are
    too short to survive normalization. *)
Theorem proximity_query_all_filtered_raises
    (stem : string → string) (stop_words : gset string)
    (word_tokenize : string → list string)
    (positional_index : list (string * list (Z * list Z))) :
  preprocess stem stop_words "ab cd / 0" = []
  ∧ (∃ e, proximity_query stem stop_words word_tokenize Z.le "ab cd / 0" positional_index
          = raise e)
  ∧ proximity_query stem stop_words tokenize_blank Z.le "ab cd / 0" positional_index
    = raise IndexError.
Proof.
  assert (preprocess stem stop_words "ab cd / 0" = []) as Hpre
    by (vm_compute; reflexivity).
  split_and!.
  - exact Hpre.
  - by apply proximity_query_no_terms.
  - unfold proximity_query.
    replace (last (tokenize_blank "ab cd / 0")) with (Some "0")
      by (vm_compute; reflexivity).
    cbn [bind].
    replace (Codec.int_of_str "0") with (ok 0) by (vm_compute; reflexivity).
    cbn [bind]. by rewrite Hpre.
Qed.

Lemma strip_prefix_app (pre s r : string) :
  Str.strip_prefix pre s = Some r → s = pre +:+ r.
Proof.
  revert s. induction pre as [|a pre IH]; intros s Hs.
  - simpl in Hs. by simplify_eq.
  - destruct s as [|b s]; [done|]. cbn [Str.strip_prefix] in Hs.
    destruct (Ascii.eqb_spec a b) as [->|]; [|done].
    rewrite string_app_cons. f_equal. by apply IH.
Qed.

(** ** The scan of [re.findall] ends

    Every match consumes at least one character, so the length of the text
    is fuel enough: more fuel gives the same list of words. *)

Lemma string_length_app (a b : string) :
  String.length (a +:+ b) = (String.length a + String.length b)%nat.
Proof.
  induction a as [|x a IH]; [done|].
  rewrite string_app_cons. simpl. by rewrite IH.
Qed.

Lemma span_length (p : ascii → bool) (s a b : string) :
  Str.span p s = (a, b) →
  String.length s = (String.length a + String.length b)%nat.
Proof.
  revert a b. induction s as [|c s IH]; intros a b Hs; simpl in Hs.
  - by simplify_eq.
  - destruct (p c).
    + destruct (Str.span p s) as [a' b'] eqn:Hs'. simplify_eq.
      simpl. by rewrite (IH a' b).
    + by simplify_eq.
Qed.

Lemma nonempty_span_shorter (p : ascii → bool) (s a b : string) :
  Re.nonempty_span p s = Some (a, b) →
  (String.length b < String.length s)%nat.
Proof.
  unfold Re.nonempty_span. destruct (Str.span p s) as [a' b'] eqn:Hs.
  destruct a' as [|c a']; intros ?; simplify_eq/=.
  apply span_length in Hs. simpl in Hs. lia.
Qed.

Lemma strip_prefix_length (pre s r : string) :
  Str.strip_prefix pre s = Some r → (String.length r ≤ String.length s)%nat.
Proof. intros ->%strip_prefix_app. rewrite string_length_app. lia. Qed.

Lemma match_email_shorter (s w rest : string) :
  Re.match_email s = Some (w, rest) → (String.length rest < String.length s)%nat.
Proof.
  unfold Re.match_email. intros Hm.
  destruct (Re.nonempty_span Chr.email_local s) as [[loc r1]|] eqn:H1; [|done].
  cbn [mbind option_bind] in Hm.
  destruct (Str.strip_prefix "@" r1) as [r2|] eqn:H2; [|done]. cbn [mbind option_bind] in Hm.
  destruct (Re.nonempty_span Chr.email_domain r2) as [[dom r3]|] eqn:H3; [|done].
  cbn [mbind option_bind] in Hm.
  destruct (Str.strip_prefix "." r3) as [r4|] eqn:H4; [|done]. cbn [mbind option_bind] in Hm.
  destruct (Re.nonempty_span Chr.email_tld r4) as [[tld r5]|] eqn:H5; [|done].
  cbn [mbind option_bind] in Hm. simplify_eq.
  apply nonempty_span_shorter in H1, H3, H5.
  apply strip_prefix_length in H2, H4. lia.
Qed.

Lemma match_url_shorter (s w rest : string) :
  Re.match_url s = Some (w, rest) → (String.length rest < String.length s)%nat.
Proof.
  unfold Re.match_url. intros Hm.
  destruct (Str.strip_prefix "https://" s) as [r|] eqn:H1.
  - destruct (Re.nonempty_span _ r) as [[body rest']|] eqn:H2; [|done].
    cbn [mbind option_bind] in Hm. simplify_eq.
    apply nonempty_span_shorter in H2. apply strip_prefix_length in H1. lia.
  - destruct (Str.strip_prefix "http://" s) as [r|] eqn:H2; [|done]. cbn [mbind option_bind] in Hm.
    destruct (Re.nonempty_span _ r) as [[body rest']|] eqn:H3; [|done].
    cbn [mbind option_bind] in Hm. simplify_eq.
    apply nonempty_span_shorter in H3. apply strip_prefix_length in H2. lia.
Qed.

Lemma match_word_shorter (s w rest : string) :
  Re.match_word s = Some (w, rest) → (String.length rest < String.length s)%nat.
Proof.
  unfold Re.match_word, Re.match_nonspace. intros Hm.
  destruct (Re.match_email s) as [[w1 r1]|] eqn:H1.
  { simplify_eq. by eapply match_email_shorter. }
  destruct (Re.match_url s) as [[w2 r2]|] eqn:H2.
  { simplify_eq. by eapply match_url_shorter. }
  by eapply nonempty_span_shorter.
Qed.

Lemma findall_fuel_enough (n m : nat) (s : string) :
  (String.length s ≤ n)%nat → (String.length s ≤ m)%nat →
  Re.findall_fuel n s = Re.findall_fuel m s.
Proof.
  revert m s. induction n as [|n IH]; intros m s Hn Hm.
  - destruct s; [|simpl in Hn; lia]. by destruct m.
  - destruct s as [|c s]; [by destruct m|].
    destruct m as [|m]; [simpl in Hm; lia|].
    cbn [Re.findall_fuel].
    destruct (Re.match_word (String c s)) as [[w rest]|] eqn:Hw.
    + apply match_word_shorter in Hw. simpl in *. f_equal. apply IH; lia.
    + simpl in *. apply IH; lia.
Qed.

(** [re.findall] with any fuel at least the length of the text. *)
Lemma findall_total (n : nat) (s : string) :
  (String.length s ≤ n)%nat → Re.findall_fuel n s = Re.findall s.
Proof. intros Hn. unfold Re.findall. by apply findall_fuel_enough. Qed.

(** ** Normalizer: preserved email and URL tokens *)

(** A word that starts like a URL does not start like an email address:
    the local part stops at the colon. *)
Lemma match_url_not_email (w : string) :
  is_Some (Re.match_url w) → Re.match_email w = None.
Proof.
  unfold Re.match_url. intros [r Hr].
  destruct (Str.strip_prefix "https://" w) as [r1|] eqn:H1.
  - apply strip_prefix_app in H1 as ->. vm_compute. reflexivity.
  - destruct (Str.strip_prefix "http://" w) as [r2|] eqn:H2; [|done].
    apply strip_prefix_app in H2 as ->. vm_compute. reflexivity.
Qed.

Lemma findall_whole_word (w : string) :
  Re.match_word w = Some (w, "") → Re.findall w = [w].
Proof.
  intros Hw. unfold Re.findall. destruct w as [|c w]; [done|].
  cbn [String.length Re.findall_fuel]. rewrite Hw.
  by destruct (String.length w).
Qed.

Section PreservedTokens.

Variable stem : string → string.
Variable stop_words : gset string.

(** A word that is an email address or a URL from its first to its last
    character is the only token found in it, and it is left as it is by
    the cleaning and lowercasing steps. *)
Lemma preserved_word_tokens (w : string) :
  Re.match_email w = Some (w, "") ∨ Re.match_url w = Some (w, "") →
  Re.findall w = [w] ∧ Re.is_email w || Re.is_url w = true.
Proof.
  intros [He|Hu].
  - split.
    + apply findall_whole_word. unfold Re.match_word. by rewrite He.
    + unfold Re.is_email. rewrite He. by rewrite bool_decide_eq_true_2.
  - split.
    + apply findall_whole_word. unfold Re.match_word.
      rewrite match_url_not_email by (rewrite Hu; eauto). by rewrite Hu.
    + unfold Re.is_url. rewrite Hu.
      rewrite (bool_decide_eq_true_2 (is_Some (Some _))) by eauto.
      apply orb_true_r.
Qed.

End PreservedTokens.

(** C3. The claim holds of the specification, not of the code.  The
    comments of [preprocess] ask for email addresses and URLs to be
    preserved, and its lowercasing and digit removal are guarded
    accordingly, but [stemmer.stem] and the stopword test run on every
    token.  For the address ["Bob@Example.com"], whatever the stemmer and
    the stopwords, the result is the stem of the address, or nothing when
    that stem is a stopword; so it is the address itself only for a stemmer
    that leaves it alone.  NLTK's stemmer lowercases its argument: a
    lowercasing stemmer turns the address into lower case, and an address
    on the stopword list is dropped. *)
Theorem preserved_token_is_stemmed_and_filtered
    (stem : string → string) (stop_words : gset string) :
  Re.match_email "Bob@Example.com" = Some ("Bob@Example.com", "")
  ∧ Str.existsb Chr.isalpha "Bob@Example.com" = true
  ∧ (2 < String.length "Bob@Example.com")%nat
  ∧ preprocess stem stop_words "Bob@Example.com"
    = (if bool_decide (stem "Bob@Example.com" ∉ stop_words)
       then [stem "Bob@Example.com"] else [])
  ∧ (preprocess stem stop_words "Bob@Example.com" = ["Bob@Example.com"]
     → stem "Bob@Example.com" = "Bob@Example.com")
  ∧ preprocess stem_lower ∅ "Bob@Example.com" = ["bob@example.com"]
  ∧ preprocess stem_lower ∅ "Bob@Example.com" ≠ ["Bob@Example.com"]
  ∧ preprocess stem_id {["Bob@Example.com"]} "Bob@Example.com" = [].
Proof.
  assert (Re.match_email "Bob@Example.com" = Some ("Bob@Example.com", "")) as Hm
    by (vm_compute; reflexivity).
  assert (Str.existsb Chr.isalpha "Bob@Example.com" = true) as Ha
    by (vm_compute; reflexivity).
  assert (2 < String.length "Bob@Example.com")%nat as Hl by (vm_compute; lia).
  assert (preprocess stem stop_words "Bob@Example.com"
          = (if bool_decide (stem "Bob@Example.com" ∉ stop_words)
             then [stem "Bob@Example.com"] else [])) as Hgen.
  { destruct (preserved_word_tokens "Bob@Example.com" (or_introl Hm)) as [Hfind Hpres].
    unfold preprocess. rewrite Hfind. cbn [fmap list_fmap omap list_omap].
    unfold clean_token. rewrite Hpres. unfold process_token.
    assert (negb (Re.is_email "Bob@Example.com") && negb (Re.is_url "Bob@Example.com")
            = false) as ->.
    { by destruct (Re.is_email "Bob@Example.com"), (Re.is_url "Bob@Example.com"). }
    rewrite Ha, (bool_decide_eq_true_2 _ Hl).
    by destruct (bool_decide (stem "Bob@Example.com" ∉ stop_words)). }
  assert (preprocess stem_lower ∅ "Bob@Example.com" = ["bob@example.com"]) as Hp
    by (vm_compute; reflexivity).
  split_and!.
  - exact Hm.
  - exact Ha.
  - exact Hl.
  - exact Hgen.
  - rewrite Hgen. destruct (bool_decide (stem "Bob@Example.com" ∉ stop_words)); [|done].
    by intros [= ->].
  - exact Hp.
  - rewrite Hp. discriminate.
  - vm_compute. reflexivity.
Qed.

(** What the code does with a preserved word.  For every input word that
    is, as a whole, a match of the email or URL pattern and passes the
    contains-a-letter and length > 2 filter, [preprocess] skips punctuation
    stripping, lowercasing and digit removal, but hands the word to the
    stemmer and the stopword check all the same: it returns the stemmed
    word unless that is a stopword. *)
Theorem preserved_token_reaches_stemmer
    (stem : string → string) (stop_words : gset string) (w : string) :
  Re.match_email w = Some (w, "") ∨ Re.match_url w = Some (w, "") →
  Str.existsb Chr.isalpha w = true →
  (2 < String.length w)%nat →
  preprocess stem stop_words w
  = if bool_decide (stem w ∉ stop_words) then [stem w] else [].
Proof.
  intros Hw Halpha Hlen.
  destruct (preserved_word_tokens w Hw) as [Hfind Hpres].
  unfold preprocess. rewrite Hfind. cbn [fmap list_fmap omap list_omap].
  unfold clean_token. rewrite Hpres.
  unfold process_token.
  assert (negb (Re.is_email w) && negb (Re.is_url w) = false) as ->.
  { by destruct (Re.is_email w), (Re.is_url w). }
  rewrite Halpha. rewrite (bool_decide_eq_true_2 _ Hlen).
  by destruct (bool_decide (stem w ∉ stop_words)).
Qed.

Lemma preserved_token_reaches_stemmer_witness :
  (Re.match_email "Bob@Example.com" = Some ("Bob@Example.com", "")
   ∨ Re.match_url "Bob@Example.com" = Some ("Bob@Example.com", ""))
  ∧ Str.existsb Chr.isalpha "Bob@Example.com" = true
  ∧ (2 < String.length "Bob@Example.com")%nat
  ∧ preprocess stem_lower {["the"]} "Bob@Example.com"
    = if bool_decide (stem_lower "Bob@Example.com" ∉ ({["the"]} : gset string))
      then [stem_lower "Bob@Example.com"] else [].
Proof.
  assert (Re.match_email "Bob@Example.com" = Some ("Bob@Example.com", "")
          ∨ Re.match_url "Bob@Example.com" = Some ("Bob@Example.com", "")) as H1.
  { left. vm_compute. reflexivity. }
  assert (Str.existsb Chr.isalpha "Bob@Example.com" = true) as H2
    by (vm_compute; reflexivity).
  assert (2 < String.length "Bob@Example.com")%nat as H3 by (vm_compute; lia).
  split_and!; [exact H1|exact H2|exact H3|].
  exact (preserved_token_reaches_stemmer stem_lower {["the"]} "Bob@Example.com" H1 H2 H3).
Defined.

Example preserved_url :
  preprocess stem_lower ∅ "https://Example.org/A?b=1" = ["https://example.org/a?b=1"]
  ∧ preprocess stem_id ∅ "https://Example.org/A?b=1" = ["https://Example.org/A?b=1"]
  ∧ preprocess stem_id ∅ "(see:https://Example.org/A?b=1)" = ["seehttpsexampleorgab"].
Proof. split_and!; vm_compute; reflexivity. Qed.

(** ** Integers in the index files: [int(str(n)) = n] *)

Lemma forallb_app (p : ascii → bool) (a b : string) :
  Str.forallb p (a +:+ b) = Str.forallb p a && Str.forallb p b.
Proof.
  induction a as [|x a IH]; [done|].
  rewrite string_app_cons. simpl. by rewrite IH, andb_assoc.
Qed.

Lemma forallb_impl (p q : ascii → bool) (s : string) :
  (∀ c, p c = true → q c = true) → Str.forallb p s = true → Str.forallb q s = true.
Proof.
  intros Hpq. induction s as [|c s IH]; [done|]. simpl.
  intros [Hc Hs]%andb_true_iff. by rewrite (Hpq c Hc), IH.
Qed.

Lemma forallb_rev_app (p : ascii → bool) (s acc : string) :
  Str.forallb p (String.rev_app s acc) = Str.forallb p s && Str.forallb p acc.
Proof.
  revert acc. induction s as [|c s IH]; intros acc; [done|].
  simpl. rewrite IH. simpl. by destruct (p c), (Str.forallb p s).
Qed.

Lemma rev_app_rev_app (s acc acc' : string) :
  String.rev_app (String.rev_app s acc) acc' = String.rev_app acc (s +:+ acc').
Proof.
  revert acc acc'. induction s as [|c s IH]; intros acc acc'; [done|].
  simpl. by rewrite IH.
Qed.

Lemma rev_involutive (s : string) : String.rev (String.rev s) = s.
Proof. unfold String.rev. rewrite rev_app_rev_app. simpl. apply string_app_nil_r. Qed.

Lemma lstrip_nonspace (s : string) :
  Str.forallb (λ c, negb (Chr.isspace c)) s = true → Str.lstrip s = s.
Proof.
  destruct s as [|c s]; [done|]. simpl.
  intros [Hc _]%andb_true_iff. apply negb_true_iff in Hc. by rewrite Hc.
Qed.

Lemma strip_nonspace (s : string) :
  Str.forallb (λ c, negb (Chr.isspace c)) s = true → Str.strip s = s.
Proof.
  intros Hs. unfold Str.strip. rewrite (lstrip_nonspace s Hs).
  rewrite lstrip_nonspace; [apply rev_involutive|].
  unfold String.rev. by rewrite forallb_rev_app, Hs.
Qed.

Lemma pretty_N_char_digit (n : N) :
  (n < 10)%N →
  Chr.isdigit (pretty_N_char n) = true
  ∧ Codec.digit_value (pretty_N_char n) = Z.of_N n.
Proof.
  intros Hn.
  assert (n = 0 ∨ n = 1 ∨ n = 2 ∨ n = 3 ∨ n = 4 ∨ n = 5 ∨ n = 6 ∨ n = 7 ∨ n = 8 ∨ n = 9)%N
    as Hcases by lia.
  repeat (destruct Hcases as [->|Hcases]; [by split|]). subst. by split.
Qed.

(** The digits printed for a positive number: they start with a digit, hold
    no other character than digits, and are read back as the number. *)
Lemma pretty_N_go_digits (x : N) :
  (0 < x)%N →
  ∀ s, (∃ d r, pretty_N_go x s = String d r ∧ Chr.isdigit d = true)
       ∧ (∀ p, (∀ c, Chr.isdigit c = true → p c = true) →
               Str.forallb p (pretty_N_go x s) = Str.forallb p s)
       ∧ ∃ k, 0 ≤ k
              ∧ ∀ b acc,
                  Codec.parse_digits b acc (pretty_N_go x s)
                  = Codec.parse_digits true (acc * 10 ^ k + Z.of_N x) s.
Proof.
  induction (N.lt_wf_0 x) as [x _ IH]. intros Hx s.
  rewrite pretty_N_go_step by done.
  destruct (pretty_N_char_digit (x `mod` 10)) as [Hd Hv].
  { by apply N.mod_lt. }
  destruct (N.eq_0_gt_0_cases (x `div` 10)) as [Hz|Hpos].
  - rewrite Hz, pretty_N_go_0. split_and!.
    + eauto.
    + intros p Hp. simpl. by rewrite (Hp _ Hd).
    + exists 1. split; [lia|]. intros b acc.
      cbn [Codec.parse_digits]. rewrite Hd, Hv.
      f_equal. rewrite N.mod_small; [lia|].
      apply N.div_small_iff in Hz; lia.
  - destruct (IH (x `div` 10)%N) with (s := String (pretty_N_char (x `mod` 10)) s)
      as (Hfirst & Hall & k & Hk & Hparse); [by apply N.div_lt|done|].
    split_and!.
    + done.
    + intros p Hp. rewrite (Hall p Hp). simpl. by rewrite (Hp _ Hd).
    + exists (k + 1). split; [lia|]. intros b acc. rewrite Hparse.
      cbn [Codec.parse_digits]. rewrite Hd, Hv. f_equal.
      rewrite Z.pow_add_r by lia.
      pose proof (N.div_mod x 10 ltac:(lia)) as Hdm.
      apply (f_equal Z.of_N) in Hdm.
      rewrite N2Z.inj_add, N2Z.inj_mul in Hdm. lia.
Qed.

Lemma digit_is_nonspace (c : ascii) :
  Chr.isdigit c || Ascii.eqb c "-" = true → negb (Chr.isspace c) = true.
Proof. destruct c as [[] [] [] [] [] [] [] []]; vm_compute; congruence. Qed.

Lemma digit_is_no_colon (c : ascii) :
  Chr.isdigit c || Ascii.eqb c "-" = true → negb (Ascii.eqb c ":") = true.
Proof. destruct c as [[] [] [] [] [] [] [] []]; vm_compute; congruence. Qed.

(** [str(n)] is an optional minus sign and digits; it is never empty. *)
Lemma str_of_int_shape (n : Z) :
  Str.forallb (λ c, Chr.isdigit c || Ascii.eqb c "-") (Codec.str_of_int n) = true
  ∧ Str.is_empty (Codec.str_of_int n) = false.
Proof.
  unfold Codec.str_of_int, pretty, pretty_Z. destruct n as [|x|x].
  - by split.
  - unfold pretty, pretty_positive, pretty, pretty_N.
    rewrite decide_False by done.
    destruct (pretty_N_go_digits (N.pos x)) with (s := "")
      as ((d & r & Hdr & _) & Hall & _); [lia|].
    split.
    + rewrite Hall; [done|]. by intros c ->.
    + by rewrite Hdr.
  - unfold pretty, pretty_positive, pretty, pretty_N.
    rewrite decide_False by done.
    destruct (pretty_N_go_digits (N.pos x)) with (s := "")
      as (_ & Hall & _); [lia|].
    split; [|done].
    change ("-" +:+ pretty_N_go (N.pos x) "") with (String "-" (pretty_N_go (N.pos x) "")).
    cbn [Str.forallb]. rewrite Hall; [done|]. by intros c ->.
Qed.

Lemma str_of_int_word (n : Z) : is_word (Codec.str_of_int n) = true.
Proof.
  destruct (str_of_int_shape n) as [Hall Hne]. unfold is_word.
  rewrite Hne. simpl. eapply forallb_impl; [|exact Hall]. apply digit_is_nonspace.
Qed.

Lemma int_space_isspace (c : ascii) : Codec.int_space c = true → Chr.isspace c = true.
Proof. destruct c as [[] [] [] [] [] [] [] []]; vm_compute; congruence. Qed.

Lemma int_lstrip_nonspace (s : string) :
  Str.forallb (λ c, negb (Chr.isspace c)) s = true → Codec.int_lstrip s = s.
Proof.
  destruct s as [|c s]; [done|]. cbn [Str.forallb Codec.int_lstrip].
  intros [Hc _]%andb_true_iff. apply negb_true_iff in Hc.
  destruct (Codec.int_space c) eqn:Hi; [|done].
  apply int_space_isspace in Hi. congruence.
Qed.

Lemma int_strip_nonspace (s : string) :
  Str.forallb (λ c, negb (Chr.isspace c)) s = true → Codec.int_strip s = s.
Proof.
  intros Hs. unfold Codec.int_strip. rewrite (int_lstrip_nonspace s Hs).
  rewrite int_lstrip_nonspace; [apply rev_involutive|].
  unfold String.rev. by rewrite forallb_rev_app, Hs.
Qed.

(** Reading back a printed integer. *)
Lemma int_of_str_of_int (n : Z) : Codec.int_of_str (Codec.str_of_int n) = ok n.
Proof.
  unfold Codec.int_of_str. rewrite int_strip_nonspace.
  2:{ destruct (str_of_int_shape n) as [Hall _].
      eapply forallb_impl; [|exact Hall]. apply digit_is_nonspace. }
  unfold Codec.str_of_int, pretty, pretty_Z. destruct n as [|x|x].
  - reflexivity.
  - unfold pretty, pretty_positive, pretty, pretty_N.
    rewrite decide_False by done.
    destruct (pretty_N_go_digits (N.pos x)) with (s := "")
      as ((d & r & Hdr & Hd) & _ & k & _ & Hparse); [lia|].
    specialize (Hparse false 0). rewrite Hdr in Hparse |- *.
    assert (match String d r with
            | String "-" r0 => (true, r0)
            | String "+" r0 => (false, r0)
            | _ => (false, String d r)
            end = (false, String d r)) as ->.
    { destruct d as [[] [] [] [] [] [] [] []]; try reflexivity; discriminate Hd. }
    rewrite Hparse. simpl; f_equal; lia.
  - unfold pretty, pretty_positive, pretty, pretty_N.
    rewrite decide_False by done.
    destruct (pretty_N_go_digits (N.pos x)) with (s := "")
      as (_ & _ & k & _ & Hparse); [lia|].
    specialize (Hparse false 0).
    change ("-" +:+ pretty_N_go (N.pos x) "") with (String "-" (pretty_N_go (N.pos x) "")).
    cbv iota beta. rewrite Hparse. simpl; f_equal; lia.
Qed.

Lemma map_exn_int_of_str (ids : list Z) :
  Codec.map_exn Codec.int_of_str (Codec.str_of_int <$> ids) = ok ids.
Proof.
  induction ids as [|n ids IH]; [done|].
  cbn [fmap list_fmap Codec.map_exn]. rewrite int_of_str_of_int. cbn [bind].
  fold (fmap (M := list) Codec.str_of_int ids). by rewrite IH.
Qed.

(** ** The inverted index file is read back as written *)

Lemma rev_app_app (a b acc : string) :
  String.rev_app (a +:+ b) acc = String.rev_app b (String.rev_app a acc).
Proof.
  revert acc. induction a as [|x a IH]; intros acc; [done|].
  rewrite string_app_cons. simpl. by rewrite IH.
Qed.

Lemma rev_app_acc (s acc : string) :
  String.rev_app s acc = String.rev s +:+ acc.
Proof.
  unfold String.rev. revert acc. induction s as [|x s IH]; intros acc; [done|].
  simpl. rewrite IH, (IH (String x "")). by rewrite string_app_assoc.
Qed.

Lemma rev_app_distr (a b : string) :
  String.rev (a +:+ b) = String.rev b +:+ String.rev a.
Proof. unfold String.rev at 1. by rewrite rev_app_app, rev_app_acc. Qed.

Lemma starts_nonspace_word (w : string) : is_word w = true → starts_nonspace w.
Proof.
  unfold is_word. intros [Hne Hw]%andb_true_iff.
  destruct w as [|c r]; [done|]. simpl in Hw.
  apply andb_true_iff in Hw as [Hc%negb_true_iff _]. by exists c, r.
Qed.

Lemma starts_nonspace_app (a b : string) : starts_nonspace a → starts_nonspace (a +:+ b).
Proof. intros (c & r & -> & Hc). exists c, (r +:+ b). by rewrite string_app_cons. Qed.

Lemma ends_nonspace_app (a b : string) : ends_nonspace b → ends_nonspace (a +:+ b).
Proof.
  unfold ends_nonspace. intros Hb. rewrite rev_app_distr.
  by apply starts_nonspace_app.
Qed.

Lemma ends_nonspace_word (w : string) : is_word w = true → ends_nonspace w.
Proof.
  unfold is_word. intros [Hne Hw]%andb_true_iff.
  apply starts_nonspace_word. unfold is_word.
  apply andb_true_iff. split.
  - destruct (String.rev w) as [|c r] eqn:Hr; [|done].
    apply (f_equal String.rev) in Hr. rewrite rev_involutive in Hr. by subst.
  - unfold String.rev. by rewrite forallb_rev_app, Hw.
Qed.

Lemma ends_nonspace_join (ws : list string) :
  Forall (λ w, is_word w = true) ws → ws ≠ [] → ends_nonspace (Str.join " " ws).
Proof.
  induction 1 as [|w ws Hw Hws IH]; [done|]. intros _.
  destruct ws as [|w' ws].
  - by apply ends_nonspace_word.
  - change (Str.join " " (w :: w' :: ws)) with (w +:+ " " +:+ Str.join " " (w' :: ws)).
    apply ends_nonspace_app, ends_nonspace_app. by apply IH.
Qed.

(** Stripping a written line gives back its body. *)
Lemma strip_line (body : string) :
  starts_nonspace body → ends_nonspace body →
  Str.strip (body +:+ String "010" "") = body.
Proof.
  intros (x & rest & -> & Hx) (c & r & Hr & Hc). unfold Str.strip.
  assert (Str.lstrip (String x rest +:+ String "010" "")
          = String x rest +:+ String "010" "") as ->.
  { rewrite string_app_cons. cbn [Str.lstrip]. by rewrite Hx. }
  rewrite rev_app_distr.
  change (String.rev (String "010" "")) with (String "010" "").
  rewrite string_app_cons, string_app_nil_l. cbn [Str.lstrip].
  replace (Chr.isspace "010") with true by reflexivity.
  rewrite Hr. cbn [Str.lstrip]. rewrite Hc, <- Hr. apply rev_involutive.
Qed.

Lemma existsb_app (p : ascii → bool) (a b : string) :
  Str.existsb p (a +:+ b) = Str.existsb p a || Str.existsb p b.
Proof.
  induction a as [|x a IH]; [done|].
  rewrite string_app_cons. simpl. by rewrite IH, orb_assoc.
Qed.

Lemma no_char_join (c : ascii) (sep : string) (ws : list string) :
  no_char c sep = true → Forall (λ w, no_char c w = true) ws →
  no_char c (Str.join sep ws) = true.
Proof.
  intros Hsep. induction 1 as [|w ws Hw Hws IH]; [done|].
  destruct ws as [|w' ws]; [done|].
  change (Str.join sep (w :: w' :: ws)) with (w +:+ sep +:+ Str.join sep (w' :: ws)).
  unfold no_char in *. by rewrite !forallb_app, Hw, Hsep, IH.
Qed.

Lemma str_of_int_no_char (c : ascii) (n : Z) :
  Chr.isdigit c || Ascii.eqb c "-" = false → no_char c (Codec.str_of_int n) = true.
Proof.
  intros Hc. destruct (str_of_int_shape n) as [Hall _]. unfold no_char.
  eapply forallb_impl; [|exact Hall]. intros x Hx. apply negb_true_iff.
  destruct (Ascii.eqb_spec x c) as [->|]; [congruence|done].
Qed.

Lemma split_on_go_field (sep : ascii) (cur w s : string) :
  no_char sep w = true →
  Str.split_on_go sep cur (w +:+ s) = Str.split_on_go sep (cur +:+ w) s.
Proof.
  revert cur. induction w as [|c w IH]; intros cur Hw.
  - by rewrite string_app_nil_l, string_app_nil_r.
  - unfold no_char in Hw. cbn [Str.forallb] in Hw.
    apply andb_true_iff in Hw as [Hc%negb_true_iff Hw].
    rewrite string_app_cons. cbn [Str.split_on_go]. rewrite Hc, IH by done.
    by rewrite string_app_assoc.
Qed.

Lemma split_on_two_fields (sep : ascii) (a b : string) :
  no_char sep a = true → no_char sep b = true →
  Str.split_on sep (a +:+ String sep b) = [a; b].
Proof.
  intros Ha Hb. unfold Str.split_on.
  rewrite split_on_go_field, string_app_nil_l by done.
  cbn [Str.split_on_go]. rewrite Ascii.eqb_refl.
  rewrite <- (string_app_nil_r b) at 1.
  rewrite split_on_go_field, string_app_nil_l by done. done.
Qed.

Lemma universal_newlines_id (s : string) :
  no_char "013" s = true → Codec.universal_newlines s = s.
Proof.
  unfold no_char. induction s as [|c s IH]; [done|].
  cbn [Str.forallb]. intros [Hc%negb_true_iff Hs]%andb_true_iff.
  cbn [Codec.universal_newlines]. rewrite Hc. by rewrite IH.
Qed.

Lemma lines_go_line (cur body rest : string) :
  no_char "010" body = true →
  Codec.lines_go cur (body +:+ String "010" rest)
  = (cur +:+ body +:+ String "010" "") :: Codec.lines_go "" rest.
Proof.
  revert cur. induction body as [|c body IH]; intros cur Hb.
  - rewrite !string_app_nil_l. cbn [Codec.lines_go].
    by rewrite Ascii.eqb_refl.
  - unfold no_char in Hb. cbn [Str.forallb] in Hb.
    apply andb_true_iff in Hb as [Hc%negb_true_iff Hb].
    rewrite string_app_cons. cbn [Codec.lines_go]. rewrite Hc, IH by done.
    by rewrite !string_app_assoc.
Qed.

Lemma nonspace_no_char (c : ascii) (w : string) :
  Chr.isspace c = true →
  Str.forallb (λ x, negb (Chr.isspace x)) w = true → no_char c w = true.
Proof.
  intros Hc. unfold no_char. apply forallb_impl. intros x Hx.
  apply negb_true_iff. destruct (Ascii.eqb_spec x c) as [->|]; [|done].
  by rewrite Hc in Hx.
Qed.

Section InvertedRoundTrip.

Implicit Types (term : string) (doc_ids : list Z) (index : list (string * list Z)).

Local Abbreviation line_body := Codec.line_body.

Lemma inverted_line_body term doc_ids :
  Codec.inverted_line (term, doc_ids) = line_body term doc_ids +:+ String "010" "".
Proof. reflexivity. Qed.

Lemma ids_words doc_ids :
  Forall (λ w, is_word w = true) (Codec.str_of_int <$> doc_ids).
Proof. apply Forall_fmap, Forall_forall. intros n _. apply str_of_int_word. Qed.

Lemma ids_no_char (c : ascii) doc_ids :
  Chr.isdigit c || Ascii.eqb c "-" = false → Ascii.eqb " " c = false →
  no_char c (Str.join " " (Codec.str_of_int <$> doc_ids)) = true.
Proof.
  intros Hc Hsp. apply no_char_join.
  - unfold no_char. cbn [Str.forallb]. by rewrite Hsp.
  - apply Forall_fmap, Forall_forall. intros n _. by apply str_of_int_no_char.
Qed.

Lemma line_body_no_char (c : ascii) term doc_ids :
  Chr.isspace c = true → Ascii.eqb " " c = false → term_ok term = true →
  no_char c (line_body term doc_ids) = true.
Proof.
  intros Hc Hsp [[_ Hw]%andb_true_iff _]%andb_true_iff.
  unfold Codec.line_body, no_char. rewrite !forallb_app.
  fold (no_char c term). rewrite (nonspace_no_char c term Hc Hw).
  fold (no_char c (Str.join " " (Codec.str_of_int <$> doc_ids))).
  rewrite ids_no_char; [|by destruct c as [[] [] [] [] [] [] [] []]|done].
  by destruct c as [[] [] [] [] [] [] [] []].
Qed.

Lemma load_inverted_line_saved index term doc_ids :
  term_ok term = true →
  Codec.load_inverted_line index (Codec.inverted_line (term, doc_ids))
  = ok (Dict.set term doc_ids index).
Proof.
  intros Hterm. pose proof Hterm as [Hword Hcolon]%andb_true_iff.
  unfold Codec.load_inverted_line. rewrite inverted_line_body, strip_line.
  - unfold Codec.line_body.
    change (":" +:+ Str.join " " (Codec.str_of_int <$> doc_ids))
      with (String ":" (Str.join " " (Codec.str_of_int <$> doc_ids))).
    rewrite split_on_two_fields; [|done|by apply ids_no_char].
    rewrite split_join by apply ids_words.
    by rewrite map_exn_int_of_str.
  - unfold Codec.line_body. by apply starts_nonspace_app, starts_nonspace_word.
  - unfold Codec.line_body. apply ends_nonspace_app.
    destruct doc_ids as [|n doc_ids].
    + by apply ends_nonspace_word.
    + apply ends_nonspace_app, ends_nonspace_join; [apply ids_words|done].
Qed.

Lemma file_lines_saved index :
  Forall (λ entry, term_ok entry.1 = true) index →
  Codec.file_lines (Codec.save_inverted_index index) = Codec.inverted_line <$> index.
Proof.
  intros Hok. unfold Codec.file_lines, Codec.save_inverted_index.
  rewrite universal_newlines_id.
  - induction Hok as [|[term doc_ids] index Hterm _ IH]; [done|].
    cbn [fmap list_fmap Codec.concat_str foldr].
    rewrite inverted_line_body, string_app_assoc, string_app_cons, string_app_nil_l.
    rewrite lines_go_line, string_app_nil_l by (by apply line_body_no_char).
    f_equal. exact IH.
  - induction Hok as [|[term doc_ids] index Hterm _ IH]; [done|].
    cbn [fmap list_fmap Codec.concat_str foldr].
    rewrite inverted_line_body. unfold no_char in *. rewrite !forallb_app.
    fold (no_char "013" (line_body term doc_ids)).
    rewrite line_body_no_char by done. simpl. exact IH.
Qed.

Lemma dict_set_fresh {V} (k : string) (v : V) (d : list (string * V)) :
  k ∉ d.*1 → Dict.set k v d = d ++ [(k, v)].
Proof.
  induction d as [|[k0 v0] d IH]; [done|]. csimpl.
  intros [Hne Hk]%not_elem_of_cons. rewrite decide_False by done.
  by rewrite IH.
Qed.

Lemma load_inverted_lines index acc :
  Forall (λ entry, term_ok entry.1 = true) index →
  NoDup (acc ++ index).*1 →
  Codec.fold_exn Codec.load_inverted_line acc (Codec.inverted_line <$> index)
  = ok (acc ++ index).
Proof.
  intros Hok. revert acc.
  induction Hok as [|[term doc_ids] index Hterm _ IH]; intros acc Hnd.
  - by rewrite app_nil_r.
  - cbn [fmap list_fmap Codec.fold_exn].
    rewrite load_inverted_line_saved by done. cbn [bind].
    rewrite dict_set_fresh.
    + fold (fmap (M := list) Codec.inverted_line index).
      rewrite IH; rewrite <- app_assoc; done.
    + rewrite fmap_app in Hnd. apply NoDup_app in Hnd as (_ & Hnd & _).
      intros Hin. apply (Hnd term Hin). csimpl. apply list_elem_of_here.
Qed.

(** Round trip of the inverted index: an index whose terms are distinct
    words without a colon is read back as it was saved. *)
Theorem inverted_round_trip index :
  NoDup index.*1 →
  Forall (λ entry, term_ok entry.1 = true) index →
  Codec.load_inverted_index (Codec.save_inverted_index index) = ok index.
Proof.
  intros Hnd Hok. unfold Codec.load_inverted_index.
  rewrite file_lines_saved by done. by rewrite (load_inverted_lines index []).
Qed.

End InvertedRoundTrip.

(** ** The positional index file is read back with string keys *)

Lemma split_go_spaces (cur ws : string) :
  Str.forallb Chr.isspace ws = true →
  Str.split_go cur ws = if Str.is_empty cur then [] else [cur].
Proof.
  revert cur. induction ws as [|c ws IH]; intros cur Hws; [done|].
  cbn [Str.forallb] in Hws. apply andb_true_iff in Hws as [Hc Hws].
  cbn [Str.split_go]. rewrite Hc, (IH "") by done. by destruct cur.
Qed.

Lemma split_go_trailing (cur a ws : string) :
  Str.forallb Chr.isspace ws = true →
  Str.split_go cur (a +:+ ws) = Str.split_go cur a.
Proof.
  intros Hws. revert cur. induction a as [|c a IH]; intros cur.
  - rewrite string_app_nil_l. by rewrite split_go_spaces.
  - rewrite string_app_cons. cbn [Str.split_go]. by rewrite !IH.
Qed.

Lemma lstrip_decompose (s : string) :
  ∃ ws, s = ws +:+ Str.lstrip s ∧ Str.forallb Chr.isspace ws = true.
Proof.
  induction s as [|c s (ws & Hs & Hws)]; [by exists ""|].
  cbn [Str.lstrip]. destruct (Chr.isspace c) eqn:Hc.
  - exists (String c ws). rewrite string_app_cons, <- Hs. split; [done|].
    simpl. by rewrite Hc.
  - by exists "".
Qed.

Lemma split_lstrip (s : string) : Str.split (Str.lstrip s) = Str.split s.
Proof.
  unfold Str.split. induction s as [|c s IH]; [done|].
  cbn [Str.lstrip Str.split_go]. destruct (Chr.isspace c) eqn:Hc; [done|].
  cbn [Str.split_go]. by rewrite Hc.
Qed.

(** Splitting does not see what [strip] removes. *)
Lemma split_strip (s : string) : Str.split (Str.strip s) = Str.split s.
Proof.
  unfold Str.strip. rewrite <- (split_lstrip s).
  destruct (lstrip_decompose (String.rev (Str.lstrip s))) as (ws & Hrev & Hws).
  apply (f_equal String.rev) in Hrev. rewrite rev_involutive, rev_app_distr in Hrev.
  rewrite Hrev at 2. unfold Str.split. rewrite split_go_trailing; [done|].
  unfold String.rev. by rewrite forallb_rev_app, Hws.
Qed.

(** Words written each behind a blank are split into those words. *)
Lemma split_go_spaced (cur : string) (words : list string) :
  is_word cur = true → Forall (λ w, is_word w = true) words →
  Str.split_go cur (Codec.concat_str ((λ w, " " +:+ w) <$> words)) = cur :: words.
Proof.
  intros Hcur Hwords. revert cur Hcur.
  induction Hwords as [|w words Hw _ IH]; intros cur Hcur.
  - simpl. by destruct cur.
  - cbn [fmap list_fmap Codec.concat_str foldr].
    rewrite string_app_assoc, string_app_cons, string_app_nil_l.
    cbn [Str.split_go]. replace (Chr.isspace " ") with true by reflexivity.
    assert (Str.is_empty cur = false) as -> by (by destruct cur).
    f_equal. pose proof Hw as [_ Hns]%andb_true_iff.
    rewrite split_go_word, string_app_nil_l by done. by apply IH.
Qed.

Lemma split_spaced (words : list string) :
  Forall (λ w, is_word w = true) words →
  Str.split (Codec.concat_str ((λ w, " " +:+ w) <$> words)) = words.
Proof.
  intros Hwords. unfold Str.split. destruct Hwords as [|w words Hw Hwords]; [done|].
  cbn [fmap list_fmap Codec.concat_str foldr].
  rewrite string_app_assoc, string_app_cons, string_app_nil_l.
  cbn [Str.split_go]. replace (Chr.isspace " ") with true by reflexivity.
  cbn [Str.is_empty]. pose proof Hw as [_ Hns]%andb_true_iff.
  rewrite split_go_word, string_app_nil_l by done. by apply split_go_spaced.
Qed.

Lemma split_on_join (sep : ascii) (fields : list string) :
  Forall (λ w, no_char sep w = true) fields → fields ≠ [] →
  Str.split_on sep (Str.join (String sep "") fields) = fields.
Proof.
  unfold Str.split_on. induction 1 as [|w fields Hw Hfields IH]; [done|]. intros _.
  destruct fields as [|w' fields].
  - cbn [Str.join]. rewrite <- (string_app_nil_r w) at 1.
    by rewrite split_on_go_field, string_app_nil_l.
  - change (Str.join (String sep "") (w :: w' :: fields))
      with (w +:+ String sep "" +:+ Str.join (String sep "") (w' :: fields)).
    rewrite split_on_go_field, string_app_nil_l by done.
    rewrite string_app_cons, string_app_nil_l. cbn [Str.split_on_go].
    rewrite Ascii.eqb_refl. f_equal. by apply IH.
Qed.

Lemma slice_brackets (a b : ascii) (s : string) :
  Str.slice_1_m1 (String a (s +:+ String b "")) = s.
Proof.
  cbn [Str.slice_1_m1]. rewrite rev_app_distr.
  change (String.rev (String b "")) with (String b "").
  rewrite string_app_cons, string_app_nil_l. apply rev_involutive.
Qed.

Section PositionalRoundTrip.

Implicit Types (term : string) (positions : list Z) (postings : list (Z * list Z)).
Implicit Types (index : list (string * list (Z * list Z))).

Lemma positions_no_char (c : ascii) positions :
  Chr.isdigit c || Ascii.eqb c "-" = false → Ascii.eqb "," c = false →
  no_char c (Str.join "," (Codec.str_of_int <$> positions)) = true.
Proof.
  intros Hc Hcomma. apply no_char_join.
  - unfold no_char. cbn [Str.forallb]. by rewrite Hcomma.
  - apply Forall_fmap, Forall_forall. intros n _. by apply str_of_int_no_char.
Qed.

Lemma bracketed_no_char (c : ascii) positions :
  Chr.isdigit c || Ascii.eqb c "-" = false → Ascii.eqb "," c = false →
  Ascii.eqb "[" c = false → Ascii.eqb "]" c = false →
  no_char c (bracketed positions) = true.
Proof.
  intros Hc Hcomma Hl Hr. unfold bracketed, no_char. rewrite !forallb_app.
  fold (no_char c (Str.join "," (Codec.str_of_int <$> positions))).
  rewrite positions_no_char by done. cbn [Str.forallb]. by rewrite Hl, Hr.
Qed.

Lemma forallb_join (p : ascii → bool) (sep : string) (ws : list string) :
  Str.forallb p sep = true → Forall (λ w, Str.forallb p w = true) ws →
  Str.forallb p (Str.join sep ws) = true.
Proof.
  intros Hsep. induction 1 as [|w ws Hw Hws IH]; [done|].
  destruct ws as [|w' ws]; [done|].
  change (Str.join sep (w :: w' :: ws)) with (w +:+ sep +:+ Str.join sep (w' :: ws)).
  by rewrite !forallb_app, Hw, Hsep, IH.
Qed.

Lemma bracketed_word positions : is_word (bracketed positions) = true.
Proof.
  unfold is_word. apply andb_true_iff. split; [done|].
  unfold bracketed. rewrite !forallb_app. rewrite forallb_join; [done|done|].
  apply Forall_fmap, Forall_forall. intros n _.
  by pose proof (str_of_int_word n) as [_ ?]%andb_true_iff.
Qed.

Lemma posting_words_word postings :
  Forall (λ w, is_word w = true) (posting_words postings).
Proof.
  unfold posting_words. induction postings as [|[d positions] postings IH]; [done|].
  cbn [flat_map app]. repeat constructor; [apply str_of_int_word|apply bracketed_word|done].
Qed.

Lemma items_as_words postings :
  Codec.concat_str (Codec.posting_item <$> postings)
  = Codec.concat_str ((λ w, " " +:+ w) <$> posting_words postings).
Proof.
  unfold posting_words. induction postings as [|[d positions] postings IH]; [done|].
  cbn [fmap list_fmap flat_map app Codec.concat_str foldr].
  fold (Codec.concat_str (Codec.posting_item <$> postings)). rewrite IH.
  unfold Codec.posting_item, bracketed. cbn [fst snd].
  by rewrite !string_app_assoc.
Qed.

Lemma posting_words_no_char (c : ascii) postings :
  foreign c → Forall (λ w, no_char c w = true) (posting_words postings).
Proof.
  intros (Hc & Hsp & Hcomma & Hl & Hr). unfold posting_words.
  induction postings as [|[d positions] postings IH]; [done|].
  cbn [flat_map app].
  repeat constructor; [by apply str_of_int_no_char|by apply bracketed_no_char|done].
Qed.

Lemma items_no_char (c : ascii) postings :
  foreign c → no_char c (Codec.concat_str (Codec.posting_item <$> postings)) = true.
Proof.
  intros Hc. rewrite items_as_words.
  pose proof (posting_words_no_char c postings Hc) as Hwords.
  destruct Hc as (_ & Hsp & _).
  induction Hwords as [|w words Hw _ IH]; [done|].
  cbn [fmap list_fmap Codec.concat_str foldr]. unfold no_char in *.
  rewrite !forallb_app, Hw. cbn [Str.forallb]. by rewrite Hsp.
Qed.

Lemma items_end postings :
  postings ≠ [] → ends_nonspace (Codec.concat_str (Codec.posting_item <$> postings)).
Proof.
  induction postings as [|[d positions] postings IH]; [done|]. intros _.
  cbn [fmap list_fmap Codec.concat_str foldr].
  destruct postings as [|posting postings].
  - cbn [fmap list_fmap foldr]. rewrite string_app_nil_r.
    unfold Codec.posting_item. do 4 apply ends_nonspace_app.
    by apply ends_nonspace_word.
  - by apply ends_nonspace_app, IH.
Qed.

Lemma stringify_keys_fst postings :
  (stringify_postings postings).*1 = Codec.str_of_int <$> postings.*1.
Proof.
  unfold stringify_postings. induction postings as [|[d positions] postings IH]; [done|].
  csimpl. by f_equal.
Qed.

Lemma slice_bracketed positions :
  Str.slice_1_m1 (bracketed positions) = Str.join "," (Codec.str_of_int <$> positions).
Proof. apply slice_brackets. Qed.

Lemma load_postings_saved postings acc :
  Forall (λ posting, posting.2 ≠ []) postings →
  NoDup (acc ++ stringify_postings postings).*1 →
  Codec.load_postings acc (posting_words postings)
  = ok (acc ++ stringify_postings postings).
Proof.
  intros Hne. revert acc.
  induction Hne as [|[d positions] postings Hpos _ IH]; intros acc Hnd.
  - by rewrite app_nil_r.
  - unfold posting_words. cbn [flat_map app Codec.load_postings fst snd].
    fold (posting_words postings).
    rewrite !slice_bracketed.
    assert (Str.is_empty (Str.join "," (Codec.str_of_int <$> positions)) = false) as ->.
    { destruct positions as [|n [|n' positions]]; [done|..].
      - apply str_of_int_shape.
      - change (Str.join "," (Codec.str_of_int <$> n :: n' :: positions))
          with (Codec.str_of_int n +:+ ","
                +:+ Str.join "," (Codec.str_of_int <$> n' :: positions)).
        rewrite is_empty_app. by destruct (str_of_int_shape n) as [_ ->]. }
    rewrite split_on_join.
    + rewrite map_exn_int_of_str. cbn [bind]. rewrite dict_set_fresh.
      * unfold stringify_postings in *. cbn [map] in *. cbn [fst snd] in *.
        rewrite IH; rewrite <- app_assoc; done.
      * rewrite fmap_app in Hnd. apply NoDup_app in Hnd as (_ & Hnd & _).
        intros Hin. apply (Hnd _ Hin). unfold stringify_postings. cbn [map].
        csimpl. apply list_elem_of_here.
    + apply Forall_fmap, Forall_forall. intros n _. by apply str_of_int_no_char.
    + by destruct positions.
Qed.

Lemma colon_foreign : foreign ":".
Proof. by repeat split. Qed.

Lemma newline_foreign : foreign "010".
Proof. by repeat split. Qed.

Lemma return_foreign : foreign "013".
Proof. by repeat split. Qed.

Lemma positional_body_no_char (c : ascii) term postings :
  Chr.isspace c = true → foreign c → term_ok term = true →
  no_char c (Codec.positional_body term postings) = true.
Proof.
  intros Hc Hfor [[_ Hw]%andb_true_iff _]%andb_true_iff.
  unfold Codec.positional_body, no_char. rewrite !forallb_app.
  fold (no_char c term). rewrite (nonspace_no_char c term Hc Hw).
  fold (no_char c (Codec.concat_str (Codec.posting_item <$> postings))).
  rewrite items_no_char by done.
  by destruct c as [[] [] [] [] [] [] [] []].
Qed.

Lemma load_positional_line_saved (loaded : list (string * list (string * list Z)))
    term postings :
  term_ok term = true →
  NoDup postings.*1 →
  Forall (λ posting, posting.2 ≠ []) postings →
  Codec.load_positional_line loaded (Codec.positional_line (term, postings))
  = ok (Dict.set term (stringify_postings postings) loaded).
Proof.
  intros Hterm Hnd Hne. pose proof Hterm as [Hword Hcolon]%andb_true_iff.
  unfold Codec.load_positional_line, Codec.positional_line. cbn [fst snd].
  rewrite strip_line.
  - unfold Codec.positional_body.
    change (":" +:+ Codec.concat_str (Codec.posting_item <$> postings))
      with (String ":" (Codec.concat_str (Codec.posting_item <$> postings))).
    rewrite split_on_two_fields; [|done|apply items_no_char, colon_foreign].
    cbn [Str.join]. rewrite split_strip, items_as_words.
    rewrite split_spaced by apply posting_words_word.
    rewrite (load_postings_saved postings []); [done|done|].
    rewrite app_nil_l, stringify_keys_fst.
    apply (NoDup_fmap_2 _), Hnd.
  - unfold Codec.positional_body. by apply starts_nonspace_app, starts_nonspace_word.
  - unfold Codec.positional_body. apply ends_nonspace_app.
    destruct postings as [|posting postings].
    + by apply ends_nonspace_word.
    + by apply ends_nonspace_app, items_end.
Qed.

Lemma positional_file_lines index :
  Forall (λ entry, term_ok entry.1 = true) index →
  Codec.file_lines (Codec.save_positional_index index) = Codec.positional_line <$> index.
Proof.
  intros Hok. unfold Codec.file_lines, Codec.save_positional_index.
  rewrite universal_newlines_id.
  - induction Hok as [|[term postings] index Hterm _ IH]; [done|].
    cbn [fmap list_fmap Codec.concat_str foldr].
    unfold Codec.positional_line at 1. cbn [fst snd].
    rewrite string_app_assoc, string_app_cons, string_app_nil_l.
    rewrite lines_go_line, string_app_nil_l
      by (by apply positional_body_no_char; [|apply newline_foreign|]).
    f_equal. exact IH.
  - induction Hok as [|[term postings] index Hterm _ IH]; [done|].
    cbn [fmap list_fmap Codec.concat_str foldr].
    unfold Codec.positional_line at 1. cbn [fst snd].
    unfold no_char in *. rewrite !forallb_app.
    fold (no_char "013" (Codec.positional_body term postings)).
    rewrite positional_body_no_char; [|done|apply return_foreign|done].
    simpl. exact IH.
Qed.

Lemma load_positional_lines index (loaded : list (string * list (string * list Z))) :
  Forall (λ entry, term_ok entry.1 = true ∧ NoDup entry.2.*1
                   ∧ Forall (λ posting, posting.2 ≠ []) entry.2) index →
  NoDup (loaded ++ stringify_keys index).*1 →
  Codec.fold_exn Codec.load_positional_line loaded (Codec.positional_line <$> index)
  = ok (loaded ++ stringify_keys index).
Proof.
  intros Hok. revert loaded.
  induction Hok as [|[term postings] index (Hterm & Hnd & Hne) _ IH]; intros loaded Hdist.
  - by rewrite app_nil_r.
  - cbn [fmap list_fmap Codec.fold_exn]. cbn [fst snd] in *.
    rewrite load_positional_line_saved by done. cbn [bind].
    rewrite dict_set_fresh.
    + unfold stringify_keys in *. cbn [map fst snd] in *.
      rewrite IH; rewrite <- app_assoc; done.
    + rewrite fmap_app in Hdist. apply NoDup_app in Hdist as (_ & Hdist & _).
      intros Hin. apply (Hdist term Hin). unfold stringify_keys. cbn [map].
      csimpl. apply list_elem_of_here.
Qed.

Lemma stringify_keys_terms index : (stringify_keys index).*1 = index.*1.
Proof.
  unfold stringify_keys. induction index as [|[term postings] index IH]; [done|].
  csimpl. by f_equal.
Qed.

(** What the codec does to a positional index whose terms are distinct
    words without a colon and whose position lists are not empty: the file
    is read back as the same index, but with every document id turned into
    its decimal numeral. *)
Theorem positional_round_trip_stringifies index :
  NoDup index.*1 →
  Forall (λ entry, term_ok entry.1 = true ∧ NoDup entry.2.*1
                   ∧ Forall (λ posting, posting.2 ≠ []) entry.2) index →
  Codec.load_positional_index (Codec.save_positional_index index)
  = ok (stringify_keys index).
Proof.
  intros Hnd Hok. unfold Codec.load_positional_index.
  rewrite positional_file_lines.
  - rewrite (load_positional_lines index []); [done|done|].
    by rewrite app_nil_l, stringify_keys_terms.
  - eapply Forall_impl; [exact Hok|]. by intros entry (? & _).
Qed.

End PositionalRoundTrip.

(** ** Index codec *)

(** An index whose document ids are strings is never equal to one that has
    a posting under an integer id. *)
Lemma str_keyed_ne_int_keyed
    (loaded : list (string * list (string * list Z)))
    (built : list (string * list (Z * list Z))) t postings d ps :
  (t, postings) ∈ built → (d, ps) ∈ postings →
  str_keyed loaded ≠ int_keyed built.
Proof.
  intros Ht Hd Heq.
  assert ((t, (λ posting : Z * list Z, (IntKey posting.1, posting.2)) <$> postings)
          ∈ int_keyed built) as Hin.
  { unfold int_keyed, tag_keys. apply list_elem_of_fmap. by exists (t, postings). }
  rewrite <- Heq in Hin. unfold str_keyed, tag_keys in Hin.
  apply list_elem_of_fmap in Hin as ([t' postings'] & Hpair & _).
  simpl in Hpair. injection Hpair as _ Hpostings.
  assert ((IntKey d, ps)
          ∈ (λ posting : Z * list Z, (IntKey posting.1, posting.2)) <$> postings) as Hin.
  { apply list_elem_of_fmap. by exists (d, ps). }
  rewrite Hpostings in Hin.
  apply list_elem_of_fmap in Hin as ([s ps'] & ? & _). simplify_eq.
Qed.

(** *** The indexes the builder returns are well formed *)

Lemma dict_reorder_keys {K V} `{EqDecision K} (ks : list K) (d : list (K * V)) :
  (Dict.reorder ks d).*1 = filter (λ k, is_Some (Dict.get k d)) ks.
Proof.
  induction ks as [|k ks IH]; [done|].
  rewrite dict_reorder_cons, filter_cons.
  destruct (Dict.get k d) as [v|] eqn:Hk.
  - rewrite decide_True by eauto. csimpl. by rewrite IH.
  - rewrite decide_False by (by intros [? ?]). done.
Qed.

Lemma dict_sorted_reorder_NoDup {V} (d : list (string * V)) :
  NoDup d.*1 → NoDup (Dict.reorder (sorted_strs d.*1) d).*1.
Proof.
  intros Hnd. rewrite dict_reorder_keys. apply NoDup_filter.
  unfold sorted_strs. by rewrite merge_sort_Permutation.
Qed.

Section BuiltIndexes.

Variable stem : string → string.
Variable stop_words : gset string.

Lemma index_token_keys_NoDup d0 st entry :
  NoDup st.1.*1 ∧ NoDup st.2.*1 →
  NoDup (index_token d0 st entry).1.*1 ∧ NoDup (index_token d0 st entry).2.*1.
Proof.
  destruct st as [inv pos], entry as [t ps]. cbn [fst snd]. intros [Hi Hp].
  unfold index_token. cbn [fst snd].
  split; by apply dict_set_NoDup, dict_ensure_NoDup.
Qed.

Lemma accumulate_keys_NoDup documents :
  NoDup (accumulate stem stop_words documents).1.*1
  ∧ NoDup (accumulate stem stop_words documents).2.*1.
Proof.
  unfold accumulate.
  assert (∀ st, NoDup st.1.*1 ∧ NoDup st.2.*1 →
            NoDup (foldl (index_document stem stop_words) st documents).1.*1
            ∧ NoDup (foldl (index_document stem stop_words) st documents).2.*1) as Hfold.
  { induction documents as [|doc documents IH]; intros st Hst; [done|].
    cbn [foldl]. apply IH. unfold index_document.
    generalize (doc_positions stem stop_words doc.2). intros entries.
    revert st Hst. induction entries as [|entry entries IHe]; intros st Hst; [done|].
    cbn [foldl]. by apply IHe, index_token_keys_NoDup. }
  apply Hfold. split; constructor.
Qed.

(** The terms of a built index are distinct, the document ids under a term
    are distinct, and no position list is empty. *)
Lemma build_indexes_well_formed documents :
  NoDup documents.*1 →
  NoDup (build_indexes stem stop_words documents).1.*1
  ∧ NoDup (build_indexes stem stop_words documents).2.*1
  ∧ Forall (λ entry, NoDup entry.2.*1 ∧ Forall (λ posting, posting.2 ≠ []) entry.2)
      (build_indexes stem stop_words documents).2.
Proof.
  intros Hnd. rewrite build_indexes_unfold. cbn [fst snd].
  destruct (accumulate_keys_NoDup documents) as [Hi Hp].
  destruct (accumulate_spec stem stop_words documents Hnd) as (Hpost & _ & Hinner).
  split_and!.
  - unfold sort_inverted.
    rewrite <- (dict_fmap_keys (λ ids, sorted_ints (elements ids))
                 (accumulate stem stop_words documents).1) at 1.
    apply dict_sorted_reorder_NoDup. by rewrite dict_fmap_keys.
  - unfold sort_positional. apply dict_sorted_reorder_NoDup. by rewrite dict_fmap_keys.
  - apply Forall_forall. intros [t postings] Hin. cbn [fst snd].
    unfold sort_positional in Hin. apply dict_elem_reorder in Hin.
    rewrite dict_get_fmap in Hin.
    destruct (Dict.get t (accumulate stem stop_words documents).2)
      as [raw|] eqn:Hraw; simplify_eq/=.
    split.
    + unfold sort_postings. rewrite dict_fmap_keys. unfold sorted_items.
      rewrite merge_sort_Permutation. by eapply Hinner.
    + apply Forall_forall. intros [d ps] Hd. cbn [snd].
      unfold sort_postings in Hd.
      apply list_elem_of_fmap in Hd as ([d' ps0] & ? & Hd); simplify_eq/=.
      unfold sorted_items in Hd. rewrite merge_sort_Permutation in Hd.
      apply dict_elem_get in Hd; [|by eapply Hinner].
      specialize (Hpost t d'). unfold posting in Hpost.
      rewrite Hraw in Hpost. simpl in Hpost. rewrite Hd in Hpost.
      pose proof (occurrences_in_sorted stem stop_words documents t d') as Hs.
      destruct (occurrences_in stem stop_words documents t d'); simplify_eq/=.
      by rewrite sorted_ints_id.
Qed.

(** The codec on a built index whose terms the line format can carry: the
    inverted index is read back as it was built, the positional index with
    its document ids turned into strings. *)
Theorem built_indexes_round_trip documents :
  NoDup documents.*1 →
  Forall (λ t, term_ok t = true) (build_indexes stem stop_words documents).1.*1 →
  Forall (λ t, term_ok t = true) (build_indexes stem stop_words documents).2.*1 →
  Codec.load_inverted_index
    (Codec.save_inverted_index (build_indexes stem stop_words documents).1)
  = ok (build_indexes stem stop_words documents).1
  ∧ Codec.load_positional_index
      (Codec.save_positional_index (build_indexes stem stop_words documents).2)
    = ok (stringify_keys (build_indexes stem stop_words documents).2).
Proof.
  intros Hnd Hterms1 Hterms2.
  destruct (build_indexes_well_formed documents Hnd) as (H1 & H2 & H3). split.
  - apply inverted_round_trip; [done|].
    by apply Forall_fmap in Hterms1.
  - apply positional_round_trip_stringifies; [done|].
    apply Forall_fmap in Hterms2.
    rewrite Forall_forall in Hterms2, H3 |- *.
    intros entry Hin. destruct (H3 entry Hin). split_and!; [|done..].
    by apply Hterms2.
Qed.

End BuiltIndexes.

(** For every such index that has a posting, the decoded index is not the
    index that was saved. *)
Corollary positional_round_trip_fails (index : list (string * list (Z * list Z)))
    t postings d ps :
  NoDup index.*1 →
  Forall (λ entry, term_ok entry.1 = true ∧ NoDup entry.2.*1
                   ∧ Forall (λ posting, posting.2 ≠ []) entry.2) index →
  (t, postings) ∈ index → (d, ps) ∈ postings →
  ∃ loaded,
    Codec.load_positional_index (Codec.save_positional_index index) = ok loaded
    ∧ str_keyed loaded ≠ int_keyed index.
Proof.
  intros Hnd Hok Ht Hd. exists (stringify_keys index). split.
  - by apply positional_round_trip_stringifies.
  - by eapply str_keyed_ne_int_keyed.
Qed.

(** C1. The claim holds of the specification, not of the code.  The
    inverted index of the example collection is read back as it was saved,
    but [load_positional_index] keeps each document id as the string found
    in the file (its sibling [load_inverted_index] converts with [int]), so
    the decoded positional index has keys ["1"], ["2"] where the built one
    has [1], [2], and the two are not equal. *)
Theorem positional_round_trip_changes_keys :
  let inverted_index := (build_indexes stem_id {["is"; "for"]} docs_example).1 in
  let positional_index := (build_indexes stem_id {["is"; "for"]} docs_example).2 in
  Codec.load_inverted_index (Codec.save_inverted_index inverted_index) = ok inverted_index
  ∧ positional_index
    = [("data", [(1, [0]); (2, [1])]); ("fun", [(1, [3])]);
       ("gold", [(2, [3])]); ("mining", [(1, [1]); (2, [0])])]
  ∧ ∃ loaded,
      Codec.load_positional_index (Codec.save_positional_index positional_index) = ok loaded
      ∧ loaded
        = [("data", [("1", [0]); ("2", [1])]); ("fun", [("1", [3])]);
           ("gold", [("2", [3])]); ("mining", [("1", [1]); ("2", [0])])]
      ∧ str_keyed loaded ≠ int_keyed positional_index.
Proof.
  cbv zeta.
  assert ((build_indexes stem_id {["is"; "for"]} docs_example).2
          = [("data", [(1, [0]); (2, [1])]); ("fun", [(1, [3])]);
             ("gold", [(2, [3])]); ("mining", [(1, [1]); (2, [0])])]) as Hpos
    by (vm_compute; reflexivity).
  split_and!.
  - vm_compute. reflexivity.
  - exact Hpos.
  - eexists. split_and!.
    + rewrite Hpos. vm_compute. reflexivity.
    + reflexivity.
    + rewrite Hpos.
      apply (str_keyed_ne_int_keyed _ _ "data" [(1, [0]); (2, [1])] 1 [0]).
      * apply list_elem_of_here.
      * apply list_elem_of_here.
Qed.

(** A term with a colon in it (a preserved URL) does not survive either
    codec: the inverted line is skipped, the positional line is read as the
    term ["http"] without postings. *)
Example url_term_is_lost :
  (build_indexes stem_id ∅ [(1, "see http://x.org")]).1
  = [("http://x.org", [1]); ("see", [1])]
  ∧ Codec.load_inverted_index
      (Codec.save_inverted_index [("http://x.org", [1]); ("see", [1])])
    = ok [("see", [1])]
  ∧ Codec.load_positional_index
      (Codec.save_positional_index [("http://x.org", [(1, [1])]); ("see", [(1, [0])])])
    = ok [("http", []); ("see", [("1", [0])])].
Proof. split_and!; vm_compute; reflexivity. Qed.

(** A line with a term but no postings is read as an entry with an empty
    postings mapping. *)
Example ghost_line :
  Codec.load_positional_index "ghost:" = ok [("ghost", [])].
Proof. vm_compute. reflexivity. Qed.


(** * Further properties *)

(** ** Normalizer *)

Lemma process_token_Some (stem : string → string) (stop_words : gset string)
    (token t : string) :
  process_token stem stop_words token = Some t → t ∉ stop_words.
Proof.
  unfold process_token.
  destruct (negb (Re.is_email token) && negb (Re.is_url token));
    (destruct (Str.existsb Chr.isalpha _); [|done]);
    (case_bool_decide; [|done]);
    (case_bool_decide; [|done]); by intros [= <-].
Qed.

Lemma preprocess_no_stopword
    (stem : string → string) (stop_words : gset string) (text t : string) :
  t ∈ preprocess stem stop_words text → t ∉ stop_words.
Proof.
  unfold preprocess. intros (token & _ & Ht)%list_elem_of_omap.
  by eapply process_token_Some.
Qed.

(** *** A match never looks beyond the next white space *)

Lemma span_decompose (p : ascii → bool) (s a b : string) :
  Str.span p s = (a, b) →
  s = a +:+ b ∧ Str.forallb p a = true
  ∧ (b = "" ∨ ∃ c r, b = String c r ∧ p c = false).
Proof.
  revert a b. induction s as [|c s IH]; intros a b Hs; simpl in Hs.
  - simplify_eq. by auto.
  - destruct (p c) eqn:Hc.
    + destruct (Str.span p s) as [a' b'] eqn:Hs'. simplify_eq.
      destruct (IH a' b eq_refl) as (-> & Ha & Hb).
      split_and!; [done| |done]. simpl. by rewrite Hc.
    + simplify_eq. split_and!; [done..|]. right. eauto.
Qed.

Lemma span_all (p : ascii → bool) (s : string) :
  Str.forallb p s = true → Str.span p s = (s, "").
Proof.
  induction s as [|c s IH]; [done|]. simpl.
  intros [-> Hs]%andb_true_iff. by rewrite IH.
Qed.

Lemma span_local (p : ascii → bool) (run rest : string) :
  (∀ c, Chr.isspace c = true → p c = false) → at_boundary rest →
  Str.span p (run +:+ rest)
  = ((Str.span p run).1, (Str.span p run).2 +:+ rest).
Proof.
  intros Hp Hrest. induction run as [|x run IH].
  - rewrite string_app_nil_l. destruct Hrest as [->|(c & r & -> & Hc)]; [done|].
    simpl. by rewrite (Hp c Hc).
  - rewrite string_app_cons. cbn [Str.span]. destruct (p x); [|done].
    rewrite IH. by destruct (Str.span p run).
Qed.

(** What is left behind a match, followed by [rest]. *)
Local Abbreviation followed_by rest :=
  (fmap (M := option) (λ m : string * string, (m.1, m.2 +:+ rest))).

Lemma nonempty_span_local (p : ascii → bool) (run rest : string) :
  (∀ c, Chr.isspace c = true → p c = false) → at_boundary rest →
  Re.nonempty_span p (run +:+ rest) = followed_by rest (Re.nonempty_span p run).
Proof.
  intros Hp Hrest. unfold Re.nonempty_span. rewrite span_local by done.
  destruct (Str.span p run) as [a b]. by destruct a.
Qed.

Lemma strip_prefix_local (pre run rest : string) :
  Str.forallb (λ c, negb (Chr.isspace c)) pre = true → at_boundary rest →
  Str.strip_prefix pre (run +:+ rest)
  = (λ r, r +:+ rest) <$> Str.strip_prefix pre run.
Proof.
  intros Hpre Hrest. revert run. induction pre as [|a pre IH]; intros run; [done|].
  cbn [Str.forallb] in Hpre. apply andb_true_iff in Hpre as [Ha%negb_true_iff Hpre].
  destruct run as [|x run].
  - rewrite string_app_nil_l. destruct Hrest as [->|(c & r & -> & Hc)]; [done|].
    cbn [Str.strip_prefix]. destruct (Ascii.eqb_spec a c) as [->|]; [congruence|done].
  - rewrite string_app_cons. cbn [Str.strip_prefix].
    destruct (Ascii.eqb a x); [by apply IH|done].
Qed.

Lemma email_classes_nonspace (c : ascii) :
  Chr.isspace c = true →
  Chr.email_local c = false ∧ Chr.email_domain c = false ∧ Chr.email_tld c = false.
Proof. destruct c as [[] [] [] [] [] [] [] []]; vm_compute; by intros. Qed.

Lemma match_email_local (run rest : string) :
  at_boundary rest →
  Re.match_email (run +:+ rest) = followed_by rest (Re.match_email run).
Proof.
  intros Hrest. unfold Re.match_email.
  rewrite nonempty_span_local by (done || apply email_classes_nonspace).
  destruct (Re.nonempty_span Chr.email_local run) as [[loc r1]|]; [|done].
  cbn [fmap option_fmap option_map mbind option_bind fst snd].
  rewrite strip_prefix_local by done.
  destruct (Str.strip_prefix "@" r1) as [r2|]; [|done].
  cbn [fmap option_fmap option_map mbind option_bind fst snd].
  rewrite nonempty_span_local by (done || apply email_classes_nonspace).
  destruct (Re.nonempty_span Chr.email_domain r2) as [[dom r3]|]; [|done].
  cbn [fmap option_fmap option_map mbind option_bind fst snd].
  rewrite strip_prefix_local by done.
  destruct (Str.strip_prefix "." r3) as [r4|]; [|done].
  cbn [fmap option_fmap option_map mbind option_bind fst snd].
  rewrite nonempty_span_local by (done || apply email_classes_nonspace).
  by destruct (Re.nonempty_span Chr.email_tld r4) as [[tld r5]|].
Qed.

Lemma nonspace_class (c : ascii) :
  Chr.isspace c = true → negb (Chr.isspace c) = false.
Proof. by intros ->. Qed.

Lemma match_url_local (run rest : string) :
  at_boundary rest →
  Re.match_url (run +:+ rest) = followed_by rest (Re.match_url run).
Proof.
  intros Hrest. unfold Re.match_url.
  rewrite !strip_prefix_local by done.
  destruct (Str.strip_prefix "https://" run) as [r|].
  - cbn [fmap option_fmap option_map].
    rewrite nonempty_span_local by (done || apply nonspace_class).
    by destruct (Re.nonempty_span _ r) as [[body rest']|].
  - cbn [fmap option_fmap option_map].
    destruct (Str.strip_prefix "http://" run) as [r|]; [|done].
    cbn [fmap option_fmap option_map mbind option_bind].
    rewrite nonempty_span_local by (done || apply nonspace_class).
    by destruct (Re.nonempty_span _ r) as [[body rest']|].
Qed.

Lemma match_word_local (run rest : string) :
  at_boundary rest →
  Re.match_word (run +:+ rest) = followed_by rest (Re.match_word run).
Proof.
  intros Hrest. unfold Re.match_word, Re.match_nonspace.
  rewrite match_email_local, match_url_local by done.
  destruct (Re.match_email run) as [[m r]|]; [done|].
  destruct (Re.match_url run) as [[m r]|]; [done|].
  cbn [fmap option_fmap option_map].
  by rewrite nonempty_span_local by (done || apply nonspace_class).
Qed.

Lemma findall_unfold (c : ascii) (s : string) :
  Re.findall (String c s)
  = match Re.match_word (String c s) with
    | Some (w, rest) => w :: Re.findall rest
    | None => Re.findall s
    end.
Proof.
  unfold Re.findall at 1. cbn [String.length Re.findall_fuel].
  destruct (Re.match_word (String c s)) as [[w rest]|] eqn:Hw.
  - f_equal. apply findall_total. apply match_word_shorter in Hw. simpl in Hw. lia.
  - by apply findall_total.
Qed.

Lemma match_word_space (c : ascii) (s : string) :
  Chr.isspace c = true → Re.match_word (String c s) = None.
Proof.
  intros Hc. unfold Re.match_word, Re.match_email, Re.match_url, Re.match_nonspace,
    Re.nonempty_span. cbn [Str.span].
  destruct (email_classes_nonspace c Hc) as (-> & _ & _). rewrite Hc.
  cbn [negb Str.is_empty mbind option_bind Str.strip_prefix].
  assert (Ascii.eqb "h" c = false) as ->.
  { destruct (Ascii.eqb_spec "h" c) as [<-|]; [discriminate Hc|done]. }
  done.
Qed.

(** [re.findall] works on each side of a boundary by itself. *)
Lemma findall_app (run rest : string) :
  at_boundary rest → Re.findall (run +:+ rest) = Re.findall run ++ Re.findall rest.
Proof.
  intros Hrest. remember (String.length run) as n eqn:Hn.
  revert run Hn. induction (lt_wf n) as [n _ IH]. intros run ->.
  destruct run as [|c run]; [done|].
  rewrite string_app_cons, !findall_unfold, <- string_app_cons.
  rewrite match_word_local by done.
  destruct (Re.match_word (String c run)) as [[w r]|] eqn:Hw.
  - cbn [fmap option_fmap option_map fst snd]. apply match_word_shorter in Hw.
    by rewrite (IH (String.length r)).
  - cbn [fmap option_fmap option_map]. apply (IH (String.length run)); [simpl; lia|done].
Qed.

Lemma preprocess_app (stem : string → string) (stop_words : gset string)
    (run rest : string) :
  at_boundary rest →
  preprocess stem stop_words (run +:+ rest)
  = preprocess stem stop_words run ++ preprocess stem stop_words rest.
Proof.
  intros Hrest. unfold preprocess.
  by rewrite findall_app, fmap_app, omap_app.
Qed.

Lemma preprocess_skip_space (stem : string → string) (stop_words : gset string)
    (c : ascii) (s : string) :
  Chr.isspace c = true →
  preprocess stem stop_words (String c s) = preprocess stem stop_words s.
Proof.
  intros Hc. unfold preprocess. by rewrite findall_unfold, match_word_space.
Qed.

Lemma split_run (run rest : string) :
  is_word run = true → at_boundary rest →
  Str.split (run +:+ rest) = run :: Str.split rest.
Proof.
  intros [Hne Hw]%andb_true_iff Hrest. unfold Str.split.
  rewrite split_go_word, string_app_nil_l by done.
  destruct Hrest as [->|(c & r & -> & Hc)].
  - simpl. by destruct run.
  - cbn [Str.split_go]. rewrite Hc. by destruct run.
Qed.

(** X1. Normalizing a text is normalizing each of its white-space separated
    words and putting the results one after the other, so a document is
    normalized word by word in the same way at index time (slot by slot)
    and at query time (the whole query at once). *)
Theorem preprocess_word_by_word
    (stem : string → string) (stop_words : gset string) (text : string) :
  preprocess stem stop_words text
  = concat (preprocess stem stop_words <$> Str.split text).
Proof.
  remember (String.length text) as n eqn:Hn.
  revert text Hn. induction (lt_wf n) as [n _ IH]. intros text ->.
  destruct text as [|c text]; [done|].
  destruct (Chr.isspace c) eqn:Hc.
  - rewrite preprocess_skip_space by done.
    assert (Str.split (String c text) = Str.split text) as ->.
    { unfold Str.split. cbn [Str.split_go]. by rewrite Hc. }
    apply (IH (String.length text)); [simpl; lia|done].
  - destruct (Str.span (λ x, negb (Chr.isspace x)) (String c text)) as [run rest] eqn:Hs.
    pose proof Hs as (Htext & Hrun & Hrest)%span_decompose.
    assert (is_word run = true) as Hword.
    { unfold is_word. rewrite Hrun, andb_true_r.
      simpl in Hs. rewrite Hc in Hs. simpl in Hs.
      destruct (Str.span _ text). by simplify_eq. }
    assert (at_boundary rest) as Hb.
    { destruct Hrest as [->|(x & r & -> & Hx%negb_false_iff)]; [by left|right; eauto]. }
    assert (String.length rest < String.length (String c text))%nat as Hlen.
    { rewrite Htext, string_length_app.
      destruct run; [done|]. simpl. lia. }
    rewrite Htext, preprocess_app, split_run by done.
    rewrite fmap_cons. cbn [concat]. f_equal.
    by apply (IH (String.length rest)).
Qed.

(** *** Ordinary words *)

Lemma alnum_is_email_local (c : ascii) :
  Chr.isalnum_ascii c = true → Chr.email_local c = true.
Proof. unfold Chr.email_local. by intros ->. Qed.

Lemma filter_forallb (p : ascii → bool) (s : string) :
  Str.forallb p (Str.filter p s) = true.
Proof.
  induction s as [|c s IH]; [done|]. simpl.
  destruct (p c) eqn:Hc; [|done]. simpl. by rewrite Hc.
Qed.

(** A string of ASCII letters and digits starts neither an email address
    nor a URL. *)
Lemma alnum_not_preserved (s : string) :
  Str.forallb Chr.isalnum_ascii s = true →
  Re.is_email s = false ∧ Re.is_url s = false.
Proof.
  intros Hs. split.
  - unfold Re.is_email, Re.match_email, Re.nonempty_span.
    rewrite span_all by (eapply forallb_impl; [apply alnum_is_email_local|done]).
    apply bool_decide_eq_false. destruct s; by intros [? ?].
  - unfold Re.is_url, Re.match_url. apply bool_decide_eq_false.
    destruct (Str.strip_prefix "https://" s) as [r|] eqn:H1.
    { apply strip_prefix_app in H1 as ->. by vm_compute in Hs. }
    destruct (Str.strip_prefix "http://" s) as [r|] eqn:H2; [|by intros [? ?]].
    apply strip_prefix_app in H2 as ->. by vm_compute in Hs.
Qed.

Lemma lower_letter (c : ascii) :
  Chr.isalnum_ascii c = true → Chr.isdigit (Chr.lower c) = false →
  Chr.isalpha (Chr.lower c) = true.
Proof. destruct c as [[] [] [] [] [] [] [] []]; vm_compute; congruence. Qed.

Lemma letters_of_letters (w : string) :
  Str.forallb Chr.isalpha (letters_of w) = true.
Proof.
  unfold letters_of, Str.lower. induction w as [|c w IH]; [done|].
  cbn [Str.filter]. destruct (Chr.isalnum_ascii c) eqn:Hc; [|done].
  cbn [Str.map Str.filter]. destruct (Chr.isdigit (Chr.lower c)) eqn:Hd; [done|].
  cbn [negb Str.forallb]. by rewrite lower_letter, IH.
Qed.

Lemma forallb_existsb (p : ascii → bool) (s : string) :
  Str.forallb p s = true → Str.existsb p s = negb (Str.is_empty s).
Proof. destruct s as [|c s]; [done|]. simpl. by intros [-> _]%andb_true_iff. Qed.

(** X2. An ordinary word (no white space, not starting like an email
    address or a URL) is reduced to its ASCII letters in lower case; it is
    dropped when at most two letters are left or when the stem of what is
    left is a stopword, and otherwise that stem is its only token. *)
Theorem preprocess_ordinary_word
    (stem : string → string) (stop_words : gset string) (w : string) :
  is_word w = true →
  Re.match_email w = None → Re.match_url w = None →
  preprocess stem stop_words w
  = if bool_decide (2 < String.length (letters_of w))%nat
       && bool_decide (stem (letters_of w) ∉ stop_words)
    then [stem (letters_of w)] else [].
Proof.
  intros Hword Hemail Hurl. pose proof Hword as [Hne Hns]%andb_true_iff.
  assert (Re.findall w = [w]) as Hfind.
  { apply findall_whole_word. unfold Re.match_word, Re.match_nonspace, Re.nonempty_span.
    rewrite Hemail, Hurl, span_all by done. by destruct w. }
  unfold preprocess. rewrite Hfind. cbn [fmap list_fmap omap list_omap].
  assert (clean_token w = Str.filter Chr.isalnum_ascii w) as ->.
  { unfold clean_token, Re.is_email, Re.is_url. rewrite Hemail, Hurl.
    by rewrite !bool_decide_eq_false_2 by (by intros [? ?]). }
  unfold process_token.
  destruct (alnum_not_preserved (Str.filter Chr.isalnum_ascii w)) as [-> ->];
    [apply filter_forallb|].
  cbn [negb andb]. fold (letters_of w).
  rewrite (forallb_existsb _ _ (letters_of_letters w)).
  destruct (letters_of w) as [|c l] eqn:Hl; [done|].
  cbn [Str.is_empty negb].
  case_bool_decide; [|done]. by case_bool_decide.
Qed.

Lemma preprocess_ordinary_word_witness :
  is_word "Data-Mining2," = true
  ∧ Re.match_email "Data-Mining2," = None
  ∧ Re.match_url "Data-Mining2," = None
  ∧ preprocess stem_id {["is"; "for"]} "Data-Mining2,"
    = if bool_decide (2 < String.length (letters_of "Data-Mining2,"))%nat
         && bool_decide (stem_id (letters_of "Data-Mining2,")
                         ∉ ({["is"; "for"]} : gset string))
      then [stem_id (letters_of "Data-Mining2,")] else [].
Proof.
  assert (is_word "Data-Mining2," = true) as H1 by (vm_compute; reflexivity).
  assert (Re.match_email "Data-Mining2," = None) as H2 by (vm_compute; reflexivity).
  assert (Re.match_url "Data-Mining2," = None) as H3 by (vm_compute; reflexivity).
  split; [exact H1|]. split; [exact H2|]. split; [exact H3|].
  exact (preprocess_ordinary_word stem_id {["is"; "for"]} "Data-Mining2," H1 H2 H3).
Defined.

(** ** Index builder: order of the entries *)

Lemma StronglySorted_filter {A} (R : relation A) (P : A → Prop)
    `{∀ x, Decision (P x)} (l : list A) :
  StronglySorted R l → StronglySorted R (filter P l).
Proof.
  induction 1 as [|x l Hl IH Hx]; [constructor|].
  rewrite filter_cons. case_decide; [|done].
  constructor; [done|]. apply Forall_forall. intros y [_ Hy]%list_elem_of_filter.
  rewrite Forall_forall in Hx. auto.
Qed.

Lemma key_le_total {V} : Total (@key_le V).
Proof. intros x y. unfold key_le. lia. Qed.

Lemma sorted_items_keys {V} (m : list (Z * V)) :
  StronglySorted Z.le (sorted_items m).*1.
Proof.
  apply (Sorted_StronglySorted _).
  apply (Sorted_fmap _ key_le); [done|].
  apply (@Sorted_merge_sort _ key_le _ key_le_total).
Qed.

Section DictExtensionality.
Context {K V : Type} `{EqDecision K}.

Lemma dict_eq_of_keys (d1 d2 : list (K * V)) :
  d1.*1 = d2.*1 → NoDup d1.*1 →
  (∀ k, Dict.get k d1 = Dict.get k d2) → d1 = d2.
Proof.
  revert d2. induction d1 as [|[k1 v1] d1 IH]; intros [|[k2 v2] d2] Hkeys Hnd Hget;
    try done.
  csimpl in *. injection Hkeys as -> Hkeys. apply NoDup_cons in Hnd as [Hk Hnd].
  pose proof (Hget k2) as H2. simpl in H2. rewrite !decide_True in H2 by done.
  simplify_eq. f_equal. apply IH; [done..|].
  intros k. specialize (Hget k). simpl in Hget.
  destruct (decide (k = k2)) as [->|]; [|done].
  rewrite (proj2 (dict_get_None k2 d1) Hk). symmetry. apply dict_get_None.
  by rewrite <- Hkeys.
Qed.

(** Two dictionaries with sorted keys and the same lookups are equal. *)
Lemma dict_ext_sorted (R : relation K) `{!Transitive R} `{!AntiSymm (=) R}
    (d1 d2 : list (K * V)) :
  StronglySorted R d1.*1 → NoDup d1.*1 →
  StronglySorted R d2.*1 → NoDup d2.*1 →
  (∀ k, Dict.get k d1 = Dict.get k d2) → d1 = d2.
Proof.
  intros Hs1 Hn1 Hs2 Hn2 Hget. apply dict_eq_of_keys; [|done..].
  apply (StronglySorted_unique R); [done..|].
  apply NoDup_Permutation; [done..|]. intros k.
  destruct (decide (k ∈ d1.*1)) as [Hin|Hnin].
  - split; [intros _|done]. destruct (decide (k ∈ d2.*1)) as [|Hn]; [done|].
    apply dict_get_None in Hn. rewrite <- Hget in Hn. by apply dict_get_None in Hn.
  - split; [done|]. intros Hin. apply dict_get_None in Hnin.
    rewrite Hget in Hnin. by apply dict_get_None in Hnin.
Qed.

End DictExtensionality.

Lemma sorted_strs_sorted (l : list string) : StronglySorted String.le (sorted_strs l).
Proof. apply StronglySorted_merge_sort; apply _. Qed.

Lemma dict_sorted_reorder_sorted {V} (d : list (string * V)) :
  StronglySorted String.le (Dict.reorder (sorted_strs d.*1) d).*1.
Proof. rewrite dict_reorder_keys. apply StronglySorted_filter, sorted_strs_sorted. Qed.

Lemma foldl_preserves {A S} (P : S → Prop) (f : S → A → S) (l : list A) (st : S) :
  (∀ st x, P st → P (f st x)) → P st → P (foldl f st l).
Proof.
  intros Hf. revert st. induction l as [|x l IH]; intros st Hst; [done|].
  cbn [foldl]. by apply IH, Hf.
Qed.

Section BuilderOrder.

Variable stem : string → string.
Variable stop_words : gset string.

Local Abbreviation build := (build_indexes stem stop_words).
Local Abbreviation occ := (occurrences_in stem stop_words).

Lemma index_token_positional_get d0 inv pos t0 ps t :
  Dict.get t (index_token d0 (inv, pos) (t0, ps)).2
  = if decide (t = t0)
    then Some (Dict.set d0
                 (default [] (Dict.get d0 (default [] (Dict.get t0 pos))) ++ ps)
                 (Dict.ensure d0 [] (default [] (Dict.get t0 pos))))
    else Dict.get t pos.
Proof.
  unfold index_token. cbn [snd].
  rewrite dict_get_set, !dict_get_ensure.
  rewrite (decide_True (P := t0 = t0)) by done. simpl.
  destruct (decide (t = t0)); [|done].
  rewrite decide_True by done. simpl.
  by destruct (Dict.get d0 (default [] (Dict.get t0 pos))).
Qed.

(** No term is kept without a document. *)
Lemma accumulate_nonempty documents :
  (∀ t ids, Dict.get t (accumulate stem stop_words documents).1 = Some ids →
            ∃ d, d ∈ ids)
  ∧ (∀ t postings, Dict.get t (accumulate stem stop_words documents).2 = Some postings →
                   ∃ d, is_Some (Dict.get d postings)).
Proof.
  unfold accumulate.
  apply (foldl_preserves
    (λ st : list (string * gset Z) * list (string * list (Z * list Z)),
       (∀ t ids, Dict.get t st.1 = Some ids → ∃ d, d ∈ ids)
       ∧ (∀ t postings, Dict.get t st.2 = Some postings →
                        ∃ d, is_Some (Dict.get d postings)))).
  - intros st [d0 document] Hst. unfold index_document. cbn [fst snd].
    apply foldl_preserves; [|done].
    clear. intros [inv pos] [t0 ps] [Hi Hp]. split.
    + intros t ids. rewrite index_token_inverted_get.
      destruct (decide (t = t0)) as [->|]; [|by apply Hi].
      intros [= <-]. exists d0. apply elem_of_union_l. by apply elem_of_singleton.
    + intros t postings. rewrite index_token_positional_get.
      destruct (decide (t = t0)) as [->|]; [|by apply Hp].
      intros [= <-]. exists d0. rewrite dict_get_set, decide_True by done. eauto.
  - by split.
Qed.

(** The posting list of a term in the built inverted index. *)
Lemma build_indexes_inverted_list documents t ids :
  NoDup documents.*1 →
  Dict.get t (build documents).1 = Some ids →
  ids ≠ [] ∧ StronglySorted Z.lt ids ∧ ∀ d, d ∈ ids ↔ occ documents t d ≠ [].
Proof.
  intros Hnd Hget.
  pose proof (build_indexes_inverted stem stop_words documents t) as Hmem.
  rewrite build_indexes_unfold in Hget. cbn [fst] in Hget.
  rewrite sort_inverted_get in Hget.
  destruct (Dict.get t (accumulate stem stop_words documents).1) as [s|] eqn:Hs;
    simplify_eq/=.
  destruct (accumulate_nonempty documents) as [Hne _].
  destruct (Hne t s Hs) as [d0 Hd0]. split_and!.
  - intros Hnil. apply (elem_of_sorted_ints s d0) in Hd0. rewrite Hnil in Hd0.
    by apply elem_of_nil in Hd0.
  - apply sorted_ints_strict, NoDup_elements.
  - intros d. rewrite <- (Hmem d Hnd). rewrite build_indexes_unfold. cbn [fst].
    rewrite sort_inverted_get, Hs. simpl. split; [by eauto|].
    by intros (? & [= <-] & ?).
Qed.

(** The postings of a term in the built positional index. *)
Lemma build_indexes_positional_entry documents t postings :
  NoDup documents.*1 →
  Dict.get t (build documents).2 = Some postings →
  StronglySorted Z.le postings.*1 ∧ NoDup postings.*1
  ∧ (∃ d, is_Some (Dict.get d postings))
  ∧ ∀ d, Dict.get d postings = nonempty (occ documents t d).
Proof.
  intros Hnd Hget.
  pose proof (build_indexes_posting stem stop_words documents t) as Hpost.
  unfold posting in Hpost. rewrite Hget in Hpost.
  rewrite build_indexes_unfold in Hget. cbn [snd] in Hget.
  rewrite sort_positional_get in Hget.
  destruct (Dict.get t (accumulate stem stop_words documents).2) as [raw|] eqn:Hraw;
    simplify_eq/=.
  destruct (accumulate_spec stem stop_words documents Hnd) as (_ & _ & Hinner).
  destruct (accumulate_nonempty documents) as [_ Hne].
  destruct (Hne t raw Hraw) as (d0 & ps0 & Hd0).
  assert (NoDup raw.*1) as Hrawnd by (by eapply Hinner).
  split_and!.
  - unfold sort_postings. rewrite dict_fmap_keys. apply sorted_items_keys.
  - unfold sort_postings. rewrite dict_fmap_keys. unfold sorted_items.
    by rewrite merge_sort_Permutation.
  - exists d0. rewrite sort_postings_get, Hd0 by done. by eexists.
  - intros d. by apply Hpost.
Qed.

Lemma build_indexes_keys_sorted documents :
  StronglySorted String.le (build documents).1.*1
  ∧ StronglySorted String.le (build documents).2.*1.
Proof.
  rewrite build_indexes_unfold. cbn [fst snd]. split.
  - unfold sort_inverted.
    rewrite <- (dict_fmap_keys (λ ids, sorted_ints (elements ids))
                 (accumulate stem stop_words documents).1) at 1.
    apply dict_sorted_reorder_sorted.
  - unfold sort_positional. apply dict_sorted_reorder_sorted.
Qed.

Lemma occurrences_in_perm documents documents' t d :
  NoDup documents.*1 → documents ≡ₚ documents' →
  occ documents t d = occ documents' t d.
Proof.
  intros Hnd Hp. unfold occurrences_in. by rewrite (dict_get_perm d _ _ Hnd Hp).
Qed.

Lemma strict_sorted_ext (l1 l2 : list Z) :
  StronglySorted Z.lt l1 → StronglySorted Z.lt l2 →
  (∀ d, d ∈ l1 ↔ d ∈ l2) → l1 = l2.
Proof.
  intros H1 H2 Hmem. rewrite <- (sorted_ints_id l1), <- (sorted_ints_id l2) by done.
  apply (StronglySorted_unique Z.le).
  - apply StronglySorted_merge_sort; apply _.
  - apply StronglySorted_merge_sort; apply _.
  - unfold sorted_ints. rewrite !merge_sort_Permutation.
    apply NoDup_Permutation; [| |done].
    + clear -H1. induction H1 as [|x l _ IH Hx]; constructor; [|done].
      intros Hin. rewrite Forall_forall in Hx. specialize (Hx x Hin). lia.
    + clear -H2. induction H2 as [|x l _ IH Hx]; constructor; [|done].
      intros Hin. rewrite Forall_forall in Hx. specialize (Hx x Hin). lia.
Qed.

Lemma build_indexes_inverted_perm documents documents' t :
  NoDup documents.*1 → documents ≡ₚ documents' →
  Dict.get t (build documents).1 = Dict.get t (build documents').1.
Proof.
  assert (∀ docs docs' ids,
            NoDup docs.*1 → docs ≡ₚ docs' →
            Dict.get t (build docs).1 = Some ids →
            Dict.get t (build docs').1 = Some ids) as Hdir.
  { intros docs docs' ids Hnd Hp Hget.
    assert (NoDup docs'.*1) as Hnd' by (by rewrite <- Hp).
    destruct (build_indexes_inverted_list docs t ids Hnd Hget) as (Hne & Hs & Hmem).
    destruct ids as [|d0 ids0] eqn:Hids; [done|]. rewrite <- Hids in *.
    assert (occ docs' t d0 ≠ []) as Hocc.
    { rewrite <- (occurrences_in_perm docs docs') by done.
      apply Hmem. rewrite Hids. apply list_elem_of_here. }
    apply (build_indexes_inverted stem stop_words docs' t d0 Hnd') in Hocc
      as (ids' & Hget' & _).
    rewrite Hget'. f_equal.
    destruct (build_indexes_inverted_list docs' t ids' Hnd' Hget') as (_ & Hs' & Hmem').
    apply strict_sorted_ext; [done..|]. intros d.
    by rewrite Hmem, Hmem', (occurrences_in_perm docs docs'). }
  intros Hnd Hp.
  assert (NoDup documents'.*1) as Hnd' by (by rewrite <- Hp).
  destruct (Dict.get t (build documents).1) as [ids|] eqn:H1.
  - symmetry. exact (Hdir documents documents' ids Hnd Hp H1).
  - destruct (Dict.get t (build documents').1) as [ids'|] eqn:H2; [|done].
    pose proof (Hdir documents' documents ids' Hnd' (symmetry Hp) H2). congruence.
Qed.

Lemma build_indexes_positional_perm documents documents' t :
  NoDup documents.*1 → documents ≡ₚ documents' →
  Dict.get t (build documents).2 = Dict.get t (build documents').2.
Proof.
  assert (∀ docs docs' m,
            NoDup docs.*1 → docs ≡ₚ docs' →
            Dict.get t (build docs).2 = Some m →
            Dict.get t (build docs').2 = Some m) as Hdir.
  { intros docs docs' m Hnd Hp Hget.
    assert (NoDup docs'.*1) as Hnd' by (by rewrite <- Hp).
    destruct (build_indexes_positional_entry docs t m Hnd Hget)
      as (Hs & Hn & (d0 & Hd0) & Hm).
    pose proof (build_indexes_posting stem stop_words docs' t d0 Hnd') as Hpost.
    unfold posting in Hpost.
    rewrite <- (occurrences_in_perm docs docs'), <- Hm in Hpost by done.
    destruct (Dict.get t (build docs').2) as [m'|] eqn:Hget'.
    - f_equal.
      destruct (build_indexes_positional_entry docs' t m' Hnd' Hget')
        as (Hs' & Hn' & _ & Hm').
      apply (dict_ext_sorted Z.le); [done..|]. intros d.
      by rewrite Hm, Hm', (occurrences_in_perm docs docs').
    - simpl in Hpost. rewrite <- Hpost in Hd0. by destruct Hd0. }
  intros Hnd Hp.
  assert (NoDup documents'.*1) as Hnd' by (by rewrite <- Hp).
  destruct (Dict.get t (build documents).2) as [m|] eqn:H1.
  - symmetry. exact (Hdir documents documents' m Hnd Hp H1).
  - destruct (Dict.get t (build documents').2) as [m'|] eqn:H2; [|done].
    pose proof (Hdir documents' documents m' Hnd' (symmetry Hp) H2). congruence.
Qed.

End BuilderOrder.

(** X3. The built indexes do not depend on the order in which the documents
    are listed: two collections with the same (id, text) pairs give the same
    inverted and the same positional index. *)
Theorem build_indexes_order_independent
    (stem : string → string) (stop_words : gset string)
    (documents documents' : list (Z * string)) :
  NoDup documents.*1 → documents ≡ₚ documents' →
  build_indexes stem stop_words documents = build_indexes stem stop_words documents'.
Proof.
  intros Hnd Hp.
  assert (NoDup documents'.*1) as Hnd' by (by rewrite <- Hp).
  destruct (build_indexes_well_formed stem stop_words documents Hnd) as (N1 & N2 & _).
  destruct (build_indexes_well_formed stem stop_words documents' Hnd') as (N1' & N2' & _).
  destruct (build_indexes_keys_sorted stem stop_words documents) as [S1 S2].
  destruct (build_indexes_keys_sorted stem stop_words documents') as [S1' S2'].
  rewrite (surjective_pairing (build_indexes stem stop_words documents)).
  rewrite (surjective_pairing (build_indexes stem stop_words documents')).
  f_equal.
  - apply (dict_ext_sorted String.le); [done..|]. intros t.
    by apply build_indexes_inverted_perm.
  - apply (dict_ext_sorted String.le); [done..|]. intros t.
    by apply build_indexes_positional_perm.
Qed.

Lemma sorted_NoDup_strict (l : list Z) :
  StronglySorted Z.le l → NoDup l → StronglySorted Z.lt l.
Proof.
  induction 1 as [|x l _ IH Hx]; intros Hnd; [constructor|].
  apply NoDup_cons in Hnd as [Hx' Hnd]. constructor; [by apply IH|].
  apply Forall_forall. intros y Hy. rewrite Forall_forall in Hx.
  specialize (Hx y Hy). assert (x ≠ y) by (by intros ->). lia.
Qed.

(** X4. In the built indexes the terms are in alphabetical order without
    repetition, both indexes list the same terms, and under each term the
    document ids are strictly ascending, in the list of the inverted index
    and in the mapping of the positional index. *)
Theorem build_indexes_ordered
    (stem : string → string) (stop_words : gset string) (documents : list (Z * string)) :
  NoDup documents.*1 →
  StronglySorted String.le (build_indexes stem stop_words documents).1.*1
  ∧ NoDup (build_indexes stem stop_words documents).1.*1
  ∧ (build_indexes stem stop_words documents).1.*1
    = (build_indexes stem stop_words documents).2.*1
  ∧ (∀ t ids,
       (t, ids) ∈ (build_indexes stem stop_words documents).1 →
       StronglySorted Z.lt ids)
  ∧ ∀ t postings,
      (t, postings) ∈ (build_indexes stem stop_words documents).2 →
      StronglySorted Z.lt postings.*1.
Proof.
  intros Hnd.
  destruct (build_indexes_well_formed stem stop_words documents Hnd) as (N1 & N2 & _).
  destruct (build_indexes_keys_sorted stem stop_words documents) as [S1 S2].
  split_and!; [done|done| | |].
  - apply (StronglySorted_unique String.le); [done..|].
    apply NoDup_Permutation; [done..|]. intros t. split.
    + intros Hin. destruct (Dict.get t (build_indexes stem stop_words documents).1)
        as [ids|] eqn:Hget; [|by apply dict_get_None in Hget].
      destruct (build_indexes_inverted_list stem stop_words documents t ids Hnd Hget)
        as (Hne & _ & Hmem).
      destruct ids as [|d ids]; [done|].
      pose proof (proj1 (Hmem d) (list_elem_of_here _ _)) as Hocc.
      pose proof (build_indexes_posting stem stop_words documents t d Hnd) as Hpost.
      unfold posting in Hpost.
      destruct (Dict.get t (build_indexes stem stop_words documents).2) eqn:Hpos.
      * destruct (decide (t ∈ (build_indexes stem stop_words documents).2.*1));
          [done|]. apply dict_get_None in n. congruence.
      * simpl in Hpost. by destruct (occurrences_in stem stop_words documents t d).
    + intros Hin. destruct (Dict.get t (build_indexes stem stop_words documents).2)
        as [m|] eqn:Hget; [|by apply dict_get_None in Hget].
      destruct (build_indexes_positional_entry stem stop_words documents t m Hnd Hget)
        as (_ & _ & (d & ps & Hd) & Hm).
      rewrite Hm in Hd.
      assert (occurrences_in stem stop_words documents t d ≠ []) as Hocc.
      { intros Hnil. rewrite Hnil in Hd. done. }
      apply (build_indexes_inverted stem stop_words documents t d Hnd) in Hocc
        as (ids & Hids & _).
      destruct (decide (t ∈ (build_indexes stem stop_words documents).1.*1));
        [done|]. apply dict_get_None in n. congruence.
  - intros t ids Hin. apply dict_elem_get in Hin; [|done].
    by destruct (build_indexes_inverted_list stem stop_words documents t ids Hnd Hin)
      as (_ & Hs & _).
  - intros t postings Hin. apply dict_elem_get in Hin; [|done].
    destruct (build_indexes_positional_entry stem stop_words documents t postings Hnd Hin)
      as (Hs & Hn & _). by apply sorted_NoDup_strict.
Qed.

Lemma build_indexes_ordered_witness :
  NoDup docs_example.*1
  ∧ StronglySorted String.le (build_indexes stem_id {["is"; "for"]} docs_example).1.*1
  ∧ NoDup (build_indexes stem_id {["is"; "for"]} docs_example).1.*1
  ∧ (build_indexes stem_id {["is"; "for"]} docs_example).1.*1
    = (build_indexes stem_id {["is"; "for"]} docs_example).2.*1
  ∧ (∀ t ids,
       (t, ids) ∈ (build_indexes stem_id {["is"; "for"]} docs_example).1 →
       StronglySorted Z.lt ids)
  ∧ ∀ t postings,
      (t, postings) ∈ (build_indexes stem_id {["is"; "for"]} docs_example).2 →
      StronglySorted Z.lt postings.*1.
Proof.
  assert (NoDup docs_example.*1) as Hnd.
  { apply (bool_decide_unpack _). vm_compute. exact I. }
  split; [exact Hnd|].
  exact (build_indexes_ordered stem_id {["is"; "for"]} docs_example Hnd).
Defined.

Lemma build_indexes_order_independent_witness :
  NoDup docs_example.*1
  ∧ docs_example ≡ₚ [(2, "mining data for gold"); (1, "data mining is fun")]
  ∧ build_indexes stem_id {["is"; "for"]} docs_example
    = build_indexes stem_id {["is"; "for"]}
        [(2, "mining data for gold"); (1, "data mining is fun")].
Proof.
  assert (NoDup docs_example.*1) as Hnd.
  { apply (bool_decide_unpack _). vm_compute. exact I. }
  assert (docs_example ≡ₚ [(2, "mining data for gold"); (1, "data mining is fun")])
    as Hp by apply Permutation_swap.
  split; [exact Hnd|]. split; [exact Hp|].
  exact (build_indexes_order_independent stem_id {["is"; "for"]} docs_example
           [(2, "mining data for gold"); (1, "data mining is fun")] Hnd Hp).
Defined.

(** X5. Every term of a built index is the first token of some white-space
    slot of some document of the collection and is not a stopword, and every
    document id listed for it is an id of the collection. *)
Theorem build_indexes_terms_from_documents
    (stem : string → string) (stop_words : gset string) (documents : list (Z * string))
    (t : string) (ids : list Z) :
  NoDup documents.*1 →
  (t, ids) ∈ (build_indexes stem stop_words documents).1 →
  (t ∉ stop_words)
  ∧ (∃ d document w,
       (d, document) ∈ documents ∧ w ∈ Str.split document
       ∧ head (preprocess stem stop_words w) = Some t)
  ∧ ∀ d, d ∈ ids → d ∈ documents.*1.
Proof.
  intros Hnd Hin.
  destruct (build_indexes_well_formed stem stop_words documents Hnd) as (N1 & _ & _).
  apply dict_elem_get in Hin; [|done].
  destruct (build_indexes_inverted_list stem stop_words documents t ids Hnd Hin)
    as (Hne & _ & Hmem).
  assert (∀ d, d ∈ ids →
            ∃ document w, (d, document) ∈ documents ∧ w ∈ Str.split document
                          ∧ head (preprocess stem stop_words w) = Some t) as Hslot.
  { intros d Hd. apply Hmem in Hd. unfold occurrences_in in Hd.
    destruct (Dict.get d documents) as [document|] eqn:Hdoc; [|done].
    destruct (occurrences stem stop_words t (enumerate (Str.split document)))
      as [|p ps] eqn:Hocc; [done|].
    assert (p ∈ occurrences stem stop_words t (enumerate (Str.split document))) as Hp
      by (rewrite Hocc; apply list_elem_of_here).
    apply elem_of_occurrences in Hp as (_ & w & Hw & Ht).
    exists document, w. split_and!; [by apply dict_get_elem| |done].
    by eapply list_elem_of_lookup_2. }
  destruct ids as [|d0 ids0] eqn:Hids; [done|]. rewrite <- Hids in *.
  destruct (Hslot d0) as (document & w & Hdoc & Hw & Ht).
  { rewrite Hids. apply list_elem_of_here. }
  split_and!.
  - apply (preprocess_no_stopword stem stop_words w).
    destruct (preprocess stem stop_words w) as [|t' r]; simplify_eq/=.
    apply list_elem_of_here.
  - by exists d0, document, w.
  - intros d Hd. destruct (Hslot d Hd) as (doc & _ & Hdoc' & _).
    apply list_elem_of_fmap. by exists (d, doc).
Qed.

Lemma build_indexes_terms_from_documents_witness :
  NoDup docs_example.*1
  ∧ ("gold", [2]) ∈ (build_indexes stem_id {["is"; "for"]} docs_example).1
  ∧ ("gold" ∉ ({["is"; "for"]} : gset string))
  ∧ (∃ d document w,
       (d, document) ∈ docs_example ∧ w ∈ Str.split document
       ∧ head (preprocess stem_id {["is"; "for"]} w) = Some "gold")
  ∧ ∀ d, d ∈ [2] → d ∈ docs_example.*1.
Proof.
  assert (NoDup docs_example.*1) as Hnd.
  { apply (bool_decide_unpack _). vm_compute. exact I. }
  assert (("gold", [2]) ∈ (build_indexes stem_id {["is"; "for"]} docs_example).1) as Hin.
  { apply (bool_decide_unpack _). vm_compute. exact I. }
  split; [exact Hnd|]. split; [exact Hin|].
  exact (build_indexes_terms_from_documents stem_id {["is"; "for"]} docs_example
           "gold" [2] Hnd Hin).
Defined.

(** ** Boolean query evaluator: what a query means *)

Lemma fold_exn_preserves {A S} (P : S → Prop) (f : S → A → exn + S) (l : list A) :
  (∀ st a st', P st → f st a = ok st' → P st') →
  ∀ st st', P st → Codec.fold_exn f st l = ok st' → P st'.
Proof.
  intros Hf. induction l as [|a l IH]; intros st st' Hst; cbn [Codec.fold_exn].
  - by intros [= <-].
  - destruct (f st a) as [e|st1] eqn:Ha; [done|]. cbn [bind]. eauto.
Qed.

Lemma elem_of_postings_of (inverted_index : list (string * list Z)) (t : string) (d : Z) :
  d ∈ postings_of inverted_index t
  ↔ ∃ ids, Dict.get t inverted_index = Some ids ∧ d ∈ ids.
Proof.
  unfold postings_of. rewrite elem_of_list_to_set.
  destruct (Dict.get t inverted_index) as [ids|]; simpl.
  - split; [eauto|]. by intros (? & [= <-] & ?).
  - split; [by intros ?%elem_of_nil|]. by intros (? & [=] & _).
Qed.

Section BooleanSemantics.

Variable stem : string → string.
Variable stop_words : gset string.
Variable inverted_index : list (string * list Z).
Variable all_documents : gset Z.

Local Abbreviation step := (boolean_step stem stop_words inverted_index all_documents).
Local Abbreviation run := (Codec.fold_exn step).
Local Abbreviation post := (postings_of inverted_index).
Local Abbreviation search_term := (search_term stem stop_words).

Lemma step_raise_inv st term e :
  step st term = raise e →
  is_operator term = false ∧ preprocess stem stop_words term = [].
Proof.
  unfold boolean_step, is_operator, first_token.
  destruct (is_keyword "and" term); [done|].
  destruct (is_keyword "or" term); [done|].
  destruct (is_keyword "not" term); [done|].
  by destruct (preprocess stem stop_words term).
Qed.

Lemma run_raises terms st e :
  run st terms = raise e
  ↔ e = IndexError
    ∧ ∃ term, term ∈ terms ∧ is_operator term = false
              ∧ preprocess stem stop_words term = [].
Proof.
  revert st. induction terms as [|x terms IH]; intros st; cbn [Codec.fold_exn].
  - split; [done|]. by intros (_ & ? & ?%elem_of_nil & _).
  - destruct (step st x) as [e'|st1] eqn:Hx; cbn [bind].
    + pose proof (boolean_step_raises _ _ _ _ _ _ _ Hx) as ->.
      pose proof (step_raise_inv _ _ _ Hx) as [Hop Hpre].
      split.
      * intros [= <-]. split; [done|]. exists x. split; [apply list_elem_of_here|done].
      * by intros [-> _].
    + rewrite IH. split.
      * intros (-> & term & Hin & ?). split; [done|].
        exists term. split; [by apply list_elem_of_further|done].
      * intros (-> & term & Hin & Hop & Hpre). split; [done|].
        apply elem_of_cons in Hin as [->|Hin]; [|eauto].
        by rewrite (boolean_step_empty_term stem stop_words) in Hx.
Qed.

Lemma step_search st word token :
  search_term word token →
  step st word
  = ok (BqState
          (let term_results :=
             if not_flag st then all_documents ∖ post token else post token in
           match last_operation st with
           | Some AND => result_set st ∩ term_results
           | Some OR => result_set st ∪ term_results
           | None => term_results
           end)
          (last_operation st) (not_flag st)).
Proof.
  intros (_ & Hop & Htoken). unfold slot_term in Htoken.
  destruct (preprocess stem stop_words word) as [|t rest] eqn:Hpre; [done|].
  injection Htoken as ->. by apply (step_term _ _ _ _ _ _ _ rest).
Qed.

Lemma search_term_word word token : search_term word token → is_word word = true.
Proof. by intros (? & _). Qed.

Lemma run_and_chain more tokens st :
  Forall2 search_term more tokens →
  not_flag st = false →
  ∃ st', run st (flat_map (λ word, ["AND"; word]) more) = ok st'
         ∧ not_flag st' = false
         ∧ ∀ d, d ∈ result_set st' ↔ d ∈ result_set st ∧ ∀ t, t ∈ tokens → d ∈ post t.
Proof.
  intros Hall. revert st. induction Hall as [|word token more tokens Hw _ IH]; intros st Hnf.
  - exists st. split; [done|]. split; [done|]. intros d. split; [|by intros [? _]].
    intros ?. split; [done|]. by intros ? ?%elem_of_nil.
  - cbn [flat_map app Codec.fold_exn]. rewrite step_AND. cbn [bind].
    rewrite (step_search _ _ _ Hw). cbn [bind last_operation not_flag result_set].
    destruct (IH (BqState (result_set st ∩ post token) (Some AND) false) eq_refl)
      as (st' & -> & Hnf' & Hst').
    exists st'. split; [done|]. split; [done|]. intros d.
    rewrite Hst'. cbn [result_set]. rewrite elem_of_intersection. split.
    + intros [[? ?] Hrest]. split; [done|].
      by intros t [->|?]%elem_of_cons; [|apply Hrest].
    + intros [? Hall']. split_and!; [done|apply Hall', list_elem_of_here|].
      intros t ?. by apply Hall', list_elem_of_further.
Qed.

Lemma run_or_chain more tokens st :
  Forall2 search_term more tokens →
  not_flag st = false →
  ∃ st', run st (flat_map (λ word, ["OR"; word]) more) = ok st'
         ∧ not_flag st' = false
         ∧ ∀ d, d ∈ result_set st' ↔ d ∈ result_set st ∨ ∃ t, t ∈ tokens ∧ d ∈ post t.
Proof.
  intros Hall. revert st. induction Hall as [|word token more tokens Hw _ IH]; intros st Hnf.
  - exists st. split; [done|]. split; [done|]. intros d. split; [by left|].
    by intros [?|(? & ?%elem_of_nil & _)].
  - cbn [flat_map app Codec.fold_exn]. rewrite step_OR. cbn [bind].
    rewrite (step_search _ _ _ Hw). cbn [bind last_operation not_flag result_set].
    destruct (IH (BqState (result_set st ∪ post token) (Some OR) false) eq_refl)
      as (st' & -> & Hnf' & Hst').
    exists st'. split; [done|]. split; [done|]. intros d.
    rewrite Hst'. cbn [result_set]. rewrite elem_of_union. split.
    + intros [[?|?]|(t & ? & ?)]; [by left|right..].
      * exists token. split; [apply list_elem_of_here|done].
      * exists t. split; [by apply list_elem_of_further|done].
    + intros [?|(t & [->|?]%elem_of_cons & ?)]; [by left; left|by left; right|].
      right. eauto.
Qed.

Lemma chain_words (op : string) more tokens :
  is_word op = true →
  Forall2 search_term more tokens →
  Forall (λ w, is_word w = true) (flat_map (λ word, [op; word]) more).
Proof.
  intros Hop. induction 1 as [|word token more tokens Hw _ IH]; [constructor|].
  cbn [flat_map app]. constructor; [done|]. constructor; [|done].
  by eapply search_term_word.
Qed.

End BooleanSemantics.

(** X6. [boolean_query] raises exactly when some search term of the query
    normalizes to no token, and then it raises [IndexError]; in every other
    case it returns a list. *)
Theorem boolean_query_raises_iff
    (stem : string → string) (stop_words : gset string) (query : string)
    (inverted_index : list (string * list Z)) (all_documents : gset Z) (e : exn) :
  boolean_query stem stop_words query inverted_index all_documents = raise e
  ↔ e = IndexError
    ∧ ∃ term, term ∈ Str.split query ∧ is_operator term = false
              ∧ preprocess stem stop_words term = [].
Proof.
  rewrite <- (run_raises stem stop_words inverted_index all_documents
                (Str.split query) (BqState ∅ None false) e).
  unfold boolean_query.
  destruct (Codec.fold_exn _ _ (Str.split query)); cbn [bind].
  - split; by intros [= ->].
  - by split.
Qed.

(** X7. A list returned by [boolean_query] is strictly ascending, and each
    of its document ids is listed under some term of the index or belongs
    to the universe handed in. *)
Theorem boolean_query_result_sorted
    (stem : string → string) (stop_words : gset string) (query : string)
    (inverted_index : list (string * list Z)) (all_documents : gset Z)
    (result : list Z) :
  boolean_query stem stop_words query inverted_index all_documents = ok result →
  StronglySorted Z.lt result
  ∧ ∀ d, d ∈ result →
         d ∈ all_documents
         ∨ ∃ t ids, Dict.get t inverted_index = Some ids ∧ d ∈ ids.
Proof.
  unfold boolean_query.
  destruct (Codec.fold_exn _ _ (Str.split query)) as [e|st] eqn:Hrun; [done|].
  cbn [bind]. intros [= <-]. split.
  - apply sorted_ints_strict, NoDup_elements.
  - intros d Hd%elem_of_sorted_ints. revert d Hd.
    refine (fold_exn_preserves
              (λ st, ∀ d, d ∈ result_set st →
                          d ∈ all_documents
                          ∨ ∃ t ids, Dict.get t inverted_index = Some ids ∧ d ∈ ids)
              _ _ _ _ _ _ Hrun).
    + clear. intros st term st' Hst. unfold boolean_step, first_token.
      destruct (is_keyword "and" term); [by intros [= <-]|].
      destruct (is_keyword "or" term); [by intros [= <-]|].
      destruct (is_keyword "not" term); [by intros [= <-]|].
      destruct (preprocess stem stop_words term) as [|t rest]; [done|].
      cbn [bind]. intros [= <-] d. cbn [result_set].
      assert (∀ d, d ∈ (if not_flag st
                        then all_documents ∖ postings_of inverted_index t
                        else postings_of inverted_index t) →
                   d ∈ all_documents
                   ∨ ∃ t ids, Dict.get t inverted_index = Some ids ∧ d ∈ ids) as Hterm.
      { intros d'. destruct (not_flag st).
        - intros [? _]%elem_of_difference. by left.
        - intros ?%elem_of_postings_of. right. eauto. }
      destruct (last_operation st) as [[]|].
      * intros [? _]%elem_of_intersection. auto.
      * intros [?|?]%elem_of_union; auto.
      * auto.
    + by intros d ?%not_elem_of_empty.
Qed.

Lemma boolean_query_result_sorted_witness :
  boolean_query stem_id ∅ "gold OR NOT data" [("data", [1; 3]); ("gold", [3; 1])] {[1; 2]}
  = ok [1; 2; 3]
  ∧ StronglySorted Z.lt [1; 2; 3]
  ∧ ∀ d, d ∈ [1; 2; 3] →
         d ∈ ({[1; 2]} : gset Z)
         ∨ ∃ t ids, Dict.get t [("data", [1; 3]); ("gold", [3; 1])] = Some ids ∧ d ∈ ids.
Proof.
  assert (boolean_query stem_id ∅ "gold OR NOT data"
            [("data", [1; 3]); ("gold", [3; 1])] {[1; 2]} = ok [1; 2; 3]) as Hq
    by (vm_compute; reflexivity).
  split; [exact Hq|].
  exact (boolean_query_result_sorted stem_id ∅ "gold OR NOT data"
           [("data", [1; 3]); ("gold", [3; 1])] {[1; 2]} [1; 2; 3] Hq).
Defined.

(** X8. A chain of search terms joined by AND returns the documents listed
    under every one of the terms, a chain joined by OR those listed under
    at least one of them. *)
Theorem boolean_query_chains
    (stem : string → string) (stop_words : gset string)
    (inverted_index : list (string * list Z)) (all_documents : gset Z)
    (first token : string) (more tokens : list string) :
  search_term stem stop_words first token →
  Forall2 (search_term stem stop_words) more tokens →
  ∃ every some,
    boolean_query stem stop_words
      (Str.join " " (first :: flat_map (λ word, ["AND"; word]) more))
      inverted_index all_documents = ok every
    ∧ boolean_query stem stop_words
        (Str.join " " (first :: flat_map (λ word, ["OR"; word]) more))
        inverted_index all_documents = ok some
    ∧ (∀ d, d ∈ every ↔ ∀ t, t ∈ token :: tokens → d ∈ postings_of inverted_index t)
    ∧ (∀ d, d ∈ some ↔ ∃ t, t ∈ token :: tokens ∧ d ∈ postings_of inverted_index t).
Proof.
  intros Hfirst Hmore.
  destruct (run_and_chain stem stop_words inverted_index all_documents more tokens
              (BqState (postings_of inverted_index token) None false) Hmore eq_refl)
    as (st_and & Hand & _ & Hevery).
  destruct (run_or_chain stem stop_words inverted_index all_documents more tokens
              (BqState (postings_of inverted_index token) None false) Hmore eq_refl)
    as (st_or & Hor & _ & Hsome).
  exists (sorted_set (result_set st_and)), (sorted_set (result_set st_or)).
  split_and!.
  - unfold boolean_query. rewrite split_join.
    + cbn [Codec.fold_exn]. rewrite (step_search _ _ _ _ _ _ _ Hfirst). cbn [bind].
      cbn [last_operation not_flag]. by rewrite Hand.
    + constructor; [by eapply search_term_word|by eapply chain_words].
  - unfold boolean_query. rewrite split_join.
    + cbn [Codec.fold_exn]. rewrite (step_search _ _ _ _ _ _ _ Hfirst). cbn [bind].
      cbn [last_operation not_flag]. by rewrite Hor.
    + constructor; [by eapply search_term_word|by eapply chain_words].
  - intros d. unfold sorted_set. rewrite elem_of_sorted_ints, Hevery. cbn [result_set].
    split.
    + intros [? Hrest] t [->|?]%elem_of_cons; [done|by apply Hrest].
    + intros Hall. split; [apply Hall, list_elem_of_here|].
      intros t ?. by apply Hall, list_elem_of_further.
  - intros d. unfold sorted_set. rewrite elem_of_sorted_ints, Hsome. cbn [result_set].
    split.
    + intros [?|(t & ? & ?)].
      * exists token. split; [apply list_elem_of_here|done].
      * exists t. split; [by apply list_elem_of_further|done].
    + intros (t & [->|?]%elem_of_cons & ?); [by left|right; eauto].
Qed.

Lemma boolean_query_chains_witness :
  search_term stem_id ∅ "data" "data"
  ∧ Forall2 (search_term stem_id ∅) ["gold"; "fun"] ["gold"; "fun"]
  ∧ ∃ every some,
      boolean_query stem_id ∅
        (Str.join " " ("data" :: flat_map (λ word, ["AND"; word]) ["gold"; "fun"]))
        [("data", [1; 2]); ("fun", [1]); ("gold", [2])] {[1; 2]} = ok every
      ∧ boolean_query stem_id ∅
          (Str.join " " ("data" :: flat_map (λ word, ["OR"; word]) ["gold"; "fun"]))
          [("data", [1; 2]); ("fun", [1]); ("gold", [2])] {[1; 2]} = ok some
      ∧ (∀ d, d ∈ every
              ↔ ∀ t, t ∈ ["data"; "gold"; "fun"] →
                     d ∈ postings_of [("data", [1; 2]); ("fun", [1]); ("gold", [2])] t)
      ∧ (∀ d, d ∈ some
              ↔ ∃ t, t ∈ ["data"; "gold"; "fun"]
                     ∧ d ∈ postings_of [("data", [1; 2]); ("fun", [1]); ("gold", [2])] t).
Proof.
  assert (∀ w, w ∈ ["data"; "gold"; "fun"] → search_term stem_id ∅ w w) as Hterm.
  { intros w Hw. repeat (apply elem_of_cons in Hw as [->|Hw]);
      [split_and!; vm_compute; reflexivity..|by apply elem_of_nil in Hw]. }
  assert (search_term stem_id ∅ "data" "data") as H1
    by (apply Hterm; repeat constructor).
  assert (Forall2 (search_term stem_id ∅) ["gold"; "fun"] ["gold"; "fun"]) as H2
    by (repeat constructor; apply Hterm; repeat constructor).
  split; [exact H1|]. split; [exact H2|].
  exact (boolean_query_chains stem_id ∅ [("data", [1; 2]); ("fun", [1]); ("gold", [2])]
           {[1; 2]} "data" "data" ["gold"; "fun"] ["gold"; "fun"] H1 H2).
Defined.

(** X9. AND and OR have no precedence over each other: a query is
    evaluated from left to right, so ["A OR B AND C"] is (A or B) and C,
    and ["A AND B OR C"] is (A and B) or C. *)
Theorem boolean_query_left_to_right
    (stem : string → string) (stop_words : gset string)
    (inverted_index : list (string * list Z)) (all_documents : gset Z)
    (A B C a b c : string) :
  search_term stem stop_words A a →
  search_term stem stop_words B b →
  search_term stem stop_words C c →
  boolean_query stem stop_words (Str.join " " [A; "OR"; B; "AND"; C])
    inverted_index all_documents
  = ok (sorted_set ((postings_of inverted_index a ∪ postings_of inverted_index b)
                    ∩ postings_of inverted_index c))
  ∧ boolean_query stem stop_words (Str.join " " [A; "AND"; B; "OR"; C])
      inverted_index all_documents
    = ok (sorted_set ((postings_of inverted_index a ∩ postings_of inverted_index b)
                      ∪ postings_of inverted_index c)).
Proof.
  intros HA HB HC.
  pose proof (search_term_word _ _ _ _ HA). pose proof (search_term_word _ _ _ _ HB).
  pose proof (search_term_word _ _ _ _ HC).
  split; unfold boolean_query; (rewrite split_join by (repeat constructor; done));
    cbn [Codec.fold_exn];
    rewrite (step_search _ _ _ _ _ _ _ HA); cbn [bind];
    rewrite ?step_AND, ?step_OR; cbn [bind];
    rewrite (step_search _ _ _ _ _ _ _ HB); cbn [bind];
    rewrite ?step_AND, ?step_OR; cbn [bind];
    rewrite (step_search _ _ _ _ _ _ _ HC); cbn [bind]; reflexivity.
Qed.

Lemma boolean_query_left_to_right_witness :
  search_term stem_id ∅ "data" "data"
  ∧ search_term stem_id ∅ "gold" "gold"
  ∧ search_term stem_id ∅ "fun" "fun"
  ∧ boolean_query stem_id ∅ (Str.join " " ["data"; "OR"; "gold"; "AND"; "fun"])
      [("data", [1; 2]); ("fun", [1]); ("gold", [2])] {[1; 2]}
    = ok (sorted_set
            ((postings_of [("data", [1; 2]); ("fun", [1]); ("gold", [2])] "data"
              ∪ postings_of [("data", [1; 2]); ("fun", [1]); ("gold", [2])] "gold")
             ∩ postings_of [("data", [1; 2]); ("fun", [1]); ("gold", [2])] "fun"))
  ∧ boolean_query stem_id ∅ (Str.join " " ["data"; "AND"; "gold"; "OR"; "fun"])
      [("data", [1; 2]); ("fun", [1]); ("gold", [2])] {[1; 2]}
    = ok (sorted_set
            ((postings_of [("data", [1; 2]); ("fun", [1]); ("gold", [2])] "data"
              ∩ postings_of [("data", [1; 2]); ("fun", [1]); ("gold", [2])] "gold")
             ∪ postings_of [("data", [1; 2]); ("fun", [1]); ("gold", [2])] "fun")).
Proof.
  assert (search_term stem_id ∅ "data" "data") as H1
    by (split_and!; vm_compute; reflexivity).
  assert (search_term stem_id ∅ "gold" "gold") as H2
    by (split_and!; vm_compute; reflexivity).
  assert (search_term stem_id ∅ "fun" "fun") as H3
    by (split_and!; vm_compute; reflexivity).
  split; [exact H1|]. split; [exact H2|]. split; [exact H3|].
  exact (boolean_query_left_to_right stem_id ∅
           [("data", [1; 2]); ("fun", [1]); ("gold", [2])] {[1; 2]}
           "data" "gold" "fun" "data" "gold" "fun" H1 H2 H3).
Defined.

(** X10. NOT takes the complement within the universe handed in, and two
    NOTs cancel: ["NOT A"] returns the universe without the documents of A,
    ["A AND NOT B"] the documents of A that are in the universe and not
    under B, and ["NOT NOT A"] the documents of A. *)
Theorem boolean_query_negation
    (stem : string → string) (stop_words : gset string)
    (inverted_index : list (string * list Z)) (all_documents : gset Z)
    (A B a b : string) :
  search_term stem stop_words A a →
  search_term stem stop_words B b →
  boolean_query stem stop_words (Str.join " " ["NOT"; A]) inverted_index all_documents
  = ok (sorted_set (all_documents ∖ postings_of inverted_index a))
  ∧ boolean_query stem stop_words (Str.join " " [A; "AND"; "NOT"; B])
      inverted_index all_documents
    = ok (sorted_set (postings_of inverted_index a
                      ∩ (all_documents ∖ postings_of inverted_index b)))
  ∧ boolean_query stem stop_words (Str.join " " ["NOT"; "NOT"; A])
      inverted_index all_documents
    = ok (sorted_set (postings_of inverted_index a)).
Proof.
  intros HA HB.
  pose proof (search_term_word _ _ _ _ HA). pose proof (search_term_word _ _ _ _ HB).
  split_and!; unfold boolean_query; (rewrite split_join by (repeat constructor; done));
    cbn [Codec.fold_exn];
    rewrite ?step_NOT, ?(step_search _ _ _ _ _ _ _ HA); cbn [bind];
    rewrite ?step_NOT, ?step_AND, ?(step_search _ _ _ _ _ _ _ HA); cbn [bind];
    rewrite ?step_NOT, ?(step_search _ _ _ _ _ _ _ HA); cbn [bind];
    rewrite ?(step_search _ _ _ _ _ _ _ HB); cbn [bind]; reflexivity.
Qed.

Lemma boolean_query_negation_witness :
  search_term stem_id ∅ "data" "data"
  ∧ search_term stem_id ∅ "gold" "gold"
  ∧ boolean_query stem_id ∅ (Str.join " " ["NOT"; "data"])
      [("data", [1; 3]); ("gold", [3])] {[1; 2]}
    = ok (sorted_set ({[1; 2]} ∖ postings_of [("data", [1; 3]); ("gold", [3])] "data"))
  ∧ boolean_query stem_id ∅ (Str.join " " ["data"; "AND"; "NOT"; "gold"])
      [("data", [1; 3]); ("gold", [3])] {[1; 2]}
    = ok (sorted_set (postings_of [("data", [1; 3]); ("gold", [3])] "data"
                      ∩ ({[1; 2]} ∖ postings_of [("data", [1; 3]); ("gold", [3])] "gold")))
  ∧ boolean_query stem_id ∅ (Str.join " " ["NOT"; "NOT"; "data"])
      [("data", [1; 3]); ("gold", [3])] {[1; 2]}
    = ok (sorted_set (postings_of [("data", [1; 3]); ("gold", [3])] "data")).
Proof.
  assert (search_term stem_id ∅ "data" "data") as H1
    by (split_and!; vm_compute; reflexivity).
  assert (search_term stem_id ∅ "gold" "gold") as H2
    by (split_and!; vm_compute; reflexivity).
  split; [exact H1|]. split; [exact H2|].
  exact (boolean_query_negation stem_id ∅ [("data", [1; 3]); ("gold", [3])] {[1; 2]}
           "data" "gold" "data" "gold" H1 H2).
Defined.

(** X11. Two search terms with no AND or OR between them are not combined:
    before the first AND or OR the later term replaces the result of the
    earlier one, so ["A B"] returns the documents of B alone.  A NOT stays
    in force until the next AND or OR, so ["NOT A B"] returns the universe
    without the documents of B; after an operator the operator is applied
    again, so ["A AND B C"] is A and B and C. *)
Theorem boolean_query_juxtaposed_terms
    (stem : string → string) (stop_words : gset string)
    (inverted_index : list (string * list Z)) (all_documents : gset Z)
    (A B C a b c : string) :
  search_term stem stop_words A a →
  search_term stem stop_words B b →
  search_term stem stop_words C c →
  boolean_query stem stop_words (Str.join " " [A; B]) inverted_index all_documents
  = ok (sorted_set (postings_of inverted_index b))
  ∧ boolean_query stem stop_words (Str.join " " ["NOT"; A; B])
      inverted_index all_documents
    = ok (sorted_set (all_documents ∖ postings_of inverted_index b))
  ∧ boolean_query stem stop_words (Str.join " " [A; "AND"; B; C])
      inverted_index all_documents
    = ok (sorted_set (postings_of inverted_index a ∩ postings_of inverted_index b
                      ∩ postings_of inverted_index c)).
Proof.
  intros HA HB HC.
  pose proof (search_term_word _ _ _ _ HA). pose proof (search_term_word _ _ _ _ HB).
  pose proof (search_term_word _ _ _ _ HC).
  split_and!; unfold boolean_query; (rewrite split_join by (repeat constructor; done));
    cbn [Codec.fold_exn];
    rewrite ?step_NOT, ?(step_search _ _ _ _ _ _ _ HA); cbn [bind];
    rewrite ?step_AND, ?(step_search _ _ _ _ _ _ _ HA), ?(step_search _ _ _ _ _ _ _ HB);
    cbn [bind];
    rewrite ?(step_search _ _ _ _ _ _ _ HB); cbn [bind];
    rewrite ?(step_search _ _ _ _ _ _ _ HC); cbn [bind]; reflexivity.
Qed.

Lemma boolean_query_juxtaposed_terms_witness :
  search_term stem_id ∅ "data" "data"
  ∧ search_term stem_id ∅ "gold" "gold"
  ∧ search_term stem_id ∅ "fun" "fun"
  ∧ boolean_query stem_id ∅ (Str.join " " ["data"; "gold"])
      [("data", [1; 2]); ("fun", [1]); ("gold", [2])] {[1; 2; 3]}
    = ok (sorted_set (postings_of [("data", [1; 2]); ("fun", [1]); ("gold", [2])] "gold"))
  ∧ boolean_query stem_id ∅ (Str.join " " ["NOT"; "data"; "gold"])
      [("data", [1; 2]); ("fun", [1]); ("gold", [2])] {[1; 2; 3]}
    = ok (sorted_set
            ({[1; 2; 3]}
             ∖ postings_of [("data", [1; 2]); ("fun", [1]); ("gold", [2])] "gold"))
  ∧ boolean_query stem_id ∅ (Str.join " " ["data"; "AND"; "gold"; "fun"])
      [("data", [1; 2]); ("fun", [1]); ("gold", [2])] {[1; 2; 3]}
    = ok (sorted_set
            (postings_of [("data", [1; 2]); ("fun", [1]); ("gold", [2])] "data"
             ∩ postings_of [("data", [1; 2]); ("fun", [1]); ("gold", [2])] "gold"
             ∩ postings_of [("data", [1; 2]); ("fun", [1]); ("gold", [2])] "fun")).
Proof.
  assert (search_term stem_id ∅ "data" "data") as H1
    by (split_and!; vm_compute; reflexivity).
  assert (search_term stem_id ∅ "gold" "gold") as H2
    by (split_and!; vm_compute; reflexivity).
  assert (search_term stem_id ∅ "fun" "fun") as H3
    by (split_and!; vm_compute; reflexivity).
  split; [exact H1|]. split; [exact H2|]. split; [exact H3|].
  exact (boolean_query_juxtaposed_terms stem_id ∅
           [("data", [1; 2]); ("fun", [1]); ("gold", [2])] {[1; 2; 3]}
           "data" "gold" "fun" "data" "gold" "fun" H1 H2 H3).
Defined.

Lemma run_after_and
    (stem : string → string) (stop_words : gset string)
    (inverted_index : list (string * list Z)) (all_documents : gset Z)
    (terms : list string) (st st' : bq_state) :
  Forall (λ term, is_keyword "or" term = false) terms →
  result_set st = ∅ → last_operation st = Some AND →
  Codec.fold_exn (boolean_step stem stop_words inverted_index all_documents) st terms
  = ok st' →
  result_set st' = ∅.
Proof.
  intros Hall. revert st. induction Hall as [|term terms Hor _ IH]; intros st Hres Hop.
  - by intros [= <-].
  - cbn [Codec.fold_exn].
    destruct (boolean_step stem stop_words inverted_index all_documents st term)
      as [e|st1] eqn:Hstep; [done|].
    cbn [bind]. apply IH.
    + revert Hstep. unfold boolean_step, first_token. rewrite Hor.
      destruct (is_keyword "and" term); [by intros [= <-]|].
      destruct (is_keyword "not" term); [by intros [= <-]|].
      destruct (preprocess stem stop_words term); [done|].
      cbn [bind]. intros [= <-]. cbn [result_set]. rewrite Hop, Hres.
      apply (left_absorb_L ∅ (∩)).
    + revert Hstep. unfold boolean_step, first_token. rewrite Hor.
      destruct (is_keyword "and" term); [by intros [= <-]|].
      destruct (is_keyword "not" term); [by intros [= <-]|].
      destruct (preprocess stem stop_words term); [done|].
      cbn [bind]. by intros [= <-].
Qed.

(** X12. A query that starts with AND and has no OR returns no document:
    the result set is empty at the start and an intersection keeps it so.
    Unless one of its search terms normalizes to no token, such a query
    returns the empty list. *)
Theorem boolean_query_leading_and
    (stem : string → string) (stop_words : gset string) (query : string)
    (inverted_index : list (string * list Z)) (all_documents : gset Z)
    (first : string) (rest : list string) :
  Str.split query = first :: rest →
  is_keyword "and" first = true →
  Forall (λ term, is_keyword "or" term = false) rest →
  Forall (λ term, is_operator term = false → preprocess stem stop_words term ≠ []) rest →
  boolean_query stem stop_words query inverted_index all_documents = ok [].
Proof.
  intros Hsplit Hand Hor Hterms. unfold boolean_query. rewrite Hsplit.
  destruct (Codec.fold_exn _ _ (first :: rest)) as [e|st'] eqn:Hrun; cbn [bind].
  - apply run_raises in Hrun as (_ & term & Hin & Hop & Hpre).
    apply elem_of_cons in Hin as [->|Hin].
    + unfold is_operator in Hop. by rewrite Hand in Hop.
    + rewrite Forall_forall in Hterms. by destruct (Hterms term Hin Hop).
  - cbn [Codec.fold_exn] in Hrun.
    assert (boolean_step stem stop_words inverted_index all_documents
              (BqState ∅ None false) first = ok (BqState ∅ (Some AND) false)) as Hfirst
      by (unfold boolean_step; by rewrite Hand).
    rewrite Hfirst in Hrun. cbn [bind] in Hrun.
    rewrite (run_after_and _ _ _ _ _ (BqState ∅ (Some AND) false) _ Hor eq_refl eq_refl
               Hrun).
    by rewrite sorted_ints_empty.
Qed.

Lemma boolean_query_leading_and_witness :
  Str.split "AND data NOT gold" = ["AND"; "data"; "NOT"; "gold"]
  ∧ is_keyword "and" "AND" = true
  ∧ Forall (λ term, is_keyword "or" term = false) ["data"; "NOT"; "gold"]
  ∧ Forall (λ term, is_operator term = false → preprocess stem_id ∅ term ≠ [])
      ["data"; "NOT"; "gold"]
  ∧ boolean_query stem_id ∅ "AND data NOT gold" [("data", [1; 2]); ("gold", [2])] {[1; 2]}
    = ok [].
Proof.
  assert (Str.split "AND data NOT gold" = ["AND"; "data"; "NOT"; "gold"]) as H1
    by (vm_compute; reflexivity).
  assert (is_keyword "and" "AND" = true) as H2 by (vm_compute; reflexivity).
  assert (Forall (λ term, is_keyword "or" term = false) ["data"; "NOT"; "gold"]) as H3
    by (repeat constructor).
  assert (Forall (λ term, is_operator term = false → preprocess stem_id ∅ term ≠ [])
            ["data"; "NOT"; "gold"]) as H4.
  { repeat constructor; intros Hop; vm_compute; discriminate. }
  split; [exact H1|]. split; [exact H2|]. split; [exact H3|]. split; [exact H4|].
  exact (boolean_query_leading_and stem_id ∅ "AND data NOT gold"
           [("data", [1; 2]); ("gold", [2])] {[1; 2]} "AND" ["data"; "NOT"; "gold"]
           H1 H2 H3 H4).
Defined.

Lemma run_without_not
    (stem : string → string) (stop_words : gset string)
    (inverted_index : list (string * list Z)) (all_documents other_documents : gset Z)
    (terms : list string) (st : bq_state) :
  Forall (λ term, is_keyword "not" term = false) terms →
  not_flag st = false →
  Codec.fold_exn (boolean_step stem stop_words inverted_index all_documents) st terms
  = Codec.fold_exn (boolean_step stem stop_words inverted_index other_documents) st terms.
Proof.
  intros Hall. revert st. induction Hall as [|term terms Hnot _ IH]; intros st Hnf; [done|].
  cbn [Codec.fold_exn].
  assert (boolean_step stem stop_words inverted_index all_documents st term
          = boolean_step stem stop_words inverted_index other_documents st term) as Hstep.
  { unfold boolean_step. by rewrite Hnf. }
  rewrite <- Hstep.
  destruct (boolean_step stem stop_words inverted_index all_documents st term)
    as [e|st1] eqn:Hst1; [done|].
  cbn [bind]. apply IH. revert Hst1. unfold boolean_step. rewrite Hnot.
  destruct (is_keyword "and" term); [by intros [= <-]|].
  destruct (is_keyword "or" term); [by intros [= <-]|].
  destruct (first_token stem stop_words term); [done|].
  cbn [bind]. by intros [= <-].
Qed.

(** X13. The universe of document ids is consulted for NOT only: a query
    without a NOT token gives the same answer whatever universe is handed
    in. *)
Theorem boolean_query_universe_only_for_not
    (stem : string → string) (stop_words : gset string) (query : string)
    (inverted_index : list (string * list Z)) (all_documents other_documents : gset Z) :
  Forall (λ term, is_keyword "not" term = false) (Str.split query) →
  boolean_query stem stop_words query inverted_index all_documents
  = boolean_query stem stop_words query inverted_index other_documents.
Proof.
  intros Hall. unfold boolean_query.
  by rewrite (run_without_not _ _ _ all_documents other_documents _
                (BqState ∅ None false) Hall eq_refl).
Qed.

Lemma boolean_query_universe_only_for_not_witness :
  Forall (λ term, is_keyword "not" term = false) (Str.split "data OR gold")
  ∧ boolean_query stem_id ∅ "data OR gold" [("data", [1; 2]); ("gold", [3])] {[1; 2; 3]}
    = boolean_query stem_id ∅ "data OR gold" [("data", [1; 2]); ("gold", [3])] ∅.
Proof.
  assert (Forall (λ term, is_keyword "not" term = false) (Str.split "data OR gold")) as H1.
  { apply (bool_decide_unpack _). vm_compute. exact I. }
  split; [exact H1|].
  exact (boolean_query_universe_only_for_not stem_id ∅ "data OR gold"
           [("data", [1; 2]); ("gold", [3])] {[1; 2; 3]} ∅ H1).
Defined.

(** ** Proximity query evaluator: errors, order and symmetry *)

Lemma int_of_str_raises (s : string) (e : exn) :
  Codec.int_of_str s = raise e → e = ValueError.
Proof.
  unfold Codec.int_of_str.
  destruct (match Codec.int_strip s with
            | String "-" r => (true, r)
            | String "+" r => (false, r)
            | _ => (false, Codec.int_strip s)
            end) as [negative body].
  destruct (Codec.parse_digits false 0 body); [done|]. by intros [= <-].
Qed.

Section ProximityErrors.

Variable stem : string → string.
Variable stop_words : gset string.
Variable word_tokenize : string → list string.

Context {K : Type} `{Countable K}.
Variable key_order : relation K.
Context `{!RelDecision key_order}.

Implicit Types (positional_index : list (string * list (K * list Z))).

Local Abbreviation prox :=
  (proximity_query stem stop_words word_tokenize key_order).

Lemma proximity_query_unfold query positional_index last_term k :
  last (word_tokenize query) = Some last_term →
  Codec.int_of_str last_term = ok k →
  prox query positional_index
  = let query_terms := preprocess stem stop_words query in
    let? result_set :=
      if forallb (λ term, Dict.mem term positional_index) query_terms then
        match query_terms with
        | [] => raise IndexError
        | first_term :: later_terms =>
            ok (scan_postings positional_index later_terms k
                  (default [] (Dict.get first_term positional_index)))
        end
      else ok ∅ in
    ok (merge_sort key_order (elements result_set)).
Proof.
  intros Hlast Hint. unfold proximity_query. rewrite Hlast. cbn [bind].
  by rewrite Hint.
Qed.

Lemma forallb_mem_false positional_index query_terms term :
  term ∈ query_terms → Dict.get term positional_index = None →
  forallb (λ term, Dict.mem term positional_index) query_terms = false.
Proof.
  intros Hin Hget. apply not_true_is_false. intros Hall.
  rewrite forallb_forall in Hall. apply list_elem_of_In, Hall in Hin.
  apply dict_mem_spec in Hin as [? ?]. congruence.
Qed.

Lemma sorted_keys_empty : merge_sort key_order (elements (∅ : gset K)) = [].
Proof. by rewrite elements_empty. Qed.

End ProximityErrors.

(** X14. For a query whose last token has at most 4300 characters (the
    length up to which [int] reads every numeral), [proximity_query] raises
    in three cases only: [IndexError] when the tokenizer returns no token,
    [ValueError] when the last token is not an integer numeral, and
    [IndexError] when the distance is readable but no query term survives
    normalization.  In every other case it returns a list. *)
Theorem proximity_query_raises_iff
    (stem : string → string) (stop_words : gset string)
    (word_tokenize : string → list string)
    {K : Type} `{Countable K} (key_order : relation K) `{!RelDecision key_order}
    (query : string) (positional_index : list (string * list (K * list Z))) (e : exn) :
  (∀ last_term, last (word_tokenize query) = Some last_term →
                (String.length last_term ≤ 4300)%nat) →
  proximity_query stem stop_words word_tokenize key_order query positional_index = raise e
  ↔ (word_tokenize query = [] ∧ e = IndexError)
    ∨ (∃ last_term, last (word_tokenize query) = Some last_term
                    ∧ Codec.int_of_str last_term = raise ValueError ∧ e = ValueError)
    ∨ (∃ last_term k, last (word_tokenize query) = Some last_term
                      ∧ Codec.int_of_str last_term = ok k
                      ∧ preprocess stem stop_words query = [] ∧ e = IndexError).
Proof.
  intros _.
  destruct (last (word_tokenize query)) as [last_term|] eqn:Hlast.
  - destruct (Codec.int_of_str last_term) as [e'|k] eqn:Hint.
    + pose proof (int_of_str_raises _ _ Hint) as ->.
      unfold proximity_query. rewrite Hlast. cbn [bind]. rewrite Hint. cbn [bind]. split.
      * intros [= <-]. right. left. by exists last_term.
      * intros [[Hnil _]|[(? & _ & _ & ->)|(? & ? & [= <-] & ? & _)]];
          [by rewrite Hnil in Hlast|done|congruence].
    + rewrite (proximity_query_unfold _ _ _ _ _ _ last_term k Hlast Hint). cbv zeta.
      destruct (preprocess stem stop_words query) as [|first_term later_terms] eqn:Hpre.
      * cbn [forallb bind]. split.
        -- intros [= <-]. right. right. by exists last_term, k.
        -- intros [[Hnil _]|[(? & [= <-] & ? & _)|(? & ? & _ & _ & _ & ->)]];
             [by rewrite Hnil in Hlast|congruence|done].
      * destruct (forallb _ (first_term :: later_terms)); cbn [bind]; split; try done.
        -- intros [[Hnil _]|[(? & [= <-] & ? & _)|(? & ? & _ & _ & ? & _)]];
             [by rewrite Hnil in Hlast|congruence|done].
        -- intros [[Hnil _]|[(? & [= <-] & ? & _)|(? & ? & _ & _ & ? & _)]];
             [by rewrite Hnil in Hlast|congruence|done].
  - unfold proximity_query. rewrite Hlast. cbn [bind]. split.
    + intros [= <-]. left. split; [|done]. by apply last_None.
    + intros [[_ ->]|[(? & [=] & _)|(? & ? & [=] & _)]]. done.
Qed.

Lemma proximity_query_raises_iff_witness :
  (∀ last_term, last (tokenize_blank "data mining / two") = Some last_term →
                (String.length last_term ≤ 4300)%nat)
  ∧ proximity_query stem_id ∅ tokenize_blank Z.le "data mining / two"
      [("data", [(1, [0])]); ("mining", [(1, [1])])] = raise ValueError
  ∧ (proximity_query stem_id ∅ tokenize_blank Z.le "data mining / two"
       [("data", [(1, [0])]); ("mining", [(1, [1])])] = raise ValueError
     ↔ (tokenize_blank "data mining / two" = [] ∧ ValueError = IndexError)
       ∨ (∃ last_term, last (tokenize_blank "data mining / two") = Some last_term
                       ∧ Codec.int_of_str last_term = raise ValueError
                       ∧ ValueError = ValueError)
       ∨ (∃ last_term k, last (tokenize_blank "data mining / two") = Some last_term
                         ∧ Codec.int_of_str last_term = ok k
                         ∧ preprocess stem_id ∅ "data mining / two" = []
                         ∧ ValueError = IndexError)).
Proof.
  assert (∀ last_term, last (tokenize_blank "data mining / two") = Some last_term →
                       (String.length last_term ≤ 4300)%nat) as H1.
  { replace (last (tokenize_blank "data mining / two")) with (Some "two")
      by (vm_compute; reflexivity).
    intros last_term [= <-]. cbn [String.length]. lia. }
  split; [exact H1|]. split; [vm_compute; reflexivity|].
  exact (proximity_query_raises_iff stem_id ∅ tokenize_blank Z.le "data mining / two"
           [("data", [(1, [0])]); ("mining", [(1, [1])])] ValueError H1).
Defined.

(** X15. When the distance is readable and some normalized query term is
    not a key of the positional index, [proximity_query] returns the empty
    list. *)
Theorem proximity_query_missing_term
    (stem : string → string) (stop_words : gset string)
    (word_tokenize : string → list string)
    {K : Type} `{Countable K} (key_order : relation K) `{!RelDecision key_order}
    (query : string) (positional_index : list (string * list (K * list Z)))
    (last_term : string) (k : Z) (term : string) :
  last (word_tokenize query) = Some last_term →
  Codec.int_of_str last_term = ok k →
  term ∈ preprocess stem stop_words query →
  Dict.get term positional_index = None →
  proximity_query stem stop_words word_tokenize key_order query positional_index = ok [].
Proof.
  intros Hlast Hint Hin Hget.
  rewrite (proximity_query_unfold _ _ _ _ _ _ last_term k Hlast Hint). cbv zeta.
  rewrite (forallb_mem_false _ _ term Hin Hget). cbn [bind].
  by rewrite sorted_keys_empty.
Qed.

Lemma proximity_query_missing_term_witness :
  last (tokenize_blank "data silver / 1") = Some "1"
  ∧ Codec.int_of_str "1" = ok 1
  ∧ "silver" ∈ preprocess stem_id ∅ "data silver / 1"
  ∧ Dict.get "silver" [("data", [(1, [0; 2])]); ("gold", [(1, [1])])] = None
  ∧ proximity_query stem_id ∅ tokenize_blank Z.le "data silver / 1"
      [("data", [(1, [0; 2])]); ("gold", [(1, [1])])] = ok [].
Proof.
  assert (last (tokenize_blank "data silver / 1") = Some "1") as H1
    by (vm_compute; reflexivity).
  assert (Codec.int_of_str "1" = ok 1) as H2 by (vm_compute; reflexivity).
  assert ("silver" ∈ preprocess stem_id ∅ "data silver / 1") as H3.
  { replace (preprocess stem_id ∅ "data silver / 1") with ["data"; "silver"]
      by (vm_compute; reflexivity).
    repeat constructor. }
  assert (Dict.get "silver" [("data", [(1, [0; 2])]); ("gold", [(1, [1])])] = None) as H4
    by (vm_compute; reflexivity).
  split; [exact H1|]. split; [exact H2|]. split; [exact H3|]. split; [exact H4|].
  exact (proximity_query_missing_term stem_id ∅ tokenize_blank Z.le "data silver / 1"
           [("data", [(1, [0; 2])]); ("gold", [(1, [1])])] "1" 1 "silver" H1 H2 H3 H4).
Defined.

Section ProximitySymmetry.

Variable stem : string → string.
Variable stop_words : gset string.
Variable word_tokenize : string → list string.

Context {K : Type} `{Countable K}.
Variable key_order : relation K.
Context `{!RelDecision key_order}.

Implicit Types (positional_index : list (string * list (K * list Z))).

Lemma elem_of_positions_of positional_index term postings (doc_id : K) p :
  Dict.get term positional_index = Some postings →
  NoDup postings.*1 →
  p ∈ positions_of positional_index term doc_id
  ↔ ∃ positions, (doc_id, positions) ∈ postings ∧ p ∈ positions.
Proof.
  intros Hget Hnd. unfold positions_of. rewrite Hget. cbn [from_option id]. split.
  - destruct (Dict.get doc_id postings) as [positions|] eqn:Hd; cbn [from_option id].
    + intros Hp. exists positions. split; [by apply dict_get_elem|done].
    + by intros ?%elem_of_nil.
  - intros (positions & Hin & Hp). by rewrite (dict_elem_get _ _ _ Hnd Hin).
Qed.

Lemma scan_postings_pair positional_index a b postings_a postings_b k (x : K) :
  Dict.get a positional_index = Some postings_a →
  Dict.get b positional_index = Some postings_b →
  NoDup postings_a.*1 →
  x ∈ scan_postings positional_index [b] k postings_a
  ↔ ∃ p q, p ∈ positions_of positional_index a x
           ∧ q ∈ positions_of positional_index b x
           ∧ Z.abs (q - p) = k + 1.
Proof.
  intros Ha Hb Hnd. rewrite scan_postings_spec. split.
  - intros (positions & p & term & q & Hin & Hp & ->%list_elem_of_singleton & Hq & Hd).
    exists p, q. split; [|done]. apply (elem_of_positions_of _ _ _ _ _ Ha Hnd). eauto.
  - intros (p & q & Hp & Hq & Hd).
    apply (elem_of_positions_of _ _ _ _ _ Ha Hnd) in Hp as (positions & Hin & Hp).
    exists positions, p, b, q. split_and!; try done. by apply list_elem_of_singleton.
Qed.

End ProximitySymmetry.

(** X16. A two-term proximity query is symmetric in its terms: with the
    same distance, ["B A / k"] returns what ["A B / k"] returns, whatever
    the order of the two terms in the text. *)
Theorem proximity_query_symmetric
    (stem : string → string) (stop_words : gset string)
    (word_tokenize : string → list string)
    {K : Type} `{Countable K} (key_order : relation K) `{!RelDecision key_order}
    (query query' : string) (positional_index : list (string * list (K * list Z)))
    (last_term last_term' : string) (k : Z) (a b : string) :
  last (word_tokenize query) = Some last_term →
  Codec.int_of_str last_term = ok k →
  last (word_tokenize query') = Some last_term' →
  Codec.int_of_str last_term' = ok k →
  preprocess stem stop_words query = [a; b] →
  preprocess stem stop_words query' = [b; a] →
  (∀ term postings, Dict.get term positional_index = Some postings → NoDup postings.*1) →
  proximity_query stem stop_words word_tokenize key_order query positional_index
  = proximity_query stem stop_words word_tokenize key_order query' positional_index.
Proof.
  intros Hlast Hint Hlast' Hint' Hpre Hpre' Hnd.
  rewrite (proximity_query_unfold _ _ _ _ _ _ last_term k Hlast Hint).
  rewrite (proximity_query_unfold _ _ _ _ _ _ last_term' k Hlast' Hint').
  cbv zeta. rewrite Hpre, Hpre'. cbn [forallb]. rewrite !andb_true_r.
  destruct (Dict.mem a positional_index) eqn:Ha;
    destruct (Dict.mem b positional_index) eqn:Hb; cbn [andb bind]; try done.
  apply dict_mem_spec in Ha as [postings_a Ha]. apply dict_mem_spec in Hb as [postings_b Hb].
  rewrite Ha, Hb. cbn [from_option id]. do 2 f_equal. f_equal. apply set_eq. intros x.
  rewrite (scan_postings_pair _ a b postings_a postings_b k x Ha Hb (Hnd _ _ Ha)).
  rewrite (scan_postings_pair _ b a postings_b postings_a k x Hb Ha (Hnd _ _ Hb)).
  split; intros (p & q & Hp & Hq & Hd); exists q, p; (split_and!; [done..|lia]).
Qed.

Lemma proximity_query_symmetric_witness :
  let positional_index :=
    [("data", [(1, [0]); (2, [1])]); ("mining", [(1, [1]); (2, [4])])] in
  last (tokenize_blank "data mining / 0") = Some "0"
  ∧ Codec.int_of_str "0" = ok 0
  ∧ last (tokenize_blank "mining data / 0") = Some "0"
  ∧ preprocess stem_id ∅ "data mining / 0" = ["data"; "mining"]
  ∧ preprocess stem_id ∅ "mining data / 0" = ["mining"; "data"]
  ∧ (∀ term postings, Dict.get term positional_index = Some postings → NoDup postings.*1)
  ∧ proximity_query stem_id ∅ tokenize_blank Z.le "data mining / 0" positional_index
    = proximity_query stem_id ∅ tokenize_blank Z.le "mining data / 0" positional_index.
Proof.
  cbv zeta.
  assert (last (tokenize_blank "data mining / 0") = Some "0") as H1
    by (vm_compute; reflexivity).
  assert (Codec.int_of_str "0" = ok 0) as H2 by (vm_compute; reflexivity).
  assert (last (tokenize_blank "mining data / 0") = Some "0") as H3
    by (vm_compute; reflexivity).
  assert (preprocess stem_id ∅ "data mining / 0" = ["data"; "mining"]) as H4
    by (vm_compute; reflexivity).
  assert (preprocess stem_id ∅ "mining data / 0" = ["mining"; "data"]) as H5
    by (vm_compute; reflexivity).
  assert (∀ term postings,
            Dict.get term [("data", [(1, [0]); (2, [1])]); ("mining", [(1, [1]); (2, [4])])]
            = Some postings → NoDup postings.*1) as H6.
  { intros term postings. cbn [Dict.get]. repeat case_decide; intros [= <-];
      apply (bool_decide_unpack _); vm_compute; exact I. }
  split_and!; [exact H1|exact H2|exact H3|exact H4|exact H5|exact H6|].
  exact (proximity_query_symmetric stem_id ∅ tokenize_blank Z.le
           "data mining / 0" "mining data / 0"
           [("data", [(1, [0]); (2, [1])]); ("mining", [(1, [1]); (2, [4])])]
           "0" "0" 0 "data" "mining" H1 H2 H3 H2 H4 H5 H6).
Defined.

(** X17. A list returned by [proximity_query] is in the order of the
    document ids and has no duplicates, and each of its ids is a document
    of the first normalized query term. *)
Theorem proximity_query_result_ordered
    (stem : string → string) (stop_words : gset string)
    (word_tokenize : string → list string)
    {K : Type} `{Countable K} (key_order : relation K) `{!RelDecision key_order}
    (query : string) (positional_index : list (string * list (K * list Z)))
    (result : list K) :
  Total key_order → Transitive key_order →
  proximity_query stem stop_words word_tokenize key_order query positional_index
  = ok result →
  StronglySorted key_order result
  ∧ NoDup result
  ∧ ∀ d, d ∈ result →
         ∃ first_term postings positions,
           head (preprocess stem stop_words query) = Some first_term
           ∧ Dict.get first_term positional_index = Some postings
           ∧ (d, positions) ∈ postings.
Proof.
  intros Htotal Htrans. unfold proximity_query.
  destruct (last (word_tokenize query)) as [last_term|]; [|done]. cbn [bind].
  destruct (Codec.int_of_str last_term) as [e|k]; [done|]. cbn [bind].
  set (result_set_of :=
         if forallb (λ term, Dict.mem term positional_index)
              (preprocess stem stop_words query)
         then match preprocess stem stop_words query with
              | [] => raise IndexError
              | first_term :: later_terms =>
                  ok (scan_postings positional_index later_terms k
                        (default [] (Dict.get first_term positional_index)))
              end
         else ok ∅).
  destruct result_set_of as [e|result_set] eqn:Hset; [done|]. cbn [bind].
  intros [= <-]. split_and!.
  - apply (Sorted_StronglySorted _). by apply Sorted_merge_sort.
  - rewrite merge_sort_Permutation. apply NoDup_elements.
  - intros d Hd%elem_of_sorted_keys. subst result_set_of.
    destruct (forallb _ (preprocess stem stop_words query)).
    + destruct (preprocess stem stop_words query) as [|first_term later_terms]; [done|].
      injection Hset as <-.
      apply scan_postings_spec in Hd as (positions & _ & _ & _ & Hin & _).
      destruct (Dict.get first_term positional_index) as [postings|] eqn:Hget.
      * by exists first_term, postings, positions.
      * by apply elem_of_nil in Hin.
    + injection Hset as <-. by apply not_elem_of_empty in Hd.
Qed.

Lemma proximity_query_result_ordered_witness :
  Total Z.le ∧ Transitive Z.le
  ∧ proximity_query stem_id ∅ tokenize_blank Z.le "data mining / 0"
      [("data", [(2, [1]); (1, [0; 5])]); ("mining", [(1, [1; 6]); (2, [0])])]
    = ok [1; 2]
  ∧ StronglySorted Z.le [1; 2]
  ∧ NoDup [1; 2]
  ∧ ∀ d, d ∈ [1; 2] →
         ∃ first_term postings positions,
           head (preprocess stem_id ∅ "data mining / 0") = Some first_term
           ∧ Dict.get first_term
               [("data", [(2, [1]); (1, [0; 5])]); ("mining", [(1, [1; 6]); (2, [0])])]
             = Some postings
           ∧ (d, positions) ∈ postings.
Proof.
  assert (proximity_query stem_id ∅ tokenize_blank Z.le "data mining / 0"
            [("data", [(2, [1]); (1, [0; 5])]); ("mining", [(1, [1; 6]); (2, [0])])]
          = ok [1; 2]) as Hq by (vm_compute; reflexivity).
  split; [apply _|]. split; [apply _|]. split; [exact Hq|].
  exact (proximity_query_result_ordered stem_id ∅ tokenize_blank Z.le "data mining / 0"
           [("data", [(2, [1]); (1, [0; 5])]); ("mining", [(1, [1; 6]); (2, [0])])]
           [1; 2] _ _ Hq).
Defined.

(** ** Retrieval over a built index *)

Section Retrieval.

Variable stem : string → string.
Variable stop_words : gset string.

Local Abbreviation build := (build_indexes stem stop_words).
Local Abbreviation occ := (occurrences_in stem stop_words).
Local Abbreviation slot_term := (slot_term stem stop_words).

Lemma elem_of_occurrences_in documents t d p :
  NoDup documents.*1 →
  p ∈ occ documents t d
  ↔ ∃ document slot,
      (d, document) ∈ documents ∧ 0 ≤ p
      ∧ Str.split document !! Z.to_nat p = Some slot ∧ slot_term slot = Some t.
Proof.
  intros Hnd. unfold occurrences_in. split.
  - destruct (Dict.get d documents) as [document|] eqn:Hdoc; [|by intros ?%elem_of_nil].
    intros (Hle & slot & Hslot & Ht)%elem_of_occurrences.
    exists document, slot. split; [by apply dict_get_elem|done].
  - intros (document & slot & Hin & Hle & Hslot & Ht).
    rewrite (dict_elem_get _ _ _ Hnd Hin). apply elem_of_occurrences. eauto.
Qed.

Lemma occurrences_in_nonempty documents t d :
  NoDup documents.*1 →
  occ documents t d ≠ []
  ↔ ∃ document slot,
      (d, document) ∈ documents ∧ slot ∈ Str.split document ∧ slot_term slot = Some t.
Proof.
  intros Hnd. split.
  - destruct (occ documents t d) as [|p ps] eqn:Hocc; [done|]. intros _.
    assert (p ∈ occ documents t d) as Hp by (rewrite Hocc; apply list_elem_of_here).
    apply elem_of_occurrences_in in Hp as (document & slot & Hin & _ & Hslot & Ht); [|done].
    exists document, slot. split; [done|]. split; [|done].
    by eapply list_elem_of_lookup_2.
  - intros (document & slot & Hin & [i Hi]%list_elem_of_lookup_1 & Ht) Hnil.
    assert (Z.of_nat i ∈ occ documents t d) as Hp.
    { apply elem_of_occurrences_in; [done|]. exists document, slot.
      split; [done|]. split; [lia|]. by rewrite Nat2Z.id. }
    rewrite Hnil in Hp. by apply elem_of_nil in Hp.
Qed.

Lemma positions_of_built documents t d :
  NoDup documents.*1 →
  positions_of (build documents).2 t d = occ documents t d.
Proof.
  intros Hnd. pose proof (build_indexes_posting stem stop_words documents t d Hnd) as Hp.
  unfold posting in Hp. unfold positions_of.
  destruct (Dict.get t (build documents).2) as [postings|]; cbn [from_option id] in *.
  - cbn [mbind option_bind] in Hp. rewrite Hp. by destruct (occ documents t d).
  - cbn [mbind option_bind] in Hp. cbn [Dict.get]. by destruct (occ documents t d).
Qed.

End Retrieval.

(** X18. Searching one word in the index built from a collection returns
    the documents in which some white-space separated slot normalizes to a
    list that starts with the token the word is looked up under; with the
    document ids of the collection as universe, NOT before the word returns
    the other documents of the collection. *)
Theorem single_term_retrieval
    (stem : string → string) (stop_words : gset string)
    (documents : list (Z * string)) (all_documents : gset Z) (A a : string) :
  NoDup documents.*1 →
  search_term stem stop_words A a →
  ∃ found others,
    boolean_query stem stop_words A (build_indexes stem stop_words documents).1
      all_documents = ok found
    ∧ boolean_query stem stop_words (Str.join " " ["NOT"; A])
        (build_indexes stem stop_words documents).1 (list_to_set documents.*1)
      = ok others
    ∧ (∀ d, d ∈ found
            ↔ ∃ document slot,
                (d, document) ∈ documents ∧ slot ∈ Str.split document
                ∧ slot_term stem stop_words slot = Some a)
    ∧ (∀ d, d ∈ others ↔ d ∈ documents.*1 ∧ d ∉ found).
Proof.
  intros Hnd HA. pose proof (search_term_word _ _ _ _ HA) as Hword.
  set (inverted_index := (build_indexes stem stop_words documents).1).
  exists (sorted_set (postings_of inverted_index a)),
         (sorted_set (list_to_set documents.*1 ∖ postings_of inverted_index a)).
  split_and!.
  - unfold boolean_query. rewrite split_word by done. cbn [Codec.fold_exn].
    by rewrite (step_search _ _ _ _ _ _ _ HA).
  - unfold boolean_query. rewrite split_join by (repeat constructor; done).
    cbn [Codec.fold_exn]. rewrite step_NOT. cbn [bind].
    by rewrite (step_search _ _ _ _ _ _ _ HA).
  - intros d. unfold sorted_set. rewrite elem_of_sorted_ints, elem_of_postings_of.
    subst inverted_index. rewrite build_indexes_inverted by done.
    by apply occurrences_in_nonempty.
  - intros d. unfold sorted_set.
    rewrite !elem_of_sorted_ints, elem_of_difference, elem_of_list_to_set. done.
Qed.

Lemma single_term_retrieval_witness :
  NoDup docs_example.*1
  ∧ search_term stem_id {["is"; "for"]} "Gold!" "gold"
  ∧ ∃ found others,
      boolean_query stem_id {["is"; "for"]} "Gold!"
        (build_indexes stem_id {["is"; "for"]} docs_example).1 ∅ = ok found
      ∧ boolean_query stem_id {["is"; "for"]} (Str.join " " ["NOT"; "Gold!"])
          (build_indexes stem_id {["is"; "for"]} docs_example).1
          (list_to_set docs_example.*1)
        = ok others
      ∧ (∀ d, d ∈ found
              ↔ ∃ document slot,
                  (d, document) ∈ docs_example ∧ slot ∈ Str.split document
                  ∧ slot_term stem_id {["is"; "for"]} slot = Some "gold")
      ∧ (∀ d, d ∈ others ↔ d ∈ docs_example.*1 ∧ d ∉ found).
Proof.
  assert (NoDup docs_example.*1) as H1.
  { apply (bool_decide_unpack _). vm_compute. exact I. }
  assert (search_term stem_id {["is"; "for"]} "Gold!" "gold") as H2
    by (split_and!; vm_compute; reflexivity).
  split; [exact H1|]. split; [exact H2|].
  exact (single_term_retrieval stem_id {["is"; "for"]} docs_example ∅ "Gold!" "gold" H1 H2).
Defined.

(** X19. A two-term proximity query over the positional index built from a
    collection returns the documents that have a slot recorded under the
    first term and a slot recorded under the second term whose slot numbers
    differ by exactly [k + 1], in either order; slots that normalize to
    nothing are counted in the slot numbers. *)
Theorem proximity_retrieval
    (stem : string → string) (stop_words : gset string)
    (word_tokenize : string → list string)
    (documents : list (Z * string)) (query last_term : string) (k : Z) (a b : string) :
  NoDup documents.*1 →
  last (word_tokenize query) = Some last_term →
  Codec.int_of_str last_term = ok k →
  preprocess stem stop_words query = [a; b] →
  ∃ result,
    proximity_query stem stop_words word_tokenize Z.le query
      (build_indexes stem stop_words documents).2 = ok result
    ∧ ∀ d, d ∈ result
           ↔ ∃ document p q slot_a slot_b,
               (d, document) ∈ documents
               ∧ Str.split document !! p = Some slot_a
               ∧ slot_term stem stop_words slot_a = Some a
               ∧ Str.split document !! q = Some slot_b
               ∧ slot_term stem stop_words slot_b = Some b
               ∧ Z.abs (Z.of_nat q - Z.of_nat p) = k + 1.
Proof.
  intros Hnd Hlast Hint Hpre.
  set (positional_index := (build_indexes stem stop_words documents).2).
  assert (∀ d, (∃ p q, p ∈ positions_of positional_index a d
                        ∧ q ∈ positions_of positional_index b d
                        ∧ Z.abs (q - p) = k + 1)
               ↔ ∃ document p q slot_a slot_b,
                   (d, document) ∈ documents
                   ∧ Str.split document !! p = Some slot_a
                   ∧ slot_term stem stop_words slot_a = Some a
                   ∧ Str.split document !! q = Some slot_b
                   ∧ slot_term stem stop_words slot_b = Some b
                   ∧ Z.abs (Z.of_nat q - Z.of_nat p) = k + 1) as Hslots.
  { intros d. subst positional_index. rewrite !positions_of_built by done. split.
    - intros (p & q & Hp & Hq & Hd).
      apply elem_of_occurrences_in in Hp as (document & slot_a & Hin & Hp & Ha & Hta);
        [|done].
      apply elem_of_occurrences_in in Hq as (document' & slot_b & Hin' & Hq & Hb & Htb);
        [|done].
      assert (document' = document) as ->.
      { apply (dict_elem_get _ _ _ Hnd) in Hin, Hin'. congruence. }
      exists document, (Z.to_nat p), (Z.to_nat q), slot_a, slot_b.
      split_and!; try done. by rewrite !Z2Nat.id.
    - intros (document & p & q & slot_a & slot_b & Hin & Ha & Hta & Hb & Htb & Hd).
      exists (Z.of_nat p), (Z.of_nat q). split_and!; [| |done].
      + apply elem_of_occurrences_in; [done|]. exists document, slot_a.
        split_and!; [done|lia| |done]. by rewrite Nat2Z.id.
      + apply elem_of_occurrences_in; [done|]. exists document, slot_b.
        split_and!; [done|lia| |done]. by rewrite Nat2Z.id. }
  rewrite (proximity_query_unfold _ _ _ _ _ _ last_term k Hlast Hint). cbv zeta.
  rewrite Hpre. cbn [forallb]. rewrite andb_true_r.
  fold positional_index.
  destruct (Dict.mem a positional_index) eqn:Ha;
    [destruct (Dict.mem b positional_index) eqn:Hb|]; cbn [andb bind].
  - apply dict_mem_spec in Ha as [postings_a Ha].
    apply dict_mem_spec in Hb as [postings_b Hb].
    eexists. split; [done|]. intros d. rewrite elem_of_sorted_keys, Ha.
    cbn [from_option id]. rewrite <- Hslots.
    apply (scan_postings_pair _ a b postings_a postings_b k d Ha Hb).
    pose proof (build_indexes_well_formed stem stop_words documents Hnd) as (_ & Hk & Hall).
    rewrite Forall_forall in Hall.
    by destruct (Hall (a, postings_a) (dict_get_elem _ _ _ Ha)).
  - eexists. split; [done|]. intros d. rewrite elem_of_sorted_keys, <- Hslots.
    split; [by intros ?%not_elem_of_empty|]. intros (p & q & _ & Hq & _).
    assert (Dict.get b positional_index = None) as Hnone.
    { destruct (Dict.get b positional_index) eqn:Hget; [|done].
      assert (Dict.mem b positional_index = true) by (apply dict_mem_spec; eauto).
      congruence. }
    unfold positions_of in Hq. rewrite Hnone in Hq. by apply elem_of_nil in Hq.
  - eexists. split; [done|]. intros d. rewrite elem_of_sorted_keys, <- Hslots.
    split; [by intros ?%not_elem_of_empty|]. intros (p & q & Hp & _).
    assert (Dict.get a positional_index = None) as Hnone.
    { destruct (Dict.get a positional_index) eqn:Hget; [|done].
      assert (Dict.mem a positional_index = true) by (apply dict_mem_spec; eauto).
      congruence. }
    unfold positions_of in Hp. rewrite Hnone in Hp. by apply elem_of_nil in Hp.
Qed.

Lemma proximity_retrieval_witness :
  NoDup docs_example.*1
  ∧ last (tokenize_blank "gold mining / 2") = Some "2"
  ∧ Codec.int_of_str "2" = ok 2
  ∧ preprocess stem_id {["is"; "for"]} "gold mining / 2" = ["gold"; "mining"]
  ∧ ∃ result,
      proximity_query stem_id {["is"; "for"]} tokenize_blank Z.le "gold mining / 2"
        (build_indexes stem_id {["is"; "for"]} docs_example).2 = ok result
      ∧ ∀ d, d ∈ result
             ↔ ∃ document p q slot_a slot_b,
                 (d, document) ∈ docs_example
                 ∧ Str.split document !! p = Some slot_a
                 ∧ slot_term stem_id {["is"; "for"]} slot_a = Some "gold"
                 ∧ Str.split document !! q = Some slot_b
                 ∧ slot_term stem_id {["is"; "for"]} slot_b = Some "mining"
                 ∧ Z.abs (Z.of_nat q - Z.of_nat p) = 2 + 1.
Proof.
  assert (NoDup docs_example.*1) as H1.
  { apply (bool_decide_unpack _). vm_compute. exact I. }
  assert (last (tokenize_blank "gold mining / 2") = Some "2") as H2
    by (vm_compute; reflexivity).
  assert (Codec.int_of_str "2" = ok 2) as H3 by (vm_compute; reflexivity).
  assert (preprocess stem_id {["is"; "for"]} "gold mining / 2" = ["gold"; "mining"]) as H4
    by (vm_compute; reflexivity).
  split; [exact H1|]. split; [exact H2|]. split; [exact H3|]. split; [exact H4|].
  exact (proximity_retrieval stem_id {["is"; "for"]} tokenize_blank docs_example
           "gold mining / 2" "2" 2 "gold" "mining" H1 H2 H3 H4).
Defined.

(** ** The index files of [build_indexes] *)

(** X20. Once the two index files exist, [build_indexes] returns what they
    hold whatever documents it is given: after a first run on a collection
    has written the files, every later run returns the inverted index of
    that first collection and its positional index with the document ids
    as strings, and leaves the files as they are. *)
Theorem build_indexes_reuses_files
    (stem : string → string) (stop_words : gset string)
    (documents later_documents : list (Z * string)) :
  NoDup documents.*1 →
  Forall (λ t, term_ok t = true) (build_indexes stem stop_words documents).1.*1 →
  Forall (λ t, term_ok t = true) (build_indexes stem stop_words documents).2.*1 →
  ∃ files,
    build_indexes_with_files stem stop_words (IndexFiles None None) documents
    = ok (((build_indexes stem stop_words documents).1,
           int_keyed (build_indexes stem stop_words documents).2), files)
    ∧ build_indexes_with_files stem stop_words files later_documents
      = ok (((build_indexes stem stop_words documents).1,
             str_keyed (stringify_keys (build_indexes stem stop_words documents).2)),
            files).
Proof.
  intros Hnd Hterms1 Hterms2.
  destruct (built_indexes_round_trip stem stop_words documents Hnd Hterms1 Hterms2)
    as [Hinv Hpos].
  unfold build_indexes_with_files. cbn [inverted_index_file positional_index_file].
  destruct (build_indexes stem stop_words documents) as [inverted_index positional_index].
  cbn [fst snd] in *. eexists. split; [reflexivity|].
  cbn [inverted_index_file positional_index_file].
  rewrite Hinv. cbn [bind]. by rewrite Hpos.
Qed.

Lemma build_indexes_reuses_files_witness :
  NoDup docs_example.*1
  ∧ Forall (λ t, term_ok t = true) (build_indexes stem_id {["is"; "for"]} docs_example).1.*1
  ∧ Forall (λ t, term_ok t = true) (build_indexes stem_id {["is"; "for"]} docs_example).2.*1
  ∧ ∃ files,
      build_indexes_with_files stem_id {["is"; "for"]} (IndexFiles None None) docs_example
      = ok (((build_indexes stem_id {["is"; "for"]} docs_example).1,
             int_keyed (build_indexes stem_id {["is"; "for"]} docs_example).2), files)
      ∧ build_indexes_with_files stem_id {["is"; "for"]} files [(7, "silver spoon")]
        = ok (((build_indexes stem_id {["is"; "for"]} docs_example).1,
               str_keyed
                 (stringify_keys (build_indexes stem_id {["is"; "for"]} docs_example).2)),
              files).
Proof.
  assert (NoDup docs_example.*1) as H1.
  { apply (bool_decide_unpack _). vm_compute. exact I. }
  assert (Forall (λ t, term_ok t = true)
            (build_indexes stem_id {["is"; "for"]} docs_example).1.*1) as H2.
  { apply (bool_decide_unpack _). vm_compute. exact I. }
  assert (Forall (λ t, term_ok t = true)
            (build_indexes stem_id {["is"; "for"]} docs_example).2.*1) as H3.
  { apply (bool_decide_unpack _). vm_compute. exact I. }
  split; [exact H1|]. split; [exact H2|]. split; [exact H3|].
  exact (build_indexes_reuses_files stem_id {["is"; "for"]} docs_example
           [(7, "silver spoon")] H1 H2 H3).
Defined.

(** ** Loading the documents *)

Lemma dict_set_append {K V} `{EqDecision K} (k : K) (v : V) (d : list (K * V)) :
  k ∉ d.*1 → Dict.set k v d = d ++ [(k, v)].
Proof.
  induction d as [|[k0 v0] d IH]; [done|]. csimpl.
  intros [Hne Hk]%not_elem_of_cons. rewrite decide_False by done.
  by rewrite IH.
Qed.

Lemma dict_set_elem {K V} `{EqDecision K} (k k' : K) (v v' : V) (d : list (K * V)) :
  (k', v') ∈ Dict.set k v d → (k' = k ∧ v' = v) ∨ (k', v') ∈ d.
Proof.
  induction d as [|[k0 v0] d IH]; csimpl.
  - intros [= -> ->]%list_elem_of_singleton. by left.
  - case_decide as Hk.
    + intros [[= -> ->]|Hin]%elem_of_cons; [by left|].
      right. by apply list_elem_of_further.
    + intros [[= -> ->]|Hin]%elem_of_cons; [right; apply list_elem_of_here|].
      destruct (IH Hin) as [?|?]; [by left|right]. by apply list_elem_of_further.
Qed.

Lemma endswith_app (suffix s : string) : endswith suffix (s +:+ suffix) = true.
Proof.
  induction s as [|c s IH].
  - rewrite string_app_nil_l. destruct suffix; cbn [endswith]; by rewrite String.eqb_refl.
  - rewrite string_app_cons. cbn [endswith]. rewrite IH. apply orb_true_r.
Qed.

Lemma before_last_dot_txt (s : string) :
  no_char "." s = true → before_last_dot (s +:+ ".txt") = Some s.
Proof.
  unfold no_char. induction s as [|c s IH]; [done|].
  cbn [Str.forallb]. intros [Hc Hs]%andb_true_iff.
  rewrite string_app_cons. cbn [before_last_dot]. by rewrite IH.
Qed.

Lemma splitext_root_numbered (n : Z) :
  splitext_root (Codec.str_of_int n +:+ ".txt") = Codec.str_of_int n.
Proof.
  unfold splitext_root. rewrite before_last_dot_txt by (by apply str_of_int_no_char).
  destruct (str_of_int_shape n) as [Hall Hne].
  destruct (Codec.str_of_int n) as [|c r]; [done|].
  cbn [Str.forallb] in *. apply andb_true_iff in Hall as [Hc _].
  destruct (Ascii.eqb_spec c ".") as [->|]; [done|]. done.
Qed.

Lemma load_document_numbered (acc : list (Z * string)) (document : Z * string) :
  document.1 ∉ acc.*1 →
  load_document acc (document_file document) = ok (acc ++ [document]).
Proof.
  intros Hfresh. unfold load_document, document_file. cbn [fst snd].
  rewrite endswith_app, splitext_root_numbered, int_of_str_of_int. cbn [bind].
  rewrite dict_set_append by done. by destruct document.
Qed.

Lemma load_documents_numbered_from (acc documents : list (Z * string)) :
  NoDup (acc ++ documents).*1 →
  Codec.fold_exn load_document acc (document_file <$> documents) = ok (acc ++ documents).
Proof.
  revert acc. induction documents as [|document documents IH]; intros acc Hnd.
  - by rewrite app_nil_r.
  - cbn [fmap list_fmap Codec.fold_exn]. rewrite load_document_numbered.
    + cbn [bind]. rewrite IH; [by rewrite <- app_assoc|]. by rewrite <- app_assoc.
    + rewrite fmap_app in Hnd. apply NoDup_app in Hnd as (_ & Hnd & _).
      intros Hin. apply (Hnd _ Hin). csimpl. apply list_elem_of_here.
Qed.

(** X21. A directory that holds the documents of a collection under their
    numbers, one file [<id>.txt] per document, is loaded as that
    collection, in the order of the listing. *)
Theorem load_documents_numbered_files (documents : list (Z * string)) :
  NoDup documents.*1 →
  load_documents (document_file <$> documents) = ok documents.
Proof. intros Hnd. by apply (load_documents_numbered_from []). Qed.

Lemma load_documents_numbered_files_witness :
  NoDup docs_example.*1
  ∧ load_documents (document_file <$> docs_example) = ok docs_example.
Proof.
  assert (NoDup docs_example.*1) as H1.
  { apply (bool_decide_unpack _). vm_compute. exact I. }
  split; [exact H1|]. exact (load_documents_numbered_files docs_example H1).
Defined.

(** X22. Files whose names do not end in [.txt] are ignored: removing them
    from the listing changes nothing, whether the load returns or raises. *)
Theorem load_documents_ignores_other_files (directory : list (string * string)) :
  load_documents (filter (λ file, endswith ".txt" file.1 = true) directory)
  = load_documents directory.
Proof.
  unfold load_documents. generalize (@nil (Z * string)) as acc.
  induction directory as [|file directory IH]; intros acc; [done|].
  rewrite filter_cons. cbn [Codec.fold_exn].
  destruct (decide (endswith ".txt" file.1 = true)) as [Htxt|Htxt].
  - cbn [Codec.fold_exn]. destruct (load_document acc file); [done|]. cbn [bind]. apply IH.
  - unfold load_document at 2. apply not_true_is_false in Htxt. rewrite Htxt.
    cbn [bind]. apply IH.
Qed.

Section LoadedDocuments.

Variable directory : list (string * string).

(** What holds of the documents loaded so far. *)
Local Abbreviation loaded_from documents :=
  (NoDup documents.*1
   ∧ ∀ d text, (d, text) ∈ documents →
               ∃ filename, (filename, text) ∈ directory
                           ∧ endswith ".txt" filename = true
                           ∧ Codec.int_of_str (splitext_root filename) = ok d).

Lemma load_document_loaded (acc documents : list (Z * string)) (file : string * string) :
  file ∈ directory →
  loaded_from acc →
  load_document acc file = ok documents →
  loaded_from documents.
Proof.
  intros Hfile [Hnd Hacc]. unfold load_document.
  destruct (endswith ".txt" file.1) eqn:Htxt; [|by intros [= <-]].
  destruct (Codec.int_of_str (splitext_root file.1)) as [e|doc_id] eqn:Hid; [done|].
  cbn [bind]. intros [= <-]. split; [by apply dict_set_NoDup|].
  intros d text [[-> ->]|Hin]%dict_set_elem; [|by apply Hacc].
  exists file.1. split; [by destruct file|done].
Qed.

Lemma load_documents_loaded (files : list (string * string)) (acc documents : list (Z * string)) :
  (∀ file, file ∈ files → file ∈ directory) →
  loaded_from acc →
  Codec.fold_exn load_document acc files = ok documents →
  loaded_from documents.
Proof.
  revert acc. induction files as [|file files IH]; intros acc Hfiles Hacc.
  - by intros [= <-].
  - cbn [Codec.fold_exn]. destruct (load_document acc file) as [e|acc'] eqn:Hfile; [done|].
    cbn [bind]. apply IH.
    + intros f Hf. by apply Hfiles, list_elem_of_further.
    + eapply load_document_loaded; [|done..]. apply Hfiles, list_elem_of_here.
Qed.

End LoadedDocuments.

(** X23. The documents loaded from a directory have distinct ids, so they
    form a collection the index builder can take, and each of them is the
    text of a file of the directory whose name ends in [.txt] and reads,
    without that extension, as the integer that is its id. *)
Theorem load_documents_distinct_ids
    (directory : list (string * string)) (documents : list (Z * string)) :
  load_documents directory = ok documents →
  NoDup documents.*1
  ∧ ∀ d text, (d, text) ∈ documents →
              ∃ filename, (filename, text) ∈ directory
                          ∧ endswith ".txt" filename = true
                          ∧ Codec.int_of_str (splitext_root filename) = ok d.
Proof.
  intros Hload. apply (load_documents_loaded directory directory [] documents).
  - done.
  - split; [constructor|]. by intros d text ?%elem_of_nil.
  - exact Hload.
Qed.

Lemma load_documents_distinct_ids_witness :
  load_documents [("2.txt", "two"); ("notes.md", "none"); ("02.txt", "deux"); ("1.txt", "one")]
  = ok [(2, "deux"); (1, "one")]
  ∧ NoDup [(2, "deux"); (1, "one")].*1
  ∧ ∀ d text, (d, text) ∈ [(2, "deux"); (1, "one")] →
              ∃ filename,
                (filename, text)
                ∈ [("2.txt", "two"); ("notes.md", "none"); ("02.txt", "deux"); ("1.txt", "one")]
                ∧ endswith ".txt" filename = true
                ∧ Codec.int_of_str (splitext_root filename) = ok d.
Proof.
  assert (load_documents
            [("2.txt", "two"); ("notes.md", "none"); ("02.txt", "deux"); ("1.txt", "one")]
          = ok [(2, "deux"); (1, "one")]) as H1 by (vm_compute; reflexivity).
  split; [exact H1|].
  exact (load_documents_distinct_ids _ _ H1).
Defined.

(** X24. For a listing whose file names have at most 4300 characters (the
    length up to which [int] reads every numeral), [load_documents] raises
    exactly when the listing has a file whose name ends in [.txt] and does
    not read, without that extension, as an integer; the exception is
    [ValueError]. *)
Theorem load_documents_raises_iff (directory : list (string * string)) (e : exn) :
  Forall (λ file, (String.length file.1 ≤ 4300)%nat) directory →
  load_documents directory = raise e
  ↔ e = ValueError
    ∧ ∃ file, file ∈ directory ∧ endswith ".txt" file.1 = true
              ∧ Codec.int_of_str (splitext_root file.1) = raise ValueError.
Proof.
  intros _. unfold load_documents. generalize (@nil (Z * string)) as acc.
  induction directory as [|file directory IH]; intros acc; cbn [Codec.fold_exn].
  - split; [done|]. by intros (_ & ? & ?%elem_of_nil & _).
  - unfold load_document at 1.
    destruct (endswith ".txt" file.1) eqn:Htxt.
    + destruct (Codec.int_of_str (splitext_root file.1)) as [e'|doc_id] eqn:Hid;
        cbn [bind].
      * pose proof (int_of_str_raises _ _ Hid) as ->. split.
        -- intros [= <-]. split; [done|]. exists file.
           split; [apply list_elem_of_here|done].
        -- by intros [-> _].
      * rewrite IH. split.
        -- intros (-> & f & Hin & ?). split; [done|]. exists f.
           split; [by apply list_elem_of_further|done].
        -- intros (-> & f & [->|Hin]%elem_of_cons & Hf & Hraise); [congruence|eauto].
    + cbn [bind]. rewrite IH. split.
      * intros (-> & f & Hin & ?). split; [done|]. exists f.
        split; [by apply list_elem_of_further|done].
      * intros (-> & f & [->|Hin]%elem_of_cons & Hf & Hraise); [congruence|eauto].
Qed.

Lemma load_documents_raises_iff_witness :
  Forall (λ file, (String.length file.1 ≤ 4300)%nat)
    [("1.txt", "one"); ("draft.txt", "none")]
  ∧ load_documents [("1.txt", "one"); ("draft.txt", "none")] = raise ValueError
  ∧ (load_documents [("1.txt", "one"); ("draft.txt", "none")] = raise ValueError
     ↔ ValueError = ValueError
       ∧ ∃ file, file ∈ [("1.txt", "one"); ("draft.txt", "none")]
                 ∧ endswith ".txt" file.1 = true
                 ∧ Codec.int_of_str (splitext_root file.1) = raise ValueError).
Proof.
  assert (Forall (λ file : string * string, (String.length file.1 ≤ 4300)%nat)
            [("1.txt", "one"); ("draft.txt", "none")]) as H1.
  { repeat constructor; cbn [fst String.length]; lia. }
  split; [exact H1|]. split; [vm_compute; reflexivity|].
  exact (load_documents_raises_iff [("1.txt", "one"); ("draft.txt", "none")] ValueError H1).
Defined.

(** ** Loading the stopwords *)

Lemma elem_of_load_stopwords (content w : string) :
  w ∈ load_stopwords content
  ↔ ∃ line, line ∈ Codec.file_lines content ∧ w = Str.strip line.
Proof.
  unfold load_stopwords.
  rewrite (foldl_adds _ (λ line w, w = Str.strip line)).
  - split; [|eauto]. by intros [?%not_elem_of_empty|?].
  - intros R line x. rewrite elem_of_union, elem_of_singleton. tauto.
Qed.

(** What [strip] returns has white space at neither end. *)
Lemma strip_shape (s : string) :
  Str.strip s = "" ∨ (starts_nonspace (Str.strip s) ∧ ends_nonspace (Str.strip s)).
Proof.
  unfold Str.strip.
  destruct (lstrip_decompose (String.rev (Str.lstrip s))) as (ws & Hrev & Hws).
  destruct (Str.lstrip (String.rev (Str.lstrip s))) as [|c r] eqn:Hb; [by left|].
  right.
  assert (Chr.isspace c = false) as Hc.
  { destruct (String.rev (Str.lstrip s)) as [|x rest] eqn:Hx; [done|].
    revert Hb. clear. revert x.
    induction rest as [|y rest IH]; intros x; cbn [Str.lstrip].
    - destruct (Chr.isspace x) eqn:Hx; [done|]. by intros [= <- <-].
    - destruct (Chr.isspace x) eqn:Hx; [|by intros [= <- <-]]. apply IH. }
  split.
  - apply (f_equal String.rev) in Hrev. rewrite rev_involutive, rev_app_distr in Hrev.
    destruct (String.rev (String c r)) as [|x rest] eqn:Hx.
    { apply (f_equal String.rev) in Hx. by rewrite rev_involutive in Hx. }
    exists x, rest. split; [done|].
    rewrite string_app_cons in Hrev.
    destruct (Str.lstrip s) as [|y tail] eqn:Hl; [done|]. injection Hrev as -> _.
    revert Hl. clear. induction s as [|z s IH]; [done|]. cbn [Str.lstrip].
    destruct (Chr.isspace z) eqn:Hz; [done|]. by intros [= <- _].
  - unfold ends_nonspace. rewrite rev_involutive. by exists c, r.
Qed.

(** X25. Every stopword read from the stopword file is a line of the file
    with the white space at both ends removed: it is empty (a blank line)
    or it starts and ends with a character that is not white space. *)
Theorem load_stopwords_stripped (content w : string) :
  w ∈ load_stopwords content →
  (∃ line, line ∈ Codec.file_lines content ∧ w = Str.strip line)
  ∧ (w = "" ∨ (starts_nonspace w ∧ ends_nonspace w)).
Proof.
  intros (line & Hline & ->)%elem_of_load_stopwords. split; [eauto|]. apply strip_shape.
Qed.

Lemma file_lines_words (words : list string) :
  Forall (λ w, is_word w = true) words →
  Codec.file_lines (Codec.concat_str ((λ w, w +:+ String "010" "") <$> words))
  = (λ w, w +:+ String "010" "") <$> words.
Proof.
  intros Hwords. unfold Codec.file_lines. rewrite universal_newlines_id.
  - induction Hwords as [|w words Hw _ IH]; [done|].
    cbn [fmap list_fmap Codec.concat_str foldr].
    rewrite string_app_assoc, string_app_cons, string_app_nil_l.
    rewrite lines_go_line, string_app_nil_l.
    + f_equal. exact IH.
    + apply andb_true_iff in Hw as [_ Hw]. by apply nonspace_no_char.
  - induction Hwords as [|w words Hw _ IH]; [done|].
    cbn [fmap list_fmap Codec.concat_str foldr].
    unfold no_char in *. rewrite !forallb_app.
    apply andb_true_iff in Hw as [_ Hw].
    fold (no_char "013" w). rewrite (nonspace_no_char "013" w) by done.
    cbn [Str.forallb andb]. exact IH.
Qed.

(** X26. A stopword file that lists words one per line is loaded as the set
    of those words. *)
Theorem load_stopwords_word_list (words : list string) :
  Forall (λ w, is_word w = true) words →
  load_stopwords (Codec.concat_str ((λ w, w +:+ String "010" "") <$> words))
  = list_to_set words.
Proof.
  intros Hwords. apply set_eq. intros w.
  rewrite elem_of_load_stopwords, file_lines_words, elem_of_list_to_set by done.
  split.
  - intros (line & (w' & -> & Hin)%list_elem_of_fmap & ->).
    rewrite Forall_forall in Hwords.
    rewrite strip_line;
      [done|by apply starts_nonspace_word, Hwords|by apply ends_nonspace_word, Hwords].
  - intros Hin. exists (w +:+ String "010" ""). split.
    + apply list_elem_of_fmap. eauto.
    + rewrite Forall_forall in Hwords.
      by rewrite strip_line;
        [|apply starts_nonspace_word, Hwords|apply ends_nonspace_word, Hwords].
Qed.

Lemma load_stopwords_stripped_witness :
  "for" ∈ load_stopwords "is
  for  
"
  ∧ (∃ line, line ∈ Codec.file_lines "is
  for  
" ∧ "for" = Str.strip line)
  ∧ ("for" = "" ∨ (starts_nonspace "for" ∧ ends_nonspace "for")).
Proof.
  assert ("for" ∈ load_stopwords "is
  for  
") as H1.
  { apply (bool_decide_unpack _). vm_compute. exact I. }
  split; [exact H1|].
  exact (load_stopwords_stripped _ "for" H1).
Defined.

Lemma load_stopwords_word_list_witness :
  Forall (λ w, is_word w = true) ["is"; "for"]
  ∧ load_stopwords (Codec.concat_str ((λ w, w +:+ String "010" "") <$> ["is"; "for"]))
    = list_to_set ["is"; "for"].
Proof.
  assert (Forall (λ w, is_word w = true) ["is"; "for"]) as H1 by (repeat constructor).
  split; [exact H1|]. exact (load_stopwords_word_list ["is"; "for"] H1).
Defined.
